(** * Plainly: the client-side translation orchestration pipeline

    A shallow embedding of the TypeScript sources

    - [extension/src/shared/constants.ts]
    - [extension/src/content/text-extractor.ts]
    - [extension/src/content/content-script.ts]
    - [extension/src/background/service-worker.ts]
    - [api/translate.ts]

    followed by the properties the specification states about them.

    Conventions.  A JavaScript string is the list of its UTF-16 code units;
    the regular expressions of the sources carry no [u] flag, so a character
    class matches one code unit at a time and [text.length] is the length of
    that list.  JavaScript numbers are IEEE doubles; the only non-integer
    arithmetic of the sources is the quotient of two counts compared with a
    decimal literal ([k / total > 0.6] and the like).  Such a quotient is
    modelled as the exact rational.  For counts below 2^49, far above the
    length of any string, the two agree: a quotient [k / n] equal to the
    literal [p / q] rounds to the same double as the literal, and one that
    differs from it does so by at least [1 / (q * n)], more than the two
    roundings together can bridge, so that the correctly rounded quotient
    lies on the same side of the rounded literal. *)

From Stdlib Require Import QArith ZArith NArith Lia String Ascii.
From stdpp Require Import gmap list.
From Equations Require Import Equations.

Set Warnings "-register-all,-clear-no-such-hyp".
Close Scope Q_scope.

(* ===================================================================== *)
(** * JavaScript strings *)
(* ===================================================================== *)

Module Js.

(** A string is its sequence of UTF-16 code units. *)
Abbreviation jsstring := (list N).

Definition in_range (lo hi c : N) : bool := (lo <=? c)%N && (c <=? hi)%N.

(** [(text.match(/[...]/g) || []).length] for a character class [cls]. *)
Definition matchCount (cls : N -> bool) (text : jsstring) : nat :=
  length (List.filter cls text).

(** ECMAScript [WhiteSpace] and [LineTerminator] code points, the ones
    [String.prototype.trim] strips. *)
Definition isTrimmable (c : N) : bool :=
  in_range 0x09 0x0D c || (c =? 0x20)%N || (c =? 0xA0)%N || (c =? 0x1680)%N
  || in_range 0x2000 0x200A c || (c =? 0x2028)%N || (c =? 0x2029)%N
  || (c =? 0x202F)%N || (c =? 0x205F)%N || (c =? 0x3000)%N || (c =? 0xFEFF)%N.

Fixpoint trimStart (s : jsstring) : jsstring :=
  match s with
  | c :: s' => if isTrimmable c then trimStart s' else s
  | [] => []
  end.

Definition trimEnd (s : jsstring) : jsstring := rev (trimStart (rev s)).

Definition trim (s : jsstring) : jsstring := trimEnd (trimStart s).

(** String literals of the examples, for the ASCII range. *)
Fixpoint ofString (s : string) : jsstring :=
  match s with
  | EmptyString => []
  | String a s' => N_of_ascii a :: ofString s'
  end.

(** A string is falsy exactly when it is empty. *)
Definition truthy (s : jsstring) : bool :=
  match s with [] => false | _ :: _ => true end.

(** The quotient [a / b] of two counts, and the comparisons [>] and [<]
    on numbers. *)
Definition quot (a b : nat) : Q :=
  (inject_Z (Z.of_nat a) / inject_Z (Z.of_nat b))%Q.

Definition Qgtb (x y : Q) : bool := negb (Qle_bool x y).
Definition Qltb (x y : Q) : bool := negb (Qle_bool y x).

End Js.

Import Js.

(* ===================================================================== *)
(** * shared/types.ts and shared/constants.ts *)
(* ===================================================================== *)

Inductive LanguageCode := en | ko | ja | zh | es | fr | de.

#[global] Instance LanguageCode_eq_dec : EqDecision LanguageCode.
Proof. solve_decision. Defined.

Record TranslatedText := mkTranslatedText {
  original : jsstring;
  translated : jsstring
}.

Record TranslationSettings := mkSettings {
  sourceLang : LanguageCode;
  targetLang : LanguageCode;
  autoTranslate : bool
}.

Record TranslationStatus := mkStatus {
  isTranslated : bool;
  count : nat;
  statusAutoTranslate : bool
}.

Module Constants.

Definition SKIP_TAGS : list string :=
  [ "SCRIPT"; "STYLE"; "NOSCRIPT"; "IFRAME"; "OBJECT";
    "EMBED"; "SVG"; "CANVAS"; "VIDEO"; "AUDIO"; "CODE";
    "PRE"; "KBD"; "VAR"; "SAMP"; "TEXTAREA"; "INPUT" ]%string.

Definition MIN_TEXT_LENGTH : nat := 2.
Definition MAX_TEXT_LENGTH : nat := 5000.
Definition MAX_TEXTS_PER_REQUEST : nat := 8.
Definition MAX_CONCURRENT_REQUESTS : nat := 6.

End Constants.

(* ===================================================================== *)
(** * content/text-extractor.ts: the language classifier *)
(* ===================================================================== *)

Module Classifier.

(** [LanguageCode | 'mixed'] *)
Inductive Detected := Lang (l : LanguageCode) | Mixed.

#[global] Instance Detected_eq_dec : EqDecision Detected.
Proof. solve_decision. Defined.

(** [/[가-힣]/] *)
Definition isHangul (c : N) : bool := in_range 0xAC00 0xD7A3 c.
(** [/[\u3040-\u309F\u30A0-\u30FF]/] *)
Definition isKana (c : N) : bool :=
  in_range 0x3040 0x309F c || in_range 0x30A0 0x30FF c.
(** [/[\u4E00-\u9FFF]/] *)
Definition isCJK (c : N) : bool := in_range 0x4E00 0x9FFF c.
(** [/[a-zA-ZÀ-ÿ]/] *)
Definition isLatin (c : N) : bool :=
  in_range 0x61 0x7A c || in_range 0x41 0x5A c || in_range 0xC0 0xFF c.

Definition koreanChars (text : jsstring) : nat := matchCount isHangul text.
Definition japaneseChars (text : jsstring) : nat := matchCount isKana text.
Definition chineseChars (text : jsstring) : nat := matchCount isCJK text.
Definition latinChars (text : jsstring) : nat := matchCount isLatin text.

Definition total (text : jsstring) : nat :=
  koreanChars text + japaneseChars text + chineseChars text + latinChars text.

Definition koreanRatio (text : jsstring) : Q := quot (koreanChars text) (total text).
Definition japaneseRatio (text : jsstring) : Q := quot (japaneseChars text) (total text).
Definition chineseRatio (text : jsstring) : Q := quot (chineseChars text) (total text).

Definition detectLanguage (text : jsstring) : Detected :=
  if (total text =? 0) then Mixed
  else if Qgtb (koreanRatio text) 0.6%Q then Lang ko
  else if Qgtb (japaneseRatio text) 0.3%Q then Lang ja
  else if Qgtb (chineseRatio text) 0.5%Q && Qltb (japaneseRatio text) 0.1%Q then Lang zh
  else if Qltb (koreanRatio text) 0.1%Q && Qltb (japaneseRatio text) 0.1%Q
          && Qltb (chineseRatio text) 0.1%Q then Lang en
  else Mixed.

Definition isSourceLanguage (text : jsstring) (src : LanguageCode) : bool :=
  let detected := detectLanguage text in
  match detected with
  | Mixed => true
  | Lang l => bool_decide (l = src)
  end.

End Classifier.


(* ===================================================================== *)
(** * content/text-extractor.ts: the document walk and its filters *)
(* ===================================================================== *)

Module TextExtractor.

Import Constants.

(** The element classes [filterTextNode] tests with [instanceof]. *)
Inductive ElementClass :=
| HTMLInputElement | HTMLTextAreaElement | HTMLSelectElement | OtherElement.

(** The three properties read from [window.getComputedStyle(element)]. *)
Record ComputedStyle := mkStyle {
  display : string;
  visibility : string;
  opacity : string
}.

(** [element.getBoundingClientRect()]; [right] and [bottom] are derived. *)
Module DOMRect.
Record t := mk {
  left : Q;
  top : Q;
  width : Q;
  height : Q
}.
Definition right (r : t) : Q := (left r + width r)%Q.
Definition bottom (r : t) : Q := (top r + height r)%Q.
End DOMRect.

Record Element := mkElement {
  elementId : nat;
  tagName : string;
  isContentEditable : bool;
  class : ElementClass;
  computedStyle : ComputedStyle;
  boundingClientRect : DOMRect.t
}.

(** A [Text] node: its identity and its [textContent]. *)
Record Text := mkText {
  textId : nat;
  textContent : jsstring
}.

(** A document subtree.  An element carries its child nodes and, when one
    is attached, the children of its shadow root. *)
Inductive Node :=
| TextNode (t : Text)
| ElementNode (e : Element) (childNodes : list Node) (shadowRoot : option (list Node)).

(** [Element | ShadowRoot], the argument of [extractTextNodes]. *)
Inductive Root :=
| ElementRoot (e : Element) (childNodes : list Node) (shadowRoot : option (list Node))
| ShadowRoot (childNodes : list Node).

Record TextNodeInfo := mkTextNodeInfo {
  node : nat;
  originalText : jsstring;
  parentElement : Element
}.

Inductive NodeFilter := FILTER_ACCEPT | FILTER_REJECT | FILTER_SKIP.

(** [/[a-zA-Z가-힣]/] *)
Definition isLetter (c : N) : bool :=
  in_range 0x61 0x7A c || in_range 0x41 0x5A c || in_range 0xAC00 0xD7A3 c.

(** On the empty string the quotient is [0 / 0], which is [NaN], and
    [NaN < 0.3] is false. *)
Definition isNonTranslatable (text : jsstring) : bool :=
  let letterCount := matchCount isLetter text in
  if length text =? 0 then false
  else Qltb (quot letterCount (length text)) 0.3%Q.

Definition isElementVisible (element : Element) : bool :=
  let style := computedStyle element in
  if String.eqb (display style) "none" then false
  else if String.eqb (visibility style) "hidden" then false
  else if String.eqb (opacity style) "0" then false
  else
    let rect := boundingClientRect element in
    if Qeq_bool (DOMRect.width rect) 0 && Qeq_bool (DOMRect.height rect) 0 then false
    else true.

Definition inSkipTags (tag : string) : bool :=
  existsb (String.eqb tag) SKIP_TAGS.

(** [parent] is [node.parentElement]: [None] for a text node whose parent
    is a shadow root and not an element. *)
Definition filterTextNode (node : Text) (parent : option Element) : NodeFilter :=
  match parent with
  | None => FILTER_REJECT
  | Some parent =>
      if inSkipTags (tagName parent) then FILTER_REJECT
      else if isContentEditable parent then FILTER_REJECT
      else if match class parent with OtherElement => false | _ => true end
      then FILTER_REJECT
      else
        let text := trim (textContent node) in
        if negb (truthy text) then FILTER_REJECT
        else if isNonTranslatable text then FILTER_REJECT
        else FILTER_ACCEPT
  end.

(** One turn of the [while ((currentNode = walker.nextNode()))] loop on a
    text node the walker reaches: [acceptNode] first, then the loop body. *)
Definition visitTextNode (textNode : Text) (parent : option Element)
  : list TextNodeInfo :=
  match filterTextNode textNode parent with
  | FILTER_ACCEPT =>
      match parent with
      | None => []
      | Some parentElement =>
          let text := trim (textContent textNode) in
          if (length text <? MIN_TEXT_LENGTH) || (MAX_TEXT_LENGTH <? length text)
          then []
          else if negb (isElementVisible parentElement) then []
          else [ {| node := textId textNode;
                    originalText := text;
                    parentElement := parentElement |} ]
      end
  | _ => []
  end.

(** The tree walker below a node whose enclosing element is [parent]:
    elements are skipped, not rejected, so every text node of the light
    tree is reached, in document order. *)
Fixpoint walk (parent : option Element) (n : Node) : list TextNodeInfo :=
  match n with
  | TextNode t => visitTextNode t parent
  | ElementNode e childNodes _ => flat_map (walk (Some e)) childNodes
  end.

(** [extractFromShadowRoots] at one node of [querySelectorAll('*')]: the
    element's own shadow root is extracted, then its descendants are
    searched.  The call [extractFromNode(el.shadowRoot)] is the walk of the
    shadow tree followed by the shadow roots found inside it. *)
Fixpoint shadowRootsBelow (n : Node) : list TextNodeInfo :=
  match n with
  | TextNode _ => []
  | ElementNode e childNodes shadowRoot =>
      match shadowRoot with
      | Some s => flat_map (walk None) s ++ flat_map shadowRootsBelow s
      | None => []
      end ++ flat_map shadowRootsBelow childNodes
  end.

Definition extractFromShadowRoots (childNodes : list Node) : list TextNodeInfo :=
  flat_map shadowRootsBelow childNodes.

Definition extractFromNode (parent : option Element) (childNodes : list Node)
  : list TextNodeInfo :=
  flat_map (walk parent) childNodes ++ extractFromShadowRoots childNodes.

Definition extractTextNodes (root : Root) : list TextNodeInfo :=
  match root with
  | ElementRoot e childNodes _ => extractFromNode (Some e) childNodes
  | ShadowRoot childNodes => extractFromNode None childNodes
  end.

(** The text nodes a call reaches, each with its [parentElement], in the
    order the call reaches them and before any filter. *)
Fixpoint lightTexts (parent : option Element) (n : Node)
  : list (Text * option Element) :=
  match n with
  | TextNode t => [(t, parent)]
  | ElementNode e childNodes _ => flat_map (lightTexts (Some e)) childNodes
  end.

Fixpoint shadowTexts (n : Node) : list (Text * option Element) :=
  match n with
  | TextNode _ => []
  | ElementNode e childNodes shadowRoot =>
      match shadowRoot with
      | Some s => flat_map (lightTexts None) s ++ flat_map shadowTexts s
      | None => []
      end ++ flat_map shadowTexts childNodes
  end.

Definition reachedTexts (root : Root) : list (Text * option Element) :=
  match root with
  | ElementRoot e childNodes _ =>
      flat_map (lightTexts (Some e)) childNodes ++ flat_map shadowTexts childNodes
  | ShadowRoot childNodes =>
      flat_map (lightTexts None) childNodes ++ flat_map shadowTexts childNodes
  end.

End TextExtractor.

(* ===================================================================== *)
(** * content/content-script.ts: the batch scheduler *)
(* ===================================================================== *)

Module ContentScript.

Import Constants Classifier TextExtractor.

(** [array.slice(i, j)] for [i <= j]. *)
Definition slice {A} (i j : nat) (l : list A) : list A := take (j - i) (drop i l).

(** ** The collaborators that are not among the sources *)

(** Modelled from the spec: [content/translation-cache.ts] is missing.
    Section 4.3 gives [get(text, src, tgt)], which returns the cached
    translation if present and not expired, and a store operation that
    overwrites and evicts; both may change the table's internal state
    (recency, eviction), and nothing else.  The call sites of the content
    script fix the argument order of the store operation. *)
Class TranslationCache (C : Type) := {
  cacheGet : jsstring -> LanguageCode -> LanguageCode -> C -> option jsstring * C;
  cacheSet : jsstring -> jsstring -> LanguageCode -> LanguageCode -> C -> C
}.

(** Modelled from the spec: [content/dom-translator.ts] is missing.
    Section 4.5 gives the applier, which writes translated text into each
    unit's document position, the restorer, and the status query.  [D] is
    the live document together with the applier's bookkeeping.  A unit is
    [None] where the content script indexes [newNodes] out of range. *)
Class DomTranslator (D : Type) := {
  applyTranslations : list (option TextNodeInfo) -> list TranslatedText -> D -> D;
  restoreOriginal : D -> D;
  getStatus : D -> bool * nat
}.

(** An entry of the [uncached] list and the result of [getMultiple]:
    [cached] is the [Map<number, string>] in insertion order. *)
Record Uncached := mkUncached { index : nat; text : jsstring }.

Record CacheSplit := mkCacheSplit {
  cached : list (nat * jsstring);
  uncached : list Uncached
}.

(** Modelled from the spec: [getMultiple(texts, src, tgt)] of the missing
    cache partitions the input list into a mapping from input index to
    cached translation and a list of (index, text) pairs for the misses,
    preserving the original order in both. *)
Fixpoint getMultipleFrom `{TranslationCache C} (i : nat) (texts : list jsstring)
    (src tgt : LanguageCode) (c : C) : CacheSplit * C :=
  match texts with
  | [] => (mkCacheSplit [] [], c)
  | t :: texts' =>
      let '(hit, c) := cacheGet t src tgt c in
      let '(rest, c) := getMultipleFrom (S i) texts' src tgt c in
      match hit with
      | Some tr => (mkCacheSplit ((i, tr) :: cached rest) (uncached rest), c)
      | None => (mkCacheSplit (cached rest) (mkUncached i t :: uncached rest), c)
      end
  end.

Definition getMultiple `{TranslationCache C} (texts : list jsstring)
    (src tgt : LanguageCode) (c : C) : CacheSplit * C :=
  getMultipleFrom 0 texts src tgt c.

(** ** Batches *)

Record Batch := mkBatch {
  indices : list Uncached;
  nodes : list (option TextNodeInfo)
}.

(** The loop
    [for (let i = 0; i < uncached.length; i += MAX_TEXTS_PER_REQUEST)]
    from loop variable [i] on. *)
Equations? batchLoop (newNodes : list TextNodeInfo) (uncached : list Uncached)
    (i : nat) : list Batch by wf (length uncached - i) lt :=
  batchLoop newNodes uncached i with decide (i < length uncached) => {
    | left _ =>
        let batchIndices := slice i (i + MAX_TEXTS_PER_REQUEST) uncached in
        let batchNodes := map (fun u => newNodes !! index u) batchIndices in
        mkBatch batchIndices batchNodes
          :: batchLoop newNodes uncached (i + MAX_TEXTS_PER_REQUEST);
    | right _ => [] }.
Proof. unfold MAX_TEXTS_PER_REQUEST. lia. Qed.

Definition makeBatches (newNodes : list TextNodeInfo) (uncached : list Uncached)
  : list Batch :=
  batchLoop newNodes uncached 0.

Definition batchTexts (batch : Batch) : list jsstring := map text (indices batch).

(** ** The page-side agent as a machine

    JavaScript runs one task at a time, to completion.  A task of the
    content script is a call of [enable], [disable] or [toggle], the expiry
    of the mutation watcher's debounce timer, the settling of one
    [chrome.runtime.sendMessage] promise, or a change of the stored
    settings.  An [async] function runs synchronously up to its first
    [await], and [translateNodesParallel] awaits nothing but the
    [Promise.all] of a window: between two tasks an invocation is either
    over or suspended there.  When the last call of a window fulfils,
    [Promise.all] resolves and the loop goes on in microtasks, before any
    other task runs; the step that settles the call therefore also launches
    the next window or runs [finally].

    A [Text] node is known by a number, its identity; promises and
    invocations are numbered from one counter, which the source does not
    have and which only names them.  The cache and the applier are taken to
    return normally. *)

(** The reply to a [TRANSLATE_TEXT] message ([TranslationResponse]). *)
Record Response := mkResponse {
  success : bool;
  data : option (list TranslatedText);
  error : option string
}.

(** A [chrome.runtime.sendMessage] promise that has not settled: the
    invocation of [translateNodesParallel] that issued it and the batch
    its continuation closes over. *)
Record Call := mkCall {
  callId : nat;
  callInvocation : nat;
  callBatch : Batch
}.

(** An invocation of [translateNodesParallel] suspended at
    [await Promise.all(...)]: its [newNodes], its [batches], the loop
    variable [i] of the window loop and the calls of the current window
    that have not fulfilled yet. *)
Record Invocation := mkInvocation {
  invNewNodes : list TextNodeInfo;
  invBatches : list Batch;
  invI : nat;
  invPending : list nat
}.

(** What the agent does to its surroundings, in the order it does it. *)
Inductive Effect :=
| InFlightAdd (n : nat)
| InFlightDelete (n : nat)
| CacheGetMultiple (texts : list jsstring) (langs : LanguageCode * LanguageCode)
| CacheSet (result : TranslatedText) (langs : LanguageCode * LanguageCode)
| ApplyTranslations (units : list (option TextNodeInfo)) (results : list TranslatedText)
| RestoreOriginal
| SendMessage (invocation call : nat) (texts : list jsstring)
              (langs : LanguageCode * LanguageCode).

Record Window := mkWindow { innerWidth : Q; innerHeight : Q }.

Section Machine.

Context {C D : Type} `{!TranslationCache C} `{!DomTranslator D}.

Record State := mkState {
  isEnabled : bool;
  settings : LanguageCode * LanguageCode;
  translatingNodes : gset nat;
  cache : C;
  document : D;
  outstanding : list Call;
  suspended : gmap nat Invocation;
  nextId : nat;
  trace : list Effect
}.

Definition stSourceLang (st : State) : LanguageCode := fst (settings st).
Definition stTargetLang (st : State) : LanguageCode := snd (settings st).

Definition initial (src tgt : LanguageCode) (c : C) (d : D) : State :=
  mkState false (src, tgt) ∅ c d [] ∅ 0 [].

(** *** Primitive operations, each leaving its effect in the trace *)

Definition emit (e : Effect) (st : State) : State :=
  mkState (isEnabled st) (settings st) (translatingNodes st) (cache st)
          (document st) (outstanding st) (suspended st) (nextId st)
          (trace st ++ [e]).

Definition setEnabled (b : bool) (st : State) : State :=
  mkState b (settings st) (translatingNodes st) (cache st)
          (document st) (outstanding st) (suspended st) (nextId st) (trace st).

Definition setSettings (langs : LanguageCode * LanguageCode) (st : State) : State :=
  mkState (isEnabled st) langs (translatingNodes st) (cache st)
          (document st) (outstanding st) (suspended st) (nextId st) (trace st).

Definition setTranslatingNodes (s : gset nat) (st : State) : State :=
  mkState (isEnabled st) (settings st) s (cache st)
          (document st) (outstanding st) (suspended st) (nextId st) (trace st).

Definition setCache (c : C) (st : State) : State :=
  mkState (isEnabled st) (settings st) (translatingNodes st) c
          (document st) (outstanding st) (suspended st) (nextId st) (trace st).

Definition setDocument (d : D) (st : State) : State :=
  mkState (isEnabled st) (settings st) (translatingNodes st) (cache st)
          d (outstanding st) (suspended st) (nextId st) (trace st).

Definition setOutstanding (cs : list Call) (st : State) : State :=
  mkState (isEnabled st) (settings st) (translatingNodes st) (cache st)
          (document st) cs (suspended st) (nextId st) (trace st).

Definition setSuspended (invs : gmap nat Invocation) (st : State) : State :=
  mkState (isEnabled st) (settings st) (translatingNodes st) (cache st)
          (document st) (outstanding st) invs (nextId st) (trace st).

Definition setNextId (n : nat) (st : State) : State :=
  mkState (isEnabled st) (settings st) (translatingNodes st) (cache st)
          (document st) (outstanding st) (suspended st) n (trace st).

(** [this.translatingNodes.add(n.node)] *)
Definition inFlightAdd (n : nat) (st : State) : State :=
  emit (InFlightAdd n) (setTranslatingNodes ({[n]} ∪ translatingNodes st) st).

(** [this.translatingNodes.delete(n.node)] *)
Definition inFlightDelete (n : nat) (st : State) : State :=
  emit (InFlightDelete n) (setTranslatingNodes (translatingNodes st ∖ {[n]}) st).

(** [translationCache.getMultiple(texts, sourceLang, targetLang)] *)
Definition cacheGetMultiple (texts : list jsstring) (st : State)
  : CacheSplit * State :=
  let '(split, c) := getMultiple texts (stSourceLang st) (stTargetLang st) (cache st) in
  (split, emit (CacheGetMultiple texts (settings st)) (setCache c st)).

(** [translationCache.set(result.original, result.translated, ...)] *)
Definition cacheStore (result : TranslatedText) (st : State) : State :=
  emit (CacheSet result (settings st))
    (setCache (cacheSet (original result) (translated result)
                        (stSourceLang st) (stTargetLang st) (cache st)) st).

(** [domTranslator.applyTranslations(units, results)] *)
Definition domApply (units : list (option TextNodeInfo))
    (results : list TranslatedText) (st : State) : State :=
  emit (ApplyTranslations units results)
    (setDocument (applyTranslations units results (document st)) st).

(** [domTranslator.restoreOriginal()] *)
Definition domRestore (st : State) : State :=
  emit RestoreOriginal (setDocument (restoreOriginal (document st)) st).

(** *** [translateNodesParallel] *)

(** The filter that computes [newNodes]. *)
Definition admits (st : State) (n : TextNodeInfo) : bool :=
  if bool_decide (node n ∈ translatingNodes st) then false
  else isSourceLanguage (originalText n) (stSourceLang st).

(** [translateBatch] up to its [await]: the message is sent and the
    promise is pending. *)
Definition sendBatch (k : nat) (batch : Batch) (st : State) : nat * State :=
  let call := nextId st in
  (call,
   emit (SendMessage k call (batchTexts batch) (settings st))
     (setNextId (S call)
        (setOutstanding (outstanding st ++ [mkCall call k batch]) st))).

(** [concurrentBatches.map(translateBatch)] *)
Fixpoint launch (k : nat) (concurrentBatches : list Batch) (st : State)
  : list nat * State :=
  match concurrentBatches with
  | [] => ([], st)
  | batch :: rest =>
      let '(call, st) := sendBatch k batch st in
      let '(calls, st) := launch k rest st in
      (call :: calls, st)
  end.

(** [translateBatch] from its [await] on, once the reply is there. *)
Definition translateBatchResume (batch : Batch) (response : option Response)
    (st : State) : State :=
  match response with
  | Some r =>
      if success r then
        match data r with
        | Some results =>
            let st := foldl (fun st result => cacheStore result st) st results in
            if isEnabled st then domApply (nodes batch) results st else st
        | None => st
        end
      else st
  | None => st
  end.

(** The [finally] block. *)
Definition finallyBlock (newNodes : list TextNodeInfo) (st : State) : State :=
  foldl (fun st n => inFlightDelete (node n) st) st newNodes.

(** The loop
    [for (let i = 0; i < batches.length; i += MAX_CONCURRENT_REQUESTS)]
    entered at the test of its condition with loop variable [invI inv]:
    either a window is launched and the invocation suspends at
    [await Promise.all], or the loop is left and [finally] runs. *)
Definition windowLoop (k : nat) (inv : Invocation) (st : State) : State :=
  if invI inv <? length (invBatches inv) then
    let concurrentBatches :=
      slice (invI inv) (invI inv + MAX_CONCURRENT_REQUESTS) (invBatches inv) in
    let '(calls, st) := launch k concurrentBatches st in
    setSuspended
      (<[k := mkInvocation (invNewNodes inv) (invBatches inv) (invI inv) calls]>
         (suspended st)) st
  else finallyBlock (invNewNodes inv) st.

(** The block [if (cached.size > 0) { ... }]. *)
Definition applyCached (newNodes : list TextNodeInfo) (texts : list jsstring)
    (cached : list (nat * jsstring)) (st : State) : State :=
  if 0 <? length cached then
    let cachedNodes := map (fun hit => newNodes !! fst hit) cached in
    let cachedResults :=
      map (fun hit => mkTranslatedText (default [] (texts !! fst hit)) (snd hit))
          cached in
    if isEnabled st then domApply cachedNodes cachedResults st else st
  else st.

Definition translateNodesParallel (textNodes : list TextNodeInfo) (st : State)
  : State :=
  let newNodes := List.filter (admits st) textNodes in
  if length newNodes =? 0 then st
  else
    let st := foldl (fun st n => inFlightAdd (node n) st) st newNodes in
    let texts := map originalText newNodes in
    let '(split, st) := cacheGetMultiple texts st in
    let st := applyCached newNodes texts (cached split) st in
    if 0 <? length (uncached split) then
      let batches := makeBatches newNodes (uncached split) in
      let k := nextId st in
      windowLoop k (mkInvocation newNodes batches 0 []) (setNextId (S k) st)
    else finallyBlock newNodes st.

(** *** Settling of the pending calls *)

Definition findCall (call : nat) (calls : list Call) : option Call :=
  List.find (fun c => callId c =? call) calls.

Definition removeCall (call : nat) (calls : list Call) : list Call :=
  List.filter (fun c => negb (callId c =? call)) calls.

(** The promise of one [translateBatch] fulfils.  While its invocation
    waits at [Promise.all], the call leaves the window; when it was the
    last one, [Promise.all] resolves and the window loop goes on with
    [i += MAX_CONCURRENT_REQUESTS]. *)
Definition fulfilled (c : Call) (st : State) : State :=
  let k := callInvocation c in
  match suspended st !! k with
  | Some inv =>
      let pending := List.filter (fun i => negb (i =? callId c)) (invPending inv) in
      if length pending =? 0 then
        windowLoop k
          (mkInvocation (invNewNodes inv) (invBatches inv)
                        (invI inv + MAX_CONCURRENT_REQUESTS) [])
          (setSuspended (delete k (suspended st)) st)
      else
        setSuspended
          (<[k := mkInvocation (invNewNodes inv) (invBatches inv) (invI inv) pending]>
             (suspended st)) st
  | None => st
  end.

(** The reply to call [call] arrives. *)
Definition respond (call : nat) (response : option Response) (st : State) : State :=
  match findCall call (outstanding st) with
  | None => st
  | Some c =>
      let st := setOutstanding (removeCall call (outstanding st)) st in
      let st := translateBatchResume (callBatch c) response st in
      fulfilled c st
  end.

(** [chrome.runtime.sendMessage] rejects for call [call]: its
    [translateBatch] throws, [Promise.all] rejects at once, the
    exception leaves the [try] and [finally] runs.  The other calls of
    the window stay pending and their continuations still run. *)
Definition reject (call : nat) (st : State) : State :=
  match findCall call (outstanding st) with
  | None => st
  | Some c =>
      let st := setOutstanding (removeCall call (outstanding st)) st in
      let k := callInvocation c in
      match suspended st !! k with
      | Some inv =>
          finallyBlock (invNewNodes inv) (setSuspended (delete k (suspended st)) st)
      | None => st
      end
  end.

(** *** Enabling, disabling and the mutation watcher's flush *)

Definition isInViewport (win : Window) (element : Element) : bool :=
  let rect := boundingClientRect element in
  Qltb (DOMRect.top rect) (innerHeight win)
  && Qgtb (DOMRect.bottom rect) 0
  && Qltb (DOMRect.left rect) (innerWidth win)
  && Qgtb (DOMRect.right rect) 0.

(** [Array.prototype.sort] is stable: an element moves behind another
    only where the comparator is positive. *)
Fixpoint insertBy {A} (cmp : A -> A -> Z) (a : A) (l : list A) : list A :=
  match l with
  | [] => [a]
  | b :: l' => if (0 <? cmp a b)%Z then b :: insertBy cmp a l' else a :: l
  end.

Definition sort {A} (cmp : A -> A -> Z) (l : list A) : list A :=
  foldr (insertBy cmp) [] l.

Definition sortByViewport (win : Window) (nodes : list TextNodeInfo)
  : list TextNodeInfo :=
  sort (fun a b =>
          let aVisible := if isInViewport win (parentElement a) then 1%Z else 0%Z in
          let bVisible := if isInViewport win (parentElement b) then 1%Z else 0%Z in
          (bVisible - aVisible)%Z) nodes.

Definition translateVisibleContent (body : Root) (win : Window) (st : State)
  : State :=
  let textNodes := extractTextNodes body in
  if length textNodes =? 0 then st
  else translateNodesParallel (sortByViewport win textNodes) st.

(** [enable()] up to the end of the first run of the scheduler; the
    observers it installs afterwards only decide when [flush] happens. *)
Definition enable (body : Root) (win : Window) (st : State) : State :=
  if isEnabled st then st
  else translateVisibleContent body win (setEnabled true st).

(** [disable()]; disconnecting the observers only stops further [flush]es
    from being armed. *)
Definition disable (st : State) : State :=
  if negb (isEnabled st) then st
  else domRestore (setEnabled false st).

Definition toggle (body : Root) (win : Window) (st : State) : State :=
  if isEnabled st then disable st else enable body win st.

(** The debounce timer of [observeDomChanges] expires. *)
Definition flush (nodesToProcess : list Root) (st : State) : State :=
  foldl (fun st node =>
           let textNodes := extractTextNodes node in
           if 0 <? length textNodes then translateNodesParallel textNodes st
           else st) st nodesToProcess.

(** The callback of [listenForStorageChanges], called with new settings. *)
Definition settingsChanged (sourceLang targetLang : LanguageCode) (st : State)
  : State :=
  setSettings (sourceLang, targetLang) st.

(** The [GET_STATUS] branch of [listenForMessages]. *)
Definition onGetStatus (st : State) : TranslationStatus :=
  let status := getStatus (document st) in
  mkStatus (fst status) (snd status) (isEnabled st).

(** *** Runs: the tasks of the event loop, one after the other *)

Inductive Event :=
| Enable (body : Root) (win : Window)
| Disable
| Toggle (body : Root) (win : Window)
| Flush (nodesToProcess : list Root)
| Respond (call : nat) (response : option Response)
| Reject (call : nat)
| SettingsChanged (sourceLang targetLang : LanguageCode).

Definition step (st : State) (ev : Event) : State :=
  match ev with
  | Enable body win => enable body win st
  | Disable => disable st
  | Toggle body win => toggle body win st
  | Flush nodesToProcess => flush nodesToProcess st
  | Respond call response => respond call response st
  | Reject call => reject call st
  | SettingsChanged sourceLang targetLang => settingsChanged sourceLang targetLang st
  end.

Definition run (st : State) (evs : list Event) : State := foldl step st evs.

(** *** Observations on states and runs, for stating properties *)

(** The units a call of [translateNodesParallel] admits: its [newNodes]. *)
Definition newNodesOf (st : State) (textNodes : list TextNodeInfo)
  : list TextNodeInfo :=
  List.filter (admits st) textNodes.

Definition nodeSet (ns : list TextNodeInfo) : gset nat := list_to_set (map node ns).

(** The window an invocation is at, [batches.slice(i, i + MAX_CONCURRENT_REQUESTS)],
    and the invocation at its next window. *)
Definition currentWindow (inv : Invocation) : list Batch :=
  slice (invI inv) (invI inv + MAX_CONCURRENT_REQUESTS) (invBatches inv).

Definition nextWindow (inv : Invocation) : Invocation :=
  mkInvocation (invNewNodes inv) (invBatches inv)
               (invI inv + MAX_CONCURRENT_REQUESTS) [].

(** The pending calls of invocation [k]. *)
Definition callsOf (k : nat) (calls : list Call) : list Call :=
  List.filter (fun c => callInvocation c =? k) calls.

Definition isSend (e : Effect) : bool :=
  match e with SendMessage _ _ _ _ => true | _ => false end.

Definition isApply (e : Effect) : bool :=
  match e with ApplyTranslations _ _ => true | _ => false end.

Definition isAdd (e : Effect) : bool :=
  match e with InFlightAdd _ => true | _ => false end.

(** The tasks that switch the pipeline on. *)
Definition enabling (ev : Event) : bool :=
  match ev with
  | Enable _ _ | Toggle _ _ => true
  | _ => false
  end.

(** The tasks that leave the configured source language at [src]. *)
Definition keepsSource (src : LanguageCode) (ev : Event) : bool :=
  match ev with
  | SettingsChanged sourceLang _ => bool_decide (sourceLang = src)
  | _ => true
  end.

End Machine.

Arguments State : clear implicits.

End ContentScript.

(* ===================================================================== *)
(** * content/content-script.ts: the mutation watcher *)
(* ===================================================================== *)

Module Watcher.

Import TextExtractor ContentScript.

(** A [MutationRecord], of which the handler reads [addedNodes] only. *)
Record MutationRecord := mkMutationRecord { addedNodes : list Node }.

(** What one call of [observeDomChanges] closes over: [pendingNodes] and
    [debounceTimer], which is [null] or the identifier of the armed
    timer, a positive number, and of which only the truth value is read;
    and with them the shadow roots handed to [observeShadowRoot], one
    entry of [this.shadowObservers] each. *)
Record t := mk {
  pendingNodes : list Root;
  debounceTimer : bool;
  shadowObservers : list Root
}.

Definition initial : t := mk [] false [].

(** [pendingNodes.push(node)] *)
Definition push (node : Root) (w : t) : t :=
  mk (pendingNodes w ++ [node]) (debounceTimer w) (shadowObservers w).

(** [this.observeShadowRoot(shadowRoot, handleMutations)] *)
Definition observeShadowRoot (shadowRoot : Root) (w : t) : t :=
  mk (pendingNodes w) (debounceTimer w) (shadowObservers w ++ [shadowRoot]).

(** The shadow roots of the elements [querySelectorAll('*')] finds at and
    below a node, in document order; the query does not descend into
    shadow trees. *)
Fixpoint shadowHosts (n : Node) : list (list Node) :=
  match n with
  | TextNode _ => []
  | ElementNode _ childNodes shadowRoot =>
      match shadowRoot with Some s => [s] | None => [] end
      ++ flat_map shadowHosts childNodes
  end.

(** The body of [mutation.addedNodes.forEach]. *)
Definition added (node : Node) (w : t) : t :=
  match node with
  | TextNode _ => w
  | ElementNode element childNodes shadowRoot =>
      let w := push (ElementRoot element childNodes shadowRoot) w in
      let w :=
        match shadowRoot with
        | Some s => push (ShadowRoot s) (observeShadowRoot (ShadowRoot s) w)
        | None => w
        end in
      foldl (fun w s => push (ShadowRoot s) (observeShadowRoot (ShadowRoot s) w))
            w (flat_map shadowHosts childNodes)
  end.

(** [handleMutations(mutations)], with [this.isEnabled] as it is when the
    handler runs. *)
Definition handleMutations (isEnabled : bool) (mutations : list MutationRecord)
    (w : t) : t :=
  if negb isEnabled then w
  else
    let w := foldl (fun w node => added node w) w (flat_map addedNodes mutations) in
    if (0 <? length (pendingNodes w)) && negb (debounceTimer w)
    then mk (pendingNodes w) true (shadowObservers w)
    else w.

(** The timer's callback up to its [forEach]: [nodesToProcess] and the
    emptied closure.  The [forEach] itself is [ContentScript.flush]. *)
Definition expire (w : t) : list Root * t :=
  (pendingNodes w, mk [] false (shadowObservers w)).

(** The tasks of the watcher: a delivery of mutation records, with the
    enabled flag it finds, and the expiry of the timer, which happens only
    while one is armed.  A run yields the lists flushed, in order. *)
Inductive Notice :=
| Mutations (isEnabled : bool) (mutations : list MutationRecord)
| Expiry.

Fixpoint watch (w : t) (notices : list Notice) : list (list Root) * t :=
  match notices with
  | [] => ([], w)
  | Mutations isEnabled mutations :: rest =>
      watch (handleMutations isEnabled mutations w) rest
  | Expiry :: rest =>
      if debounceTimer w then
        let '(nodesToProcess, w) := expire w in
        let '(flushed, w) := watch w rest in
        (nodesToProcess :: flushed, w)
      else watch w rest
  end.

(** What an added node puts in the queue. *)
Definition queueFor (node : Node) : list Root :=
  match node with
  | TextNode _ => []
  | ElementNode element childNodes shadowRoot =>
      ElementRoot element childNodes shadowRoot
        :: match shadowRoot with Some s => [ShadowRoot s] | None => [] end
        ++ map ShadowRoot (flat_map shadowHosts childNodes)
  end.

(** The nodes a sequence of notices queues: those of the records
    delivered while the pipeline is enabled. *)
Definition queued (notices : list Notice) : list Root :=
  flat_map (fun notice =>
              match notice with
              | Mutations true mutations =>
                  flat_map queueFor (flat_map addedNodes mutations)
              | _ => []
              end) notices.

End Watcher.

(* ===================================================================== *)
(** * A concrete page and cache, for running the machine *)
(* ===================================================================== *)

Module Page.

Import TextExtractor ContentScript.

(** Modelled from the spec: [content/dom-translator.ts] is missing.  Per
    section 4.5 the applier writes the translated text into each unit's
    document position and records what it needs to reverse the change;
    applying to a position that no longer exists is ignored; restoring
    reverts every applied unit to its original text and clears the
    tracking; the status says whether any translation is applied and how
    many units are affected.  [texts] maps the identity of a text node of
    the live document to the text it displays. *)
Record t := mk {
  texts : gmap nat jsstring;
  originals : gmap nat jsstring
}.

Definition applyOne (p : t) (pair : option TextNodeInfo * TranslatedText) : t :=
  match fst pair with
  | Some unit =>
      match texts p !! node unit with
      | Some shown =>
          mk (<[node unit := translated (snd pair)]> (texts p))
             (match originals p !! node unit with
              | Some _ => originals p
              | None => <[node unit := shown]> (originals p)
              end)
      | None => p
      end
  | None => p
  end.

Definition apply (units : list (option TextNodeInfo))
    (results : list TranslatedText) (p : t) : t :=
  foldl applyOne p (zip units results).

Definition restoreAll (p : t) : t :=
  mk (map_imap (fun n shown => Some (default shown (originals p !! n))) (texts p)) ∅.

Definition status (p : t) : bool * nat :=
  (negb (size (originals p) =? 0), size (originals p)).

#[global] Instance domTranslator : DomTranslator t :=
  {| applyTranslations := apply;
     restoreOriginal := restoreAll;
     getStatus := status |}.

(** Modelled from the spec: [content/translation-cache.ts] is missing.  A
    memo table keyed by (text, source language, target language), most
    recently used entry first, of capacity 1000 with the least recently
    used entry evicted on overflow (section 3).  The runs below stay within
    the time-to-live, so no entry expires. *)
Record Entry := mkEntry {
  entryText : jsstring;
  entrySrc : LanguageCode;
  entryTgt : LanguageCode;
  entryTranslated : jsstring
}.

Definition sameKey (text : jsstring) (src tgt : LanguageCode) (e : Entry) : bool :=
  bool_decide (entryText e = text) && bool_decide (entrySrc e = src)
  && bool_decide (entryTgt e = tgt).

Definition capacity : nat := 1000.

Definition memoGet (text : jsstring) (src tgt : LanguageCode) (c : list Entry)
  : option jsstring * list Entry :=
  match List.find (sameKey text src tgt) c with
  | Some e =>
      (Some (entryTranslated e),
       e :: List.filter (fun e' => negb (sameKey text src tgt e')) c)
  | None => (None, c)
  end.

Definition memoSet (text translated : jsstring) (src tgt : LanguageCode)
    (c : list Entry) : list Entry :=
  take capacity
    (mkEntry text src tgt translated
       :: List.filter (fun e' => negb (sameKey text src tgt e')) c).

#[global] Instance translationCache : TranslationCache (list Entry) :=
  {| cacheGet := memoGet; cacheSet := memoSet |}.

End Page.

(* ===================================================================== *)
(** * background/service-worker.ts *)
(* ===================================================================== *)

Module ServiceWorker.

(** [getStatus()]; [settings] is what [storage.getSettings()] resolves to. *)
Definition getStatus (settings : TranslationSettings) : TranslationStatus :=
  {| isTranslated := false;
     count := 0;
     statusAutoTranslate := autoTranslate settings |}.

(** ** The message listener

    Modelled from the spec: [shared/api-client.ts] and [shared/storage.ts]
    are missing.  Per section 6 a translation request carries a list of
    texts and a language pair and is answered by a list of (original,
    translated) pairs or fails; the persisted settings have the shape
    [{sourceLang, targetLang, autoTranslate}], are read as a whole and
    written field by field.  [apiClient.translate] is a function that
    returns the pairs or throws; the stored settings are a value the
    worker reads and replaces. *)

(** What a [catch] receives: an [Error] with its message or another value. *)
Inductive Thrown := ErrorObject (message : string) | OtherValue.

(** [error instanceof Error ? error.message : fallback] *)
Definition messageOf (thrown : Thrown) (fallback : string) : string :=
  match thrown with
  | ErrorObject message => message
  | OtherValue => fallback
  end.

(** How a promise settles. *)
Inductive Outcome (A : Type) := Resolved (a : A) | Rejected (thrown : Thrown).

Arguments Resolved {A} a.
Arguments Rejected {A} thrown.

(** [message.payload], cast to [TranslatePayload] or to
    [Partial<TranslatePayload>] without a check: every property may be
    missing. *)
Record Payload := mkPayload {
  texts : option (list jsstring);
  payloadSourceLang : option LanguageCode;
  payloadTargetLang : option LanguageCode
}.

Record Message := mkMessage {
  type : string;
  payload : option Payload
}.

(** What [apiClient.translate] is called with, and the client itself. *)
Record ApiCall := mkApiCall {
  callTexts : list jsstring;
  callSourceLang : option LanguageCode;
  callTargetLang : option LanguageCode
}.

Definition ApiClient : Type := ApiCall -> Thrown + list TranslatedText.

(** The values [sendResponse] is called with. *)
Inductive Reply :=
| Translation (response : ContentScript.Response)
| Status (status : TranslationStatus)
| Enabled (enabled : bool)
| Updated.

(** [storage.updateSettings(partial)] on the stored settings. *)
Definition updateSettings (partial : option Payload) (settings : TranslationSettings)
  : TranslationSettings :=
  match partial with
  | Some p =>
      mkSettings (default (sourceLang settings) (payloadSourceLang p))
                 (default (targetLang settings) (payloadTargetLang p))
                 (autoTranslate settings)
  | None => settings
  end.

(** [handleTranslate(payload)]: how it settles and the calls of the API
    client it makes. *)
Definition handleTranslate (apiClient : ApiClient) (payload : option Payload)
  : Outcome ContentScript.Response * list ApiCall :=
  match payload with
  | None =>
      (Rejected (ErrorObject
         "Cannot destructure property 'texts' of 'payload' as it is undefined."),
       [])
  | Some p =>
      match texts p with
      | None | Some [] =>
          (Resolved (ContentScript.mkResponse true (Some []) None), [])
      | Some texts =>
          let call := mkApiCall texts (payloadSourceLang p) (payloadTargetLang p) in
          (match apiClient call with
           | inr data => Resolved (ContentScript.mkResponse true (Some data) None)
           | inl error =>
               Resolved (ContentScript.mkResponse false None
                           (Some (messageOf error "Translation failed")))
           end, [call])
      end
  end.

(** [toggleTranslation()] *)
Definition toggleTranslation (settings : TranslationSettings)
  : bool * TranslationSettings :=
  let newAutoTranslate := negb (autoTranslate settings) in
  (newAutoTranslate,
   mkSettings (sourceLang settings) (targetLang settings) newAutoTranslate).

(** [handleMessage(message, sender)]: how it settles, the stored settings
    it leaves and the calls of the API client it makes. *)
Definition handleMessage (apiClient : ApiClient) (settings : TranslationSettings)
    (message : Message)
  : Outcome Reply * TranslationSettings * list ApiCall :=
  if String.eqb (type message) "TRANSLATE_TEXT" then
    let '(outcome, calls) := handleTranslate apiClient (payload message) in
    (match outcome with
     | Resolved response => Resolved (Translation response)
     | Rejected thrown => Rejected thrown
     end, settings, calls)
  else if String.eqb (type message) "GET_STATUS" then
    (Resolved (Status (getStatus settings)), settings, [])
  else if String.eqb (type message) "TOGGLE_TRANSLATION" then
    let '(enabled, settings) := toggleTranslation settings in
    (Resolved (Enabled enabled), settings, [])
  else if String.eqb (type message) "UPDATE_SETTINGS" then
    (Resolved Updated, updateSettings (payload message) settings, [])
  else
    (Rejected (ErrorObject (String.append "Unknown message type: " (type message))),
     settings, []).

(** The [chrome.runtime.onMessage] listener: what [sendResponse] is
    called with. *)
Definition listener (apiClient : ApiClient) (settings : TranslationSettings)
    (message : Message) : Reply * TranslationSettings * list ApiCall :=
  let '(outcome, settings, calls) := handleMessage apiClient settings message in
  (match outcome with
   | Resolved reply => reply
   | Rejected error =>
       Translation (ContentScript.mkResponse false None
                      (Some (messageOf error "Unknown error")))
   end, settings, calls).

(** The message [translateBatch] sends for a batch. *)
Definition translateText (texts : list jsstring)
    (langs : LanguageCode * LanguageCode) : Message :=
  mkMessage "TRANSLATE_TEXT"
            (Some (mkPayload (Some texts) (Some (fst langs)) (Some (snd langs)))).

End ServiceWorker.

(* ===================================================================== *)
(** * api/translate.ts: the remote translation boundary *)
(* ===================================================================== *)

Module Api.

(** The JSON body, as [req.body as TranslationRequest] reads it: [texts]
    is [None] unless [Array.isArray(texts)], and a language code is [None]
    when the property is absent. *)
Record Body := mkBody {
  texts : option (list jsstring);
  bodySourceLang : option string;
  bodyTargetLang : option string
}.

Record Request := mkRequest {
  method : string;
  body : option Body
}.

Inductive ErrorMessage :=
| Message (text : string)
| DeepSeekApiError (status : nat) (errorText : string).

Inductive Json :=
| Failure (error : ErrorMessage)
| Success (data : list TranslatedText).

(** [res.status(code).json(payload)], or [res.status(code).end()] with no
    payload. *)
Record HttpResponse := mkHttpResponse {
  status : nat;
  payload : option Json
}.

(** [LANG_NAMES[code]] as the template literal of the system prompt
    renders it: the name the table gives for one of its seven codes, and
    for any other string whatever the property lookup on the object yields
    ([undefined], or a property inherited from [Object.prototype]), which
    the string determines. *)
Inductive LanguageName := Named (name : string) | Unlisted (code : string).

Definition LANG_NAMES (code : string) : LanguageName :=
  if String.eqb code "en" then Named "English"
  else if String.eqb code "ko" then Named "Korean"
  else if String.eqb code "ja" then Named "Japanese"
  else if String.eqb code "zh" then Named "Chinese"
  else if String.eqb code "es" then Named "Spanish"
  else if String.eqb code "fr" then Named "French"
  else if String.eqb code "de" then Named "German"
  else Unlisted code.

(** What the [fetch] to the provider is called with: the texts, which are
    the user message, and the two language names of the system prompt.
    The rest of the request is the same for every call. *)
Record ProviderCall := mkProviderCall {
  callTexts : list jsstring;
  callSourceName : LanguageName;
  callTargetName : LanguageName
}.

(** What comes back from it: the [fetch] or [response.json()] throws; the
    response is not [ok]; there is no [choices[0].message.content]; the
    content is not JSON; or the content parses and [parsed.translations]
    is read, absent or an array of strings. *)
Inductive ProviderReply :=
| FetchThrows (message : string)
| NotOk (status : nat) (errorText : string)
| NoContent
| NotJson (message : string)
| Parsed (translations : option (list jsstring)).

Record Env := mkEnv {
  DEEPSEEK_API_KEY : option string;
  provider : ProviderCall -> ProviderReply
}.

(** [!value] for an optional string. *)
Definition missing (value : option string) : bool :=
  match value with
  | Some s => String.eqb s ""
  | None => true
  end.

(** Either the exception thrown or the value returned, with the provider
    calls issued on the way. *)
Definition translateWithDeepSeek (env : Env) (texts : list jsstring)
    (sourceLang targetLang : string)
  : (ErrorMessage + list jsstring) * list ProviderCall :=
  if missing (DEEPSEEK_API_KEY env)
  then (inl (Message "DEEPSEEK_API_KEY is not configured"), [])
  else
    let call := mkProviderCall texts (LANG_NAMES sourceLang) (LANG_NAMES targetLang) in
    (match provider env call with
     | FetchThrows message => inl (Message message)
     | NotOk status errorText => inl (DeepSeekApiError status errorText)
     | NoContent => inl (Message "Empty response from DeepSeek")
     | NotJson message => inl (Message message)
     | Parsed translations => inr (default [] translations)
     end, [call]).

(** [translations[index] || original] *)
Definition translationOr (translations : list jsstring) (index : nat)
    (original : jsstring) : jsstring :=
  match translations !! index with
  | Some t => if truthy t then t else original
  | None => original
  end.

Definition handler (env : Env) (req : Request) : HttpResponse * list ProviderCall :=
  if String.eqb (method req) "OPTIONS" then (mkHttpResponse 200 None, [])
  else if negb (String.eqb (method req) "POST")
  then (mkHttpResponse 405 (Some (Failure (Message "Method not allowed"))), [])
  else
    match body req with
    | None =>
        (mkHttpResponse 500
           (Some (Failure (Message "Cannot destructure property 'texts' of 'req.body' as it is undefined."))),
         [])
    | Some b =>
        match texts b with
        | None | Some [] =>
            (mkHttpResponse 400 (Some (Failure (Message "texts array is required"))), [])
        | Some texts =>
            if 50 <? length texts
            then (mkHttpResponse 400
                    (Some (Failure (Message "Maximum 50 texts per request"))), [])
            else if missing (bodySourceLang b) || missing (bodyTargetLang b)
            then (mkHttpResponse 400
                    (Some (Failure (Message "sourceLang and targetLang are required"))),
                  [])
            else
              let sourceLang := default ""%string (bodySourceLang b) in
              let targetLang := default ""%string (bodyTargetLang b) in
              match translateWithDeepSeek env texts sourceLang targetLang with
              | (inr translations, calls) =>
                  let data :=
                    imap (fun index original =>
                            mkTranslatedText original
                              (translationOr translations index original)) texts in
                  (mkHttpResponse 200 (Some (Success data)), calls)
              | (inl message, calls) =>
                  (mkHttpResponse 500 (Some (Failure message)), calls)
              end
        end
    end.

End Api.

(* ===================================================================== *)
(** * The specification's wording of the computed results *)
(* ===================================================================== *)

Module Spec.

Import Classifier TextExtractor.

(** "ratio [a / n] exceeds [p / q]" and "is below [p / q]", on counts. *)
Definition exceeds (a n p q : nat) : bool := p * n <? q * a.
Definition below (a n p q : nat) : bool := q * a <? p * n.

(** Section 4.2: Hangul ratio > 0.6 is Korean; kana ratio > 0.3 is
    Japanese; CJK ratio > 0.5 and kana ratio < 0.1 is Chinese; all three
    non-Latin ratios below 0.1 is English; otherwise "mixed"; no
    classifiable character at all is "mixed". *)
Definition classify (hangul kana cjk latin : nat) : Detected :=
  let n := hangul + kana + cjk + latin in
  if n =? 0 then Mixed
  else if exceeds hangul n 6 10 then Lang ko
  else if exceeds kana n 3 10 then Lang ja
  else if exceeds cjk n 5 10 && below kana n 1 10 then Lang zh
  else if below hangul n 1 10 && below kana n 1 10 && below cjk n 1 10 then Lang en
  else Mixed.

(** Section 4.1, the filters on a text node and its parent element.  The
    structural filter: the parent's tag is not in the skip set and the
    parent is neither editable nor an input, textarea or select. *)
Definition structurallyEligible (parent : Element) : bool :=
  negb (inSkipTags (tagName parent))
  && negb (isContentEditable parent)
  && match class parent with OtherElement => true | _ => false end.

(** The length filter: at least 2 and at most 5000. *)
Definition lengthInBounds (text : jsstring) : bool :=
  (2 <=? length text) && (length text <=? 5000).

(** Hidden by computed style: display none, hidden visibility, zero
    opacity. *)
Definition hiddenByStyle (parent : Element) : bool :=
  String.eqb (display (computedStyle parent)) "none"
  || String.eqb (visibility (computedStyle parent)) "hidden"
  || String.eqb (opacity (computedStyle parent)) "0".

(** "Occupies zero screen area": the rectangle's area is zero. *)
Definition zeroArea (parent : Element) : bool :=
  Qeq_bool (DOMRect.width (boundingClientRect parent)
            * DOMRect.height (boundingClientRect parent)) 0.

(** The rectangle is zero in both directions. *)
Definition zeroWidthAndHeight (parent : Element) : bool :=
  Qeq_bool (DOMRect.width (boundingClientRect parent)) 0
  && Qeq_bool (DOMRect.height (boundingClientRect parent)) 0.

(** The content filter: the ratio of Latin/Hangul letters to all
    characters is at least 0.3. *)
Definition letterRatioAtLeast (text : jsstring) : bool :=
  3 * length text <=? 10 * matchCount isLetter text.

(** Every filter passes, for a given reading [blank] of "takes no room on
    the screen". *)
Definition passesFilters (blank : Element -> bool) (t : Text) (parent : Element)
  : bool :=
  structurallyEligible parent
  && lengthInBounds (trim (textContent t))
  && negb (hiddenByStyle parent)
  && negb (blank parent)
  && letterRatioAtLeast (trim (textContent t)).

(** The unit extraction yields for a text node. *)
Definition unitOf (t : Text) (parent : Element) : TextNodeInfo :=
  {| node := textId t;
     originalText := trim (textContent t);
     parentElement := parent |}.

(** "Text extraction yields a text node if and only if every filter
    passes", for the text nodes a call reaches. *)
Definition extractionYieldsExactly (blank : Element -> bool) : Prop :=
  forall (root : Root) (t : Text) (parent : Element),
    In (t, Some parent) (reachedTexts root) ->
    (In (unitOf t parent) (extractTextNodes root)
     <-> passesFilters blank t parent = true).

(** Section 6, the requests the boundary rejects: a texts list that is
    missing or empty or longer than 50, or a source or target language
    code that is missing (absent or the empty string). *)
Definition invalidRequest (req : Api.Request) : bool :=
  match Api.body req with
  | None => true
  | Some b =>
      match Api.texts b with
      | None => true
      | Some texts => (length texts =? 0) || (50 <? length texts)
      end
      || Api.missing (Api.bodySourceLang b)
      || Api.missing (Api.bodyTargetLang b)
  end.

(** A structured failure response: [{success: false, error}] under an
    error status. *)
Definition structuredFailure (res : Api.HttpResponse) : Prop :=
  400 <= Api.status res /\ exists error, Api.payload res = Some (Api.Failure error).

(** Section 5, "a disable() call must prevent any result from an
    in-flight batch from mutating the document after the fact": whatever
    happens after [disable()], the reply to a call that was pending when
    [disable()] ran leaves the document as it finds it. *)
Definition noWriteAfterDisable (C D : Type)
    `{!ContentScript.TranslationCache C} `{!ContentScript.DomTranslator D} : Prop :=
  forall (st : ContentScript.State C D) (evs : list ContentScript.Event)
         (call : nat) (response : option ContentScript.Response),
    In call (map ContentScript.callId
                 (ContentScript.outstanding (ContentScript.disable st))) ->
    let before := ContentScript.run (ContentScript.disable st) evs in
    ContentScript.document (ContentScript.respond call response before)
    = ContentScript.document before.

End Spec.

(* ===================================================================== *)
(** * Properties of the language classifier *)
(* ===================================================================== *)

Module ClassifierFacts.

Import Classifier.

Lemma Qgtb_quot a n p q :
  n <> 0 ->
  Qgtb (quot a n) (Z.pos p # q) = (Pos.to_nat p * n <? Pos.to_nat q * a).
Proof.
  intros Hn. destruct n as [|m]; [done|].
  unfold Qgtb, quot, Qle_bool, Qdiv, Qmult, Qinv, inject_Z.
  cbn [Qnum Qden].
  replace (Z.of_nat (S m)) with (Z.pos (Pos.of_succ_nat m)) by lia.
  cbn [Qnum Qden].
  destruct (Nat.ltb_spec (Pos.to_nat p * S m) (Pos.to_nat q * a));
    destruct (Z.leb_spec (Z.of_nat a * 1 * Z.pos q)
                         (Z.pos p * Z.pos (1 * Pos.of_succ_nat m)));
    simpl; try reflexivity; exfalso; nia.
Qed.

Lemma Qltb_quot a n p q :
  n <> 0 ->
  Qltb (quot a n) (Z.pos p # q) = (Pos.to_nat q * a <? Pos.to_nat p * n).
Proof.
  intros Hn. destruct n as [|m]; [done|].
  unfold Qltb, quot, Qle_bool, Qdiv, Qmult, Qinv, inject_Z.
  cbn [Qnum Qden].
  replace (Z.of_nat (S m)) with (Z.pos (Pos.of_succ_nat m)) by lia.
  cbn [Qnum Qden].
  destruct (Nat.ltb_spec (Pos.to_nat q * a) (Pos.to_nat p * S m));
    destruct (Z.leb_spec (Z.pos p * Z.pos (1 * Pos.of_succ_nat m))
                         (Z.of_nat a * 1 * Z.pos q));
    simpl; try reflexivity; exfalso; nia.
Qed.

(** C5.  For every input string the classifier returns what the
    thresholds of section 4.2 give on the counts of Hangul, kana, CJK and
    Latin code units: Korean when the Hangul ratio exceeds 0.6, else
    Japanese when the kana ratio exceeds 0.3, else Chinese when the CJK
    ratio exceeds 0.5 and the kana ratio is below 0.1, else English when
    the three non-Latin ratios are all below 0.1, otherwise mixed; and
    mixed when no code unit is classifiable. *)
Theorem detectLanguage_thresholds (text : jsstring) :
  detectLanguage text
  = Spec.classify (koreanChars text) (japaneseChars text)
                  (chineseChars text) (latinChars text).
Proof.
  unfold detectLanguage, Spec.classify, Spec.exceeds, Spec.below.
  unfold koreanRatio, japaneseRatio, chineseRatio.
  fold (total text).
  destruct (Nat.eqb_spec (total text) 0) as [|Hn]; [reflexivity|].
  change 0.6%Q with (6 # 10)%Q. change 0.3%Q with (3 # 10)%Q.
  change 0.5%Q with (5 # 10)%Q. change 0.1%Q with (1 # 10)%Q.
  rewrite !Qgtb_quot, !Qltb_quot by exact Hn.
  reflexivity.
Qed.

Example detectLanguage_english :
  detectLanguage (ofString "Hello, world") = Lang en.
Proof. reflexivity. Qed.

(** "안녕하세요" *)
Example detectLanguage_korean :
  detectLanguage [0xC548; 0xB155; 0xD558; 0xC138; 0xC694]%N = Lang ko.
Proof. reflexivity. Qed.

(** "こんにちは" *)
Example detectLanguage_japanese :
  detectLanguage [0x3053; 0x3093; 0x306B; 0x3061; 0x306F]%N = Lang ja.
Proof. reflexivity. Qed.

(** "你好世界" *)
Example detectLanguage_chinese :
  detectLanguage [0x4F60; 0x597D; 0x4E16; 0x754C]%N = Lang zh.
Proof. reflexivity. Qed.

(** Three Hangul syllables among five classifiable code units: the ratio
    is 0.6 and does not exceed it. *)
Example detectLanguage_boundary :
  detectLanguage [0xC548; 0xB155; 0xD558; 0x61; 0x62]%N = Mixed.
Proof. reflexivity. Qed.

Example detectLanguage_unclassifiable :
  detectLanguage (ofString "12:30 - 14:00") = Mixed.
Proof. reflexivity. Qed.

Lemma isSourceLanguage_iff (text : jsstring) (src : LanguageCode) :
  isSourceLanguage text src = true
  <-> detectLanguage text = Mixed \/ detectLanguage text = Lang src.
Proof.
  unfold isSourceLanguage.
  destruct (detectLanguage text) as [l|]; [|by intuition].
  rewrite bool_decide_eq_true. split; [intros ->; by right|].
  intros [?|?]; congruence.
Qed.

Lemma isSourceLanguage_other (text : jsstring) (src l : LanguageCode) :
  detectLanguage text = Lang l -> l <> src -> isSourceLanguage text src = false.
Proof.
  intros Hd Hne. unfold isSourceLanguage. rewrite Hd.
  by apply bool_decide_eq_false.
Qed.

End ClassifierFacts.

(* ===================================================================== *)
(** * Properties of text extraction *)
(* ===================================================================== *)

Module TextExtractorFacts.

Import Constants TextExtractor.

(** Induction over document trees, through the lists of children. *)
Section NodeInduction.

Variable P : Node -> Prop.
Hypothesis Htext : forall t, P (TextNode t).
Hypothesis Helement :
  forall e childNodes shadowRoot,
    Forall P childNodes ->
    match shadowRoot with Some s => Forall P s | None => True end ->
    P (ElementNode e childNodes shadowRoot).

Fixpoint Node_forall_ind (n : Node) : P n :=
  match n with
  | TextNode t => Htext t
  | ElementNode e childNodes shadowRoot =>
      let all := fix all (l : list Node) : Forall P l :=
        match l with
        | [] => List.Forall_nil P
        | x :: l' => List.Forall_cons P x l' (Node_forall_ind x) (all l')
        end in
      Helement e childNodes shadowRoot (all childNodes)
        (match shadowRoot with
         | Some s => all s
         | None => I
         end)
  end.

End NodeInduction.

Definition visit (tp : Text * option Element) : list TextNodeInfo :=
  visitTextNode (fst tp) (snd tp).

Lemma flat_map_flat_map {A B X} (f : B -> list X) (g : A -> list B) (l : list A) :
  flat_map f (flat_map g l) = flat_map (fun a => flat_map f (g a)) l.
Proof.
  induction l as [|a l IH]; [reflexivity|].
  cbn [flat_map]. by rewrite flat_map_app, IH.
Qed.

Lemma flat_map_Forall_ext {A X} (f g : A -> list X) (l : list A) :
  Forall (fun a => f a = g a) l -> flat_map f l = flat_map g l.
Proof.
  induction 1 as [|a l Ha _ IH]; [reflexivity|].
  cbn [flat_map]. by rewrite Ha, IH.
Qed.

Lemma walk_lightTexts (n : Node) :
  forall parent, walk parent n = flat_map visit (lightTexts parent n).
Proof.
  induction n as [t|e childNodes shadowRoot IH _] using Node_forall_ind; intros parent.
  - cbn. unfold visit. cbn. by rewrite app_nil_r.
  - cbn [walk lightTexts]. rewrite flat_map_flat_map.
    apply flat_map_Forall_ext.
    eapply Forall_impl; [exact IH|]. intros a Ha. apply Ha.
Qed.

Lemma shadowRootsBelow_shadowTexts (n : Node) :
  shadowRootsBelow n = flat_map visit (shadowTexts n).
Proof.
  induction n as [t|e childNodes shadowRoot IH IHs] using Node_forall_ind.
  - reflexivity.
  - cbn [shadowRootsBelow shadowTexts]. rewrite flat_map_app.
    f_equal.
    + destruct shadowRoot as [s|]; [|reflexivity].
      rewrite flat_map_app, !flat_map_flat_map. f_equal.
      * apply flat_map_Forall_ext, Forall_forall. intros a _.
        apply walk_lightTexts.
      * by apply flat_map_Forall_ext.
    + rewrite flat_map_flat_map. by apply flat_map_Forall_ext.
Qed.

Lemma extractFromNode_reached (parent : option Element) (childNodes : list Node) :
  extractFromNode parent childNodes
  = flat_map visit (flat_map (lightTexts parent) childNodes
                    ++ flat_map shadowTexts childNodes).
Proof.
  unfold extractFromNode, extractFromShadowRoots.
  rewrite flat_map_app, !flat_map_flat_map. f_equal.
  - apply flat_map_Forall_ext, Forall_forall. intros a _. apply walk_lightTexts.
  - apply flat_map_Forall_ext, Forall_forall. intros a _.
    apply shadowRootsBelow_shadowTexts.
Qed.

Lemma extractTextNodes_reached (root : Root) :
  extractTextNodes root = flat_map visit (reachedTexts root).
Proof. destruct root; apply extractFromNode_reached. Qed.

Lemma isNonTranslatable_ratio (text : jsstring) :
  text <> [] ->
  isNonTranslatable text = negb (Spec.letterRatioAtLeast text).
Proof.
  intros Hne. unfold isNonTranslatable, Spec.letterRatioAtLeast.
  destruct (Nat.eqb_spec (length text) 0) as [Hlen|_]; [by destruct text|].
  change 0.3%Q with (3 # 10)%Q.
  rewrite ClassifierFacts.Qltb_quot by (destruct text; [done|cbn; lia]).
  change (Pos.to_nat 10) with 10. change (Pos.to_nat 3) with 3.
  destruct (Nat.ltb_spec (10 * matchCount isLetter text) (3 * length text));
    destruct (Nat.leb_spec (3 * length text) (10 * matchCount isLetter text));
    simpl; try reflexivity; lia.
Qed.

Lemma visitTextNode_None (t : Text) : visitTextNode t None = [].
Proof. reflexivity. Qed.

Lemma visitTextNode_Some (t : Text) (parent : Element) :
  visitTextNode t (Some parent)
  = if Spec.passesFilters Spec.zeroWidthAndHeight t parent
    then [Spec.unitOf t parent] else [].
Proof.
  unfold visitTextNode, filterTextNode, Spec.passesFilters,
    Spec.structurallyEligible, Spec.lengthInBounds, Spec.hiddenByStyle,
    Spec.zeroWidthAndHeight, isElementVisible, Spec.unitOf,
    MIN_TEXT_LENGTH, MAX_TEXT_LENGTH.
  destruct (inSkipTags (tagName parent)); [reflexivity|].
  destruct (isContentEditable parent); [reflexivity|].
  destruct (class parent); try reflexivity.
  set (text := trim (textContent t)).
  destruct text as [|c text'] eqn:Htext.
  { cbn. reflexivity. }
  rewrite <- Htext. assert (Hne : text <> []) by (subst text; congruence).
  replace (truthy text) with true by (rewrite Htext; reflexivity).
  rewrite isNonTranslatable_ratio by (rewrite Htext; congruence).
  cbn [negb andb].
  destruct (Spec.letterRatioAtLeast text).
  2:{ cbn [negb]. by rewrite !andb_false_r. }
  cbn [negb]. rewrite !andb_true_r.
  destruct (Nat.ltb_spec (length text) 2) as [Hlo|Hlo].
  { cbn [orb]. destruct (Nat.leb_spec 2 (length text)); [lia|reflexivity]. }
  destruct (Nat.leb_spec 2 (length text)); [|lia].
  destruct (Nat.ltb_spec 5000 (length text)) as [Hhi|Hhi].
  { cbn [orb andb]. destruct (Nat.leb_spec (length text) 5000); [lia|reflexivity]. }
  destruct (Nat.leb_spec (length text) 5000); [|lia].
  cbn [orb andb].
  destruct (String.eqb (display (computedStyle parent)) "none"); [reflexivity|].
  destruct (String.eqb (visibility (computedStyle parent)) "hidden"); [reflexivity|].
  destruct (String.eqb (opacity (computedStyle parent)) "0"); [reflexivity|].
  cbn [orb negb andb].
  destruct (Qeq_bool (DOMRect.width (boundingClientRect parent)) 0
            && Qeq_bool (DOMRect.height (boundingClientRect parent)) 0);
    reflexivity.
Qed.

Lemma passesFilters_unitOf blank (t t' : Text) (parent parent' : Element) :
  Spec.unitOf t parent = Spec.unitOf t' parent' ->
  Spec.passesFilters blank t parent = Spec.passesFilters blank t' parent'.
Proof.
  unfold Spec.unitOf. intros [= _ Htext ->].
  unfold Spec.passesFilters. by rewrite Htext.
Qed.

(** C7, as amended.  For every text node a call of the extractor reaches
    below an element, the extractor yields the node if and only if every
    filter passes: the parent's tag is not in the skip set and the parent
    is neither editable nor an input, textarea or select; the trimmed text
    has at least 2 and at most 5000 code units; the parent is not hidden
    by computed style and its bounding rectangle is not zero in both
    width and height; and at least 0.3 of the trimmed text's code units
    are Latin or Hangul letters. *)
Theorem extractTextNodes_yields_iff_filters_pass :
  Spec.extractionYieldsExactly Spec.zeroWidthAndHeight.
Proof.
  intros root t parent Hreached.
  rewrite extractTextNodes_reached, in_flat_map. split.
  - intros [[t' [parent'|]] [_ Hin]]; unfold visit in Hin; cbn [fst snd] in Hin.
    + rewrite visitTextNode_Some in Hin.
      destruct (Spec.passesFilters _ t' parent') eqn:Hpass; [|destruct Hin].
      destruct Hin as [Heq|[]].
      by rewrite <- (passesFilters_unitOf _ _ _ _ _ Heq).
    + destruct Hin.
  - intros Hpass. exists (t, Some parent). split; [exact Hreached|].
    unfold visit. cbn [fst snd]. rewrite visitTextNode_Some, Hpass. by left.
Qed.

End TextExtractorFacts.

(* ===================================================================== *)
(** * Properties of batch partitioning *)
(* ===================================================================== *)

Module BatchFacts.

Import Constants TextExtractor ContentScript.

Lemma slice_length {A} (i j : nat) (l : list A) :
  length (slice i j l) = Nat.min (j - i) (length l - i).
Proof. unfold slice. by rewrite length_take, length_drop. Qed.

Lemma slice_app_drop {A} (i k : nat) (l : list A) :
  slice i (i + k) l ++ drop (i + k) l = drop i l.
Proof.
  unfold slice. replace (i + k - i) with k by lia.
  rewrite <- drop_drop. apply take_drop.
Qed.

Lemma batchLoop_nil newNodes uncached i :
  length uncached <= i -> batchLoop newNodes uncached i = [].
Proof.
  intros Hi. simp batchLoop. destruct (decide (i < length uncached)); [lia|].
  by simp batchLoop.
Qed.

Lemma batchLoop_cons newNodes uncached i :
  i < length uncached ->
  batchLoop newNodes uncached i
  = mkBatch (slice i (i + MAX_TEXTS_PER_REQUEST) uncached)
            (map (fun u => newNodes !! index u)
                 (slice i (i + MAX_TEXTS_PER_REQUEST) uncached))
      :: batchLoop newNodes uncached (i + MAX_TEXTS_PER_REQUEST).
Proof.
  intros Hi. rewrite batchLoop_equation_1.
  destruct (decide (i < length uncached)); [|lia].
  by simp batchLoop.
Qed.

(** The batches, read one after the other, are the list from [i] on. *)
Lemma batchLoop_concat newNodes uncached i :
  concat (map indices (batchLoop newNodes uncached i)) = drop i uncached.
Proof.
  remember (length uncached - i) as n eqn:Hn.
  revert i Hn. induction (lt_wf n) as [n _ IH]. intros i Hn.
  destruct (decide (i < length uncached)) as [Hi|Hi].
  - rewrite batchLoop_cons by exact Hi. cbn [map concat indices].
    rewrite (IH (length uncached - (i + MAX_TEXTS_PER_REQUEST)));
      [|unfold MAX_TEXTS_PER_REQUEST; lia|reflexivity].
    apply slice_app_drop.
  - rewrite batchLoop_nil by lia. by rewrite drop_ge by lia.
Qed.

Lemma batchLoop_ind (P : nat -> list Batch -> Prop) newNodes uncached :
  (forall i, length uncached <= i -> P i []) ->
  (forall i, i < length uncached ->
     P (i + MAX_TEXTS_PER_REQUEST)
       (batchLoop newNodes uncached (i + MAX_TEXTS_PER_REQUEST)) ->
     P i (mkBatch (slice i (i + MAX_TEXTS_PER_REQUEST) uncached)
                  (map (fun u => newNodes !! index u)
                       (slice i (i + MAX_TEXTS_PER_REQUEST) uncached))
            :: batchLoop newNodes uncached (i + MAX_TEXTS_PER_REQUEST))) ->
  forall i, P i (batchLoop newNodes uncached i).
Proof.
  intros Hnil Hcons i.
  remember (length uncached - i) as n eqn:Hn.
  revert i Hn. induction (lt_wf n) as [n _ IH]. intros i Hn.
  destruct (decide (i < length uncached)) as [Hi|Hi].
  - rewrite batchLoop_cons by exact Hi. apply Hcons; [exact Hi|].
    apply (IH (length uncached - (i + MAX_TEXTS_PER_REQUEST)));
      [unfold MAX_TEXTS_PER_REQUEST; lia|reflexivity].
  - rewrite batchLoop_nil by lia. apply Hnil. lia.
Qed.

Lemma batchLoop_sizes newNodes uncached i :
  Forall (fun b => 1 <= length (indices b) <= MAX_TEXTS_PER_REQUEST)
         (batchLoop newNodes uncached i).
Proof.
  apply (batchLoop_ind (fun _ bs => Forall _ bs)); clear i.
  - intros. constructor.
  - intros i Hi IH. constructor; [|exact IH].
    cbn [indices]. rewrite slice_length. unfold MAX_TEXTS_PER_REQUEST. lia.
Qed.

Lemma batchLoop_full newNodes uncached i :
  forall j b,
    batchLoop newNodes uncached i !! j = Some b ->
    S j < length (batchLoop newNodes uncached i) ->
    length (indices b) = MAX_TEXTS_PER_REQUEST.
Proof.
  apply (batchLoop_ind
           (fun _ bs => forall j b, bs !! j = Some b -> S j < length bs ->
                                    length (indices b) = MAX_TEXTS_PER_REQUEST));
    clear i.
  - intros i _ j b Hj. by rewrite lookup_nil in Hj.
  - intros i Hi IH [|j] b Hj Hlen.
    + injection Hj as <-. cbn [indices]. rewrite slice_length.
      cbn [length] in Hlen.
      destruct (decide (i + MAX_TEXTS_PER_REQUEST < length uncached)) as [Hn|Hn].
      * unfold MAX_TEXTS_PER_REQUEST in *. lia.
      * rewrite batchLoop_nil in Hlen by lia. cbn in Hlen. lia.
    + cbn in Hj, Hlen. apply (IH j b Hj). lia.
Qed.

Lemma batchLoop_nodes newNodes uncached i :
  Forall (fun b => nodes b = map (fun u => newNodes !! index u) (indices b))
         (batchLoop newNodes uncached i).
Proof.
  apply (batchLoop_ind (fun _ bs => Forall _ bs)); clear i.
  - intros. constructor.
  - intros i Hi IH. by constructor.
Qed.

Lemma batchLoop_twenty newNodes uncached :
  length uncached = 20 ->
  map (fun b => length (batchTexts b)) (makeBatches newNodes uncached) = [8; 8; 4].
Proof.
  intros Hlen. unfold makeBatches, batchTexts.
  rewrite !batchLoop_cons by (unfold MAX_TEXTS_PER_REQUEST; cbn; lia).
  rewrite batchLoop_nil by (unfold MAX_TEXTS_PER_REQUEST; cbn; lia).
  cbn [map indices]. rewrite !length_map, !slice_length, Hlen.
  reflexivity.
Qed.

(** C3.  For every list of uncached texts the scheduler's batches, read
    one after the other, are the list itself in its original order; every
    batch holds at least one and at most [MAX_TEXTS_PER_REQUEST] = 8
    texts, and every batch but the last holds exactly 8; in particular 20
    uncached texts give exactly the 3 batches of sizes 8, 8 and 4; and the
    units of a batch are those its texts index. *)
Theorem makeBatches_partitions_in_order
    (newNodes : list TextNodeInfo) (uncached : list Uncached) :
  let batches := makeBatches newNodes uncached in
  MAX_TEXTS_PER_REQUEST = 8
  /\ concat (map batchTexts batches) = map text uncached
  /\ Forall (fun b => 1 <= length (batchTexts b) <= MAX_TEXTS_PER_REQUEST) batches
  /\ (forall j b, batches !! j = Some b -> S j < length batches ->
                  length (batchTexts b) = MAX_TEXTS_PER_REQUEST)
  /\ (length uncached = 20 ->
      map (fun b => length (batchTexts b)) batches = [8; 8; 4])
  /\ Forall (fun b => nodes b = map (fun u => newNodes !! index u) (indices b))
            batches.
Proof.
  cbn zeta. unfold makeBatches. split; [reflexivity|]. split; [|split; [|split; [|split]]].
  - change batchTexts with (fun b => map text (indices b)).
    rewrite <- (map_map indices (map text)), <- concat_map, batchLoop_concat.
    by rewrite drop_0.
  - eapply Forall_impl; [apply batchLoop_sizes|].
    intros b Hb. unfold batchTexts. by rewrite length_map.
  - intros j b Hj Hlen. unfold batchTexts. rewrite length_map.
    by eapply batchLoop_full.
  - apply batchLoop_twenty.
  - apply batchLoop_nodes.
Qed.

(** Twenty uncached texts, numbered by their first code unit. *)
Definition twenty : list Uncached :=
  imap (fun i c => mkUncached i [c; 0x61%N]) (map N.of_nat (seq 0x41 20)).

Lemma makeBatches_partitions_in_order_witness :
  length twenty = 20
  /\ map (fun b => map index (indices b)) (makeBatches [] twenty)
     = [ [0; 1; 2; 3; 4; 5; 6; 7]; [8; 9; 10; 11; 12; 13; 14; 15]; [16; 17; 18; 19] ]
  /\ map (fun b => length (batchTexts b)) (makeBatches [] twenty) = [8; 8; 4].
Proof.
  split; [reflexivity|]. split; [vm_compute; reflexivity|].
  apply (makeBatches_partitions_in_order [] twenty). reflexivity.
Defined.

End BatchFacts.

(* ===================================================================== *)
(** * Properties of the remote translation boundary *)
(* ===================================================================== *)

Module ApiFacts.

Import Api.

Lemma translateWithDeepSeek_calls env texts sourceLang targetLang :
  length (snd (translateWithDeepSeek env texts sourceLang targetLang)) <= 1.
Proof.
  unfold translateWithDeepSeek.
  destruct (missing (DEEPSEEK_API_KEY env)); cbn; lia.
Qed.

(** C8.  Every request whose texts list is missing, empty or longer than
    50, or whose source or target language code is missing, is answered
    without any provider call; and unless it is a CORS preflight, which is
    answered before the request is read, it is rejected with a structured
    failure response. *)
Theorem handler_rejects_invalid_request (env : Env) (req : Request) :
  Spec.invalidRequest req = true ->
  snd (handler env req) = []
  /\ (method req <> "OPTIONS"%string -> Spec.structuredFailure (fst (handler env req))).
Proof.
  unfold Spec.invalidRequest, Spec.structuredFailure, handler. intros Hinvalid.
  destruct (String.eqb_spec (method req) "OPTIONS") as [Hm|Hm].
  { split; [reflexivity|]. by intros []. }
  destruct (String.eqb (method req) "POST"); cbn [negb].
  2:{ split; [reflexivity|]. intros _. cbn. split; [lia|eauto]. }
  destruct (body req) as [b|].
  2:{ split; [reflexivity|]. intros _. cbn. split; [lia|eauto]. }
  destruct (texts b) as [[|t texts']|].
  1,3: split; [reflexivity|]; intros _; cbn; split; [lia|eauto].
  destruct (50 <? length (t :: texts')) eqn:Hlong.
  { split; [reflexivity|]. intros _. cbn. split; [lia|eauto]. }
  change (length (t :: texts') =? 0) with false in Hinvalid.
  cbn [orb] in Hinvalid. rewrite Hinvalid.
  split; [reflexivity|]. intros _. cbn. split; [lia|eauto].
Qed.

Definition preflight : Request := mkRequest "OPTIONS" None.
Definition emptyPost : Request :=
  mkRequest "POST" (Some (mkBody (Some []) (Some "en"%string) (Some "ko"%string))).
Definition anyEnv : Env :=
  mkEnv (Some "key"%string) (fun call => Parsed (Some (callTexts call))).

Lemma handler_rejects_invalid_request_witness :
  Spec.invalidRequest emptyPost = true
  /\ method emptyPost <> "OPTIONS"%string
  /\ snd (handler anyEnv emptyPost) = []
  /\ Spec.structuredFailure (fst (handler anyEnv emptyPost)).
Proof.
  split; [reflexivity|]. split; [discriminate|].
  destruct (handler_rejects_invalid_request anyEnv emptyPost) as [Hcalls Hfail];
    [reflexivity|].
  split; [exact Hcalls|]. apply Hfail. discriminate.
Defined.

(** The preflight is answered with status 200 and no payload. *)
Example handler_preflight (env : Env) :
  handler env preflight = (mkHttpResponse 200 None, []).
Proof. reflexivity. Qed.

Lemma imap_lookup_Some {A B} (f : nat -> A -> B) (l : list A) (i : nat) (y : B) :
  imap f l !! i = Some y -> exists x, l !! i = Some x /\ y = f i x.
Proof.
  rewrite list_lookup_imap. destruct (l !! i) as [x|]; [|discriminate].
  cbn. intros [= <-]. eauto.
Qed.

(** C10.  For every successful response of the handler, the data list has
    exactly one entry per input text, in input order, each entry's
    [original] being the corresponding input text; and wherever the
    provider returned fewer translations than there are inputs, the
    [translated] field of each entry beyond them equals its [original]. *)
Theorem handler_success_echoes_inputs
    (env : Env) (req : Request) (code : nat) (data : list TranslatedText) :
  fst (handler env req) = mkHttpResponse code (Some (Success data)) ->
  exists b texts translations calls,
    body req = Some b /\ Api.texts b = Some texts
    /\ translateWithDeepSeek env texts (default ""%string (bodySourceLang b))
                             (default ""%string (bodyTargetLang b))
       = (inr translations, calls)
    /\ code = 200
    /\ length data = length texts
    /\ map original data = texts
    /\ (forall i r, data !! i = Some r -> length translations <= i ->
                    translated r = original r).
Proof.
  unfold handler.
  destruct (String.eqb (method req) "OPTIONS"); [discriminate|].
  destruct (String.eqb (method req) "POST"); [|discriminate].
  cbn [negb]. destruct (body req) as [b|]; [|discriminate].
  destruct (Api.texts b) as [[|t texts']|] eqn:Htexts; [discriminate| |discriminate].
  remember (t :: texts') as texts0 eqn:Htexts0.
  destruct (50 <? length texts0); [discriminate|].
  destruct (missing (bodySourceLang b) || missing (bodyTargetLang b)); [discriminate|].
  destruct (translateWithDeepSeek env texts0 _ _) as [[message|translations] calls]
    eqn:Hprovider; [discriminate|].
  cbn [fst]. intros [= <- <-].
  exists b, texts0, translations, calls.
  split; [reflexivity|]. split; [exact Htexts|]. split; [exact Hprovider|].
  split; [reflexivity|]. split; [apply length_imap|]. split.
  - apply list_eq. intros i. rewrite list_lookup_fmap, list_lookup_imap.
    by destruct (texts0 !! i).
  - intros i r Hr Hshort. apply imap_lookup_Some in Hr as [orig [_ ->]].
    cbn [translated original]. unfold translationOr.
    by rewrite lookup_ge_None_2.
Qed.

(** Two inputs, one translation ("안녕") returned. *)
Definition shortEnv : Env :=
  mkEnv (Some "key"%string) (fun _ => Parsed (Some [[0xC548; 0xB155]%N])).
Definition twoTexts : Request :=
  mkRequest "POST"
    (Some (mkBody (Some [ofString "Hello"; ofString "World"])
                  (Some "en"%string) (Some "ko"%string))).

Lemma handler_success_echoes_inputs_witness :
  fst (handler shortEnv twoTexts)
  = mkHttpResponse 200
      (Some (Success [ mkTranslatedText (ofString "Hello") [0xC548; 0xB155]%N;
                       mkTranslatedText (ofString "World") (ofString "World") ]))
  /\ exists b texts translations calls,
       body twoTexts = Some b /\ Api.texts b = Some texts
       /\ translateWithDeepSeek shortEnv texts (default ""%string (bodySourceLang b))
                                (default ""%string (bodyTargetLang b))
          = (inr translations, calls)
       /\ 200 = 200
       /\ length [ mkTranslatedText (ofString "Hello") [0xC548; 0xB155]%N;
                   mkTranslatedText (ofString "World") (ofString "World") ]
          = length texts
       /\ map original
              [ mkTranslatedText (ofString "Hello") [0xC548; 0xB155]%N;
                mkTranslatedText (ofString "World") (ofString "World") ]
          = texts
       /\ (forall i r,
             [ mkTranslatedText (ofString "Hello") [0xC548; 0xB155]%N;
               mkTranslatedText (ofString "World") (ofString "World") ] !! i = Some r ->
             length translations <= i -> translated r = original r).
Proof.
  split; [reflexivity|].
  apply (handler_success_echoes_inputs shortEnv twoTexts). reflexivity.
Defined.

End ApiFacts.

(* ===================================================================== *)
(** * Properties of the scheduler *)
(* ===================================================================== *)

Module SchedulerFacts.

Import Constants Classifier TextExtractor ContentScript.

Section WithCollaborators.

Context {C D : Type} `{!TranslationCache C} `{!DomTranslator D}.

Implicit Types (st : State C D) (k call : nat) (inv : Invocation).

(** ** What each operation does to the state, field by field *)

Lemma addAll_eq (ns : list TextNodeInfo) st :
  foldl (fun st n => inFlightAdd (node n) st) st ns
  = mkState (isEnabled st) (settings st)
            (list_to_set (map node ns) ∪ translatingNodes st)
            (cache st) (document st) (outstanding st) (suspended st) (nextId st)
            (trace st ++ map (fun n => InFlightAdd (node n)) ns).
Proof.
  revert st. induction ns as [|n ns IH]; intros st.
  - cbn. rewrite app_nil_r. destruct st; cbn. f_equal. set_solver.
  - cbn [foldl]. rewrite IH. cbn. f_equal; [set_solver|].
    by rewrite <- app_assoc.
Qed.

Lemma finallyBlock_eq (ns : list TextNodeInfo) st :
  finallyBlock ns st
  = mkState (isEnabled st) (settings st)
            (translatingNodes st ∖ list_to_set (map node ns))
            (cache st) (document st) (outstanding st) (suspended st) (nextId st)
            (trace st ++ map (fun n => InFlightDelete (node n)) ns).
Proof.
  unfold finallyBlock. revert st. induction ns as [|n ns IH]; intros st.
  - cbn. rewrite app_nil_r. destruct st; cbn. f_equal. set_solver.
  - cbn [foldl]. rewrite IH. cbn. f_equal; [set_solver|].
    by rewrite <- app_assoc.
Qed.

Lemma storeAll_eq (results : list TranslatedText) st :
  let st' := foldl (fun st result => cacheStore result st) st results in
  st' = mkState (isEnabled st) (settings st) (translatingNodes st)
                (cache st') (document st) (outstanding st) (suspended st)
                (nextId st)
                (trace st ++ map (fun r => CacheSet r (settings st)) results).
Proof.
  cbn zeta. revert st. induction results as [|r results IH]; intros st.
  - cbn. rewrite app_nil_r. by destruct st.
  - cbn [foldl]. rewrite IH at 1. cbn. f_equal. by rewrite <- app_assoc.
Qed.

(** The calls a launch adds and the messages it sends. *)
Definition newCalls (k first : nat) (batches : list Batch) : list Call :=
  imap (fun i b => mkCall (first + i) k b) batches.

Definition newMessages (k first : nat) (langs : LanguageCode * LanguageCode)
    (batches : list Batch) : list Effect :=
  imap (fun i b => SendMessage k (first + i) (batchTexts b) langs) batches.

Lemma launch_eq k (batches : list Batch) st :
  launch k batches st
  = (seq (nextId st) (length batches),
     mkState (isEnabled st) (settings st) (translatingNodes st) (cache st)
             (document st) (outstanding st ++ newCalls k (nextId st) batches)
             (suspended st) (nextId st + length batches)
             (trace st ++ newMessages k (nextId st) (settings st) batches)).
Proof.
  revert st. induction batches as [|b batches IH]; intros st.
  - cbn. rewrite !app_nil_r, Nat.add_0_r. by destruct st.
  - cbn [launch]. unfold sendBatch. rewrite IH. cbn.
    unfold newCalls, newMessages. cbn [imap].
    rewrite <- !app_assoc, Nat.add_0_r. cbn [app].
    do 2 f_equal; [| lia |].
    + do 2 f_equal. apply imap_ext. intros i b' _. cbn. f_equal. lia.
    + do 2 f_equal. apply imap_ext. intros i b' _. cbn. f_equal. lia.
Qed.

Lemma windowLoop_launch k inv st :
  invI inv < length (invBatches inv) ->
  windowLoop k inv st
  = mkState (isEnabled st) (settings st) (translatingNodes st) (cache st)
            (document st)
            (outstanding st ++ newCalls k (nextId st) (currentWindow inv))
            (<[k := mkInvocation (invNewNodes inv) (invBatches inv) (invI inv)
                                 (seq (nextId st) (length (currentWindow inv)))]>
               (suspended st))
            (nextId st + length (currentWindow inv))
            (trace st ++ newMessages k (nextId st) (settings st) (currentWindow inv)).
Proof.
  intros Hi. unfold windowLoop.
  destruct (Nat.ltb_spec (invI inv) (length (invBatches inv))); [|lia].
  fold (currentWindow inv). by rewrite launch_eq.
Qed.

Lemma windowLoop_finally k inv st :
  length (invBatches inv) <= invI inv ->
  windowLoop k inv st = finallyBlock (invNewNodes inv) st.
Proof.
  intros Hi. unfold windowLoop.
  by destruct (Nat.ltb_spec (invI inv) (length (invBatches inv))); [lia|].
Qed.

Lemma currentWindow_length inv :
  length (currentWindow inv) <= MAX_CONCURRENT_REQUESTS.
Proof. unfold currentWindow. rewrite BatchFacts.slice_length. lia. Qed.

(** ** The shape of one call of [translateNodesParallel] *)

(** The state a call returns in, given what the cache answered
    ([split], [c']), what the applier was asked to do ([applied], [d'])
    and whether the call is suspended at its first window or over. *)
Definition suspendedAtFirstWindow st (newNodes : list TextNodeInfo)
    (split : CacheSplit) (c' : C) (d' : D) (applied : list Effect) : State C D :=
  let k := nextId st in
  let batches := makeBatches newNodes (uncached split) in
  let window := slice 0 MAX_CONCURRENT_REQUESTS batches in
  mkState (isEnabled st) (settings st) (nodeSet newNodes ∪ translatingNodes st)
          c' d'
          (outstanding st ++ newCalls k (S k) window)
          (<[k := mkInvocation newNodes batches 0 (seq (S k) (length window))]>
             (suspended st))
          (S k + length window)
          (trace st ++ map (fun n => InFlightAdd (node n)) newNodes
             ++ CacheGetMultiple (map originalText newNodes) (settings st) :: applied
             ++ newMessages k (S k) (settings st) window).

Definition completedAtOnce st (newNodes : list TextNodeInfo)
    (c' : C) (d' : D) (applied : list Effect) : State C D :=
  mkState (isEnabled st) (settings st)
          ((nodeSet newNodes ∪ translatingNodes st) ∖ nodeSet newNodes)
          c' d' (outstanding st) (suspended st) (nextId st)
          (trace st ++ map (fun n => InFlightAdd (node n)) newNodes
             ++ CacheGetMultiple (map originalText newNodes) (settings st) :: applied
             ++ map (fun n => InFlightDelete (node n)) newNodes).

Inductive CallShape st (textNodes : list TextNodeInfo) : State C D -> Prop :=
| NothingNew :
    newNodesOf st textNodes = [] ->
    CallShape st textNodes st
| Ran (split : CacheSplit) (c' : C) (d' : D) (applied : list Effect) st' :
    newNodesOf st textNodes <> [] ->
    getMultiple (map originalText (newNodesOf st textNodes))
                (stSourceLang st) (stTargetLang st) (cache st) = (split, c') ->
    (d' = document st /\ applied = []
     \/ isEnabled st = true /\ exists units results,
          d' = applyTranslations units results (document st)
          /\ applied = [ApplyTranslations units results]) ->
    (uncached split = []
     /\ st' = completedAtOnce st (newNodesOf st textNodes) c' d' applied
     \/ uncached split <> []
        /\ st' = suspendedAtFirstWindow st (newNodesOf st textNodes)
                                         split c' d' applied) ->
    CallShape st textNodes st'.

Lemma makeBatches_nonempty (newNodes : list TextNodeInfo) (uncached : list Uncached) :
  uncached <> [] -> 0 < length (makeBatches newNodes uncached).
Proof.
  intros Hne. unfold makeBatches.
  rewrite BatchFacts.batchLoop_cons; [cbn; lia|].
  destruct uncached; [done|cbn; lia].
Qed.

Lemma applyCached_shape (newNodes : list TextNodeInfo) (texts : list jsstring)
    (cached : list (nat * jsstring)) st :
  exists d' applied,
    (d' = document st /\ applied = []
     \/ isEnabled st = true /\ exists units results,
          d' = applyTranslations units results (document st)
          /\ applied = [ApplyTranslations units results])
    /\ applyCached newNodes texts cached st
       = mkState (isEnabled st) (settings st) (translatingNodes st) (cache st) d'
                 (outstanding st) (suspended st) (nextId st) (trace st ++ applied).
Proof.
  unfold applyCached.
  destruct (0 <? length cached); [destruct (isEnabled st) eqn:Hen|].
  - eexists _, _. split; [right; split; [reflexivity|]; eexists _, _; eauto|].
    unfold domApply, emit, setDocument. cbn. by rewrite Hen.
  - exists (document st), []. split; [by left|].
    rewrite app_nil_r. destruct st; cbn in *. by subst.
  - exists (document st), []. split; [by left|].
    rewrite app_nil_r. by destruct st.
Qed.

Lemma translateNodesParallel_shape (textNodes : list TextNodeInfo) st :
  CallShape st textNodes (translateNodesParallel textNodes st).
Proof.
  unfold translateNodesParallel. fold (newNodesOf st textNodes).
  destruct (newNodesOf st textNodes) as [|n0 ns] eqn:Hnew.
  { by apply NothingNew. }
  rewrite <- Hnew.
  replace (length (newNodesOf st textNodes) =? 0) with false
    by (rewrite Hnew; reflexivity).
  rewrite addAll_eq. unfold cacheGetMultiple.
  match goal with
  | |- context [getMultiple ?t (stSourceLang ?s) (stTargetLang ?s) (cache ?s)] =>
      change (getMultiple t (stSourceLang s) (stTargetLang s) (cache s))
        with (getMultiple t (stSourceLang st) (stTargetLang st) (cache st))
  end.
  destruct (getMultiple _ _ _ (cache st)) as [split c'] eqn:Hget.
  match goal with
  | |- context [applyCached ?n ?t ?c ?s] =>
      destruct (applyCached_shape n t c s) as (d' & applied & Hcase & ->)
  end.
  cbn [isEnabled settings translatingNodes cache document outstanding suspended
       nextId trace emit setCache] in *.
  eapply (Ran st textNodes split c' d' applied).
  - rewrite Hnew. discriminate.
  - exact Hget.
  - exact Hcase.
  - destruct (uncached split) as [|u us] eqn:Hunc.
    + left. split; [reflexivity|]. cbn [length Nat.ltb Nat.leb].
      rewrite finallyBlock_eq. unfold completedAtOnce, nodeSet. cbn.
      f_equal. by rewrite <- !app_assoc.
    + right. split; [discriminate|]. rewrite <- Hunc.
      replace (0 <? length (uncached split)) with true
        by (rewrite Hunc; reflexivity).
      rewrite windowLoop_launch
        by (cbn [invI invBatches]; apply makeBatches_nonempty; rewrite Hunc; discriminate).
      unfold suspendedAtFirstWindow, nodeSet, currentWindow, setNextId. cbn.
      f_equal. by rewrite <- !app_assoc.
Qed.

(** ** The shape of a reply and of a rejection *)

(** The state in which the continuation of a call has run: the call is
    gone, the cache and possibly the document have changed, nothing was
    sent. *)
Definition continued st call (c' : C) (d' : D) (effects : list Effect) : State C D :=
  mkState (isEnabled st) (settings st) (translatingNodes st) c' d'
          (removeCall call (outstanding st)) (suspended st) (nextId st)
          (trace st ++ effects).

Lemma translateBatchResume_shape (batch : Batch) (response : option Response) st :
  exists c' d' effects,
    forallb (fun e => negb (isSend e) && negb (isAdd e)) effects = true
    /\ (d' = document st /\ forallb (fun e => negb (isApply e)) effects = true
        \/ isEnabled st = true)
    /\ translateBatchResume batch response st
       = mkState (isEnabled st) (settings st) (translatingNodes st) c' d'
                 (outstanding st) (suspended st) (nextId st) (trace st ++ effects).
Proof.
  assert (Hid : exists c' d' effects,
    forallb (fun e => negb (isSend e) && negb (isAdd e)) effects = true
    /\ (d' = document st /\ forallb (fun e => negb (isApply e)) effects = true
        \/ isEnabled st = true)
    /\ st = mkState (isEnabled st) (settings st) (translatingNodes st) c' d'
                 (outstanding st) (suspended st) (nextId st) (trace st ++ effects)).
  { exists (cache st), (document st), []. split; [reflexivity|]. split; [by left|].
    rewrite app_nil_r. by destruct st. }
  unfold translateBatchResume.
  destruct response as [r|]; [|exact Hid].
  destruct (success r); [|exact Hid].
  destruct (data r) as [results|]; [|exact Hid].
  clear Hid. rewrite storeAll_eq.
  set (c' := cache (foldl _ st results)).
  assert (Hstored : forall results : list TranslatedText,
             forallb (fun e => negb (isSend e) && negb (isAdd e)) (map (fun r => CacheSet r (settings st)) results) = true
             /\ forallb (fun e => negb (isApply e)) (map (fun r => CacheSet r (settings st)) results) = true).
  { intros rs. induction rs as [|r' rs [IH1 IH2]]; [done|]. cbn. by rewrite IH1, IH2. }
  cbn [isEnabled]. destruct (isEnabled st) eqn:Hen.
  - eexists c', _, (map (fun r => CacheSet r (settings st)) results
                     ++ [ApplyTranslations (nodes batch) results]).
    split; [|split; [by right|]].
    + rewrite forallb_app. by rewrite (proj1 (Hstored results)).
    + unfold domApply, emit, setDocument. cbn. by rewrite <- app_assoc.
  - exists c', (document st), (map (fun r => CacheSet r (settings st)) results).
    split; [apply Hstored|]. split; [left; split; [reflexivity|apply Hstored]|].
    reflexivity.
Qed.

Definition pendingAfter call inv : list nat :=
  List.filter (fun i => negb (i =? call)) (invPending inv).

(** How a call settles, from the state [st1] in which its continuation
    has run. *)
Inductive Settles (c : Call) (st1 : State C D) : State C D -> Prop :=
| AlreadyOver :
    suspended st1 !! callInvocation c = None ->
    Settles c st1 st1
| StillWaiting inv :
    suspended st1 !! callInvocation c = Some inv ->
    pendingAfter (callId c) inv <> [] ->
    Settles c st1
      (setSuspended
         (<[callInvocation c :=
              mkInvocation (invNewNodes inv) (invBatches inv) (invI inv)
                           (pendingAfter (callId c) inv)]> (suspended st1)) st1)
| NextWindow inv :
    suspended st1 !! callInvocation c = Some inv ->
    pendingAfter (callId c) inv = [] ->
    invI inv + MAX_CONCURRENT_REQUESTS < length (invBatches inv) ->
    Settles c st1
      (mkState (isEnabled st1) (settings st1) (translatingNodes st1) (cache st1)
         (document st1)
         (outstanding st1
            ++ newCalls (callInvocation c) (nextId st1) (currentWindow (nextWindow inv)))
         (<[callInvocation c :=
              mkInvocation (invNewNodes inv) (invBatches inv)
                (invI inv + MAX_CONCURRENT_REQUESTS)
                (seq (nextId st1) (length (currentWindow (nextWindow inv))))]>
            (delete (callInvocation c) (suspended st1)))
         (nextId st1 + length (currentWindow (nextWindow inv)))
         (trace st1
            ++ newMessages (callInvocation c) (nextId st1) (settings st1)
                           (currentWindow (nextWindow inv))))
| Finished inv :
    suspended st1 !! callInvocation c = Some inv ->
    Settles c st1
      (mkState (isEnabled st1) (settings st1)
         (translatingNodes st1 ∖ nodeSet (invNewNodes inv))
         (cache st1) (document st1) (outstanding st1)
         (delete (callInvocation c) (suspended st1)) (nextId st1)
         (trace st1 ++ map (fun n => InFlightDelete (node n)) (invNewNodes inv))).

Lemma fulfilled_settles (c : Call) st1 : Settles c st1 (fulfilled c st1).
Proof.
  unfold fulfilled.
  destruct (suspended st1 !! callInvocation c) as [inv|] eqn:Hinv;
    [|by apply AlreadyOver].
  fold (pendingAfter (callId c) inv). fold (nextWindow inv).
  destruct (pendingAfter (callId c) inv) as [|p ps] eqn:Hpending.
  - cbn [length Nat.eqb].
    destruct (decide (invI inv + MAX_CONCURRENT_REQUESTS < length (invBatches inv)))
      as [Hmore|Hdone].
    + rewrite windowLoop_launch by exact Hmore. cbn.
      by apply (NextWindow c st1 inv).
    + rewrite windowLoop_finally by (cbn; lia). rewrite finallyBlock_eq. cbn.
      by apply (Finished c st1 inv).
  - cbn [length Nat.eqb]. rewrite <- Hpending.
    apply (StillWaiting c st1 inv); [exact Hinv|]. by rewrite Hpending.
Qed.

Lemma respond_shape call (response : option Response) st :
  findCall call (outstanding st) = None /\ respond call response st = st
  \/ exists c c' d' effects,
       findCall call (outstanding st) = Some c
       /\ forallb (fun e => negb (isSend e) && negb (isAdd e)) effects = true
       /\ (d' = document st /\ forallb (fun e => negb (isApply e)) effects = true
           \/ isEnabled st = true)
       /\ Settles c (continued st call c' d' effects) (respond call response st).
Proof.
  unfold respond. destruct (findCall call (outstanding st)) as [c|] eqn:Hfind;
    [right|by left].
  match goal with
  | |- context [translateBatchResume ?b ?r ?s] =>
      destruct (translateBatchResume_shape b r s) as (c' & d' & effects & Hfx & Hdoc & ->)
  end.
  exists c, c', d', effects. split; [reflexivity|]. split; [exact Hfx|].
  split; [exact Hdoc|]. apply fulfilled_settles.
Qed.

Lemma reject_shape call st :
  findCall call (outstanding st) = None /\ reject call st = st
  \/ exists c,
       findCall call (outstanding st) = Some c
       /\ let st1 := continued st call (cache st) (document st) [] in
          (suspended st !! callInvocation c = None /\ reject call st = st1
           \/ exists inv, suspended st !! callInvocation c = Some inv
               /\ reject call st
                  = mkState (isEnabled st1) (settings st1)
                      (translatingNodes st1 ∖ nodeSet (invNewNodes inv))
                      (cache st1) (document st1) (outstanding st1)
                      (delete (callInvocation c) (suspended st1)) (nextId st1)
                      (trace st1
                         ++ map (fun n => InFlightDelete (node n)) (invNewNodes inv))).
Proof.
  unfold reject. destruct (findCall call (outstanding st)) as [c|] eqn:Hfind;
    [right|by left].
  exists c. split; [reflexivity|]. cbn zeta. cbn [suspended setOutstanding].
  destruct (suspended st !! callInvocation c) as [inv|] eqn:Hinv.
  - right. exists inv. split; [reflexivity|]. rewrite finallyBlock_eq.
    unfold continued. cbn. by rewrite app_nil_r.
  - left. split; [reflexivity|]. unfold continued, setOutstanding.
    by rewrite app_nil_r.
Qed.

(** ** The window invariant *)

(** Identifiers are fresh and unique; the pending calls of a suspended
    invocation are exactly those it waits for, and they all carry
    batches of its current window; no invocation has more than
    [MAX_CONCURRENT_REQUESTS] calls pending. *)
Record WindowedOn (calls : list Call) (invs : gmap nat Invocation) (next : nat)
  : Prop := mkWindowed {
  ids_unique : NoDup (map callId calls);
  ids_fresh : forall c, In c calls -> callId c < next /\ callInvocation c < next;
  in_window : forall k inv, invs !! k = Some inv ->
      k < next
      /\ map callId (callsOf k calls) = invPending inv
      /\ sublist (map callBatch (callsOf k calls)) (currentWindow inv);
  ceiling : forall k, length (callsOf k calls) <= MAX_CONCURRENT_REQUESTS
}.

Definition Windowed st : Prop :=
  WindowedOn (outstanding st) (suspended st) (nextId st).

Lemma callsOf_app k (l1 l2 : list Call) :
  callsOf k (l1 ++ l2) = callsOf k l1 ++ callsOf k l2.
Proof. apply List.filter_app. Qed.

Lemma callsOf_newCalls k k' first (batches : list Batch) :
  callsOf k' (newCalls k first batches)
  = if k =? k' then newCalls k first batches else [].
Proof.
  unfold newCalls. revert first.
  induction batches as [|b batches IH]; intros first.
  { by destruct (k =? k'). }
  cbn [imap callsOf List.filter callInvocation].
  specialize (IH (S first)).
  assert (Hshift : imap ((fun i b => mkCall (first + i) k b) ∘ S) batches
                   = imap (fun i b => mkCall (S first + i) k b) batches).
  { apply imap_ext. intros i b' _. cbn. f_equal. lia. }
  rewrite Hshift. unfold callsOf in IH. rewrite IH.
  by destruct (k =? k').
Qed.

Lemma callsOf_fresh k (calls : list Call) next :
  (forall c, In c calls -> callId c < next /\ callInvocation c < next) ->
  next <= k -> callsOf k calls = [].
Proof.
  intros Hfresh Hk. unfold callsOf.
  induction calls as [|c calls IH]; [reflexivity|].
  cbn [List.filter].
  destruct (Nat.eqb_spec (callInvocation c) k) as [Heq|_].
  - destruct (Hfresh c (or_introl eq_refl)). lia.
  - apply IH. intros c' Hc'. apply Hfresh. by right.
Qed.

Lemma newCalls_ids k first (batches : list Batch) :
  map callId (newCalls k first batches) = seq first (length batches).
Proof.
  unfold newCalls. revert first.
  induction batches as [|b batches IH]; intros first; [reflexivity|].
  cbn [imap map length seq callId]. rewrite Nat.add_0_r. f_equal.
  rewrite <- (IH (S first)). f_equal. apply imap_ext.
  intros i b' _. cbn. f_equal. lia.
Qed.

Lemma newCalls_batches k first (batches : list Batch) :
  map callBatch (newCalls k first batches) = batches.
Proof.
  unfold newCalls. revert first.
  induction batches as [|b batches IH]; intros first; [reflexivity|].
  cbn [imap map callBatch]. f_equal.
  rewrite <- (IH (S first)) at 2. f_equal. apply imap_ext.
  intros i b' _. cbn. f_equal. lia.
Qed.

Lemma newCalls_In k first (batches : list Batch) (c : Call) :
  In c (newCalls k first batches) ->
  first <= callId c < first + length batches
  /\ callInvocation c = k /\ In (callBatch c) batches.
Proof.
  intros Hin. split; [|split].
  - apply (in_map callId) in Hin. rewrite newCalls_ids in Hin.
    apply in_seq in Hin. lia.
  - unfold newCalls in Hin. apply list_elem_of_In in Hin.
    apply list_elem_of_lookup in Hin as [i Hi].
    rewrite list_lookup_imap in Hi.
    destruct (batches !! i); [|discriminate]. by injection Hi as <-.
  - apply (in_map callBatch) in Hin. by rewrite newCalls_batches in Hin.
Qed.

(** Launching a window of an invocation that has no call pending. *)
Lemma launch_windowed (calls : list Call) (invs : gmap nat Invocation)
    next k first inv :
  WindowedOn calls invs next ->
  next <= first -> k < first -> callsOf k calls = [] ->
  WindowedOn
    (calls ++ newCalls k first (currentWindow inv))
    (<[k := mkInvocation (invNewNodes inv) (invBatches inv) (invI inv)
                         (seq first (length (currentWindow inv)))]> invs)
    (first + length (currentWindow inv)).
Proof.
  intros [Hdup Hfresh Hwin Hceil] Hnext Hk Hnone. split.
  - rewrite map_app, newCalls_ids. apply NoDup_app. split; [exact Hdup|].
    split; [|apply NoDup_seq].
    intros x Hx Hx'. apply list_elem_of_In in Hx, Hx'.
    apply in_seq in Hx'. apply in_map_iff in Hx as [c [<- Hc]].
    destruct (Hfresh c Hc). lia.
  - intros c Hc. apply in_app_or in Hc as [Hc|Hc].
    + destruct (Hfresh c Hc). lia.
    + apply newCalls_In in Hc. lia.
  - intros k' inv' Hlookup. rewrite callsOf_app, callsOf_newCalls.
    destruct (Nat.eqb_spec k k') as [<-|Hne].
    + rewrite lookup_insert_eq in Hlookup. injection Hlookup as <-.
      rewrite Hnone. cbn [app invPending].
      rewrite newCalls_ids, newCalls_batches.
      split; [lia|]. split; [reflexivity|]. reflexivity.
    + rewrite lookup_insert_ne in Hlookup by exact Hne.
      rewrite app_nil_r. destruct (Hwin k' inv' Hlookup) as (? & ? & ?).
      split; [lia|]. by split.
  - intros k'. rewrite callsOf_app, callsOf_newCalls, length_app.
    destruct (Nat.eqb_spec k k') as [<-|Hne].
    + rewrite Hnone. cbn [length].
      unfold newCalls. rewrite length_imap. apply currentWindow_length.
    + cbn [length]. rewrite Nat.add_0_r. apply Hceil.
Qed.

Lemma Windowed_delete (calls : list Call) (invs : gmap nat Invocation) next k :
  WindowedOn calls invs next -> WindowedOn calls (delete k invs) next.
Proof.
  intros [Hdup Hfresh Hwin Hceil]. split; try done.
  intros k' inv' Hlookup. apply Hwin.
  apply lookup_delete_Some in Hlookup. tauto.
Qed.

(** *** Removing the call that settles *)

Lemma findCall_Some call (calls : list Call) (c : Call) :
  findCall call calls = Some c -> In c calls /\ callId c = call.
Proof.
  intros Hfind. apply find_some in Hfind as [Hin Heq].
  split; [exact Hin|]. by apply Nat.eqb_eq.
Qed.

Lemma removeCall_In call (calls : list Call) (c : Call) :
  In c (removeCall call calls) <-> In c calls /\ callId c <> call.
Proof.
  unfold removeCall. rewrite filter_In.
  by rewrite negb_true_iff, Nat.eqb_neq.
Qed.

Lemma map_filter_sublist {A B} (f : A -> B) (p : A -> bool) (l : list A) :
  sublist (map f (List.filter p l)) (map f l).
Proof.
  induction l as [|a l IH]; [constructor|].
  cbn. destruct (p a); cbn; by constructor.
Qed.

Lemma filter_filter_comm {A} (p q : A -> bool) (l : list A) :
  List.filter p (List.filter q l) = List.filter q (List.filter p l).
Proof.
  induction l as [|a l IH]; [reflexivity|].
  cbn. destruct (p a) eqn:Hp, (q a) eqn:Hq; cbn; rewrite ?Hp, ?Hq, IH; reflexivity.
Qed.

Lemma filter_all {A} (p : A -> bool) (l : list A) :
  (forall a, In a l -> p a = true) -> List.filter p l = l.
Proof.
  induction l as [|a l IH]; [reflexivity|]. intros Hall.
  cbn. rewrite (Hall a) by by left. f_equal. apply IH.
  intros a' Ha'. apply Hall. by right.
Qed.

Lemma ids_injective (calls : list Call) (x y : Call) :
  NoDup (map callId calls) -> In x calls -> In y calls ->
  callId x = callId y -> x = y.
Proof.
  induction calls as [|c calls IH]; [by intros _ []|].
  cbn [map]. rewrite NoDup_cons. intros [Hnotin Hdup] [->|Hx] [->|Hy] Heq.
  - reflexivity.
  - exfalso. apply Hnotin. rewrite Heq. apply list_elem_of_In. by apply in_map.
  - exfalso. apply Hnotin. rewrite <- Heq. apply list_elem_of_In. by apply in_map.
  - by apply IH.
Qed.

Lemma callsOf_removeCall k call (calls : list Call) :
  callsOf k (removeCall call calls) = removeCall call (callsOf k calls).
Proof. apply filter_filter_comm. Qed.

Lemma callsOf_removeCall_other k call (calls : list Call) (c : Call) :
  NoDup (map callId calls) -> findCall call calls = Some c ->
  k <> callInvocation c ->
  callsOf k (removeCall call calls) = callsOf k calls.
Proof.
  intros Hdup Hfind Hk. apply findCall_Some in Hfind as [Hc Hid].
  rewrite callsOf_removeCall. apply filter_all. intros x Hx.
  apply filter_In in Hx as [Hx Hinv]. apply Nat.eqb_eq in Hinv.
  apply negb_true_iff, Nat.eqb_neq. intros Heq.
  assert (x = c) by (apply (ids_injective calls); [done..|lia]).
  subst x. lia.
Qed.

Lemma ids_removeCall call (calls : list Call) :
  map callId (removeCall call calls)
  = List.filter (fun i => negb (i =? call)) (map callId calls).
Proof.
  unfold removeCall. induction calls as [|c calls IH]; [reflexivity|].
  cbn [List.filter map]. destruct (callId c =? call); cbn [negb map]; by rewrite IH.
Qed.

Lemma map_nil_inv {A B} (f : A -> B) (l : list A) : map f l = [] -> l = [].
Proof. by destruct l. Qed.

(** Once the continuation of call [c] has run and [c] has left the
    pending calls, every way the call settles restores the invariant. *)
Lemma settles_windowed (c : Call) st (c' : C) (d' : D)
    (effects : list Effect) (st' : State C D) :
  Windowed st ->
  findCall (callId c) (outstanding st) = Some c ->
  Settles c (continued st (callId c) c' d' effects) st' ->
  Windowed st'.
Proof.
  intros [Hdup Hfresh Hwin Hceil] Hfind Hsettles.
  set (calls' := removeCall (callId c) (outstanding st)).
  assert (Hdup' : NoDup (map callId calls')).
  { eapply sublist_NoDup; [exact Hdup|apply map_filter_sublist]. }
  assert (Hfresh' : forall x, In x calls' ->
             callId x < nextId st /\ callInvocation x < nextId st).
  { intros x Hx. apply removeCall_In in Hx as [Hx _]. by apply Hfresh. }
  assert (Hceil' : forall k, length (callsOf k calls') <= MAX_CONCURRENT_REQUESTS).
  { intros k. unfold calls'. rewrite callsOf_removeCall.
    etransitivity; [apply filter_length_le|apply Hceil]. }
  assert (Hother : forall k inv, k <> callInvocation c ->
             suspended st !! k = Some inv ->
             k < nextId st
             /\ map callId (callsOf k calls') = invPending inv
             /\ sublist (map callBatch (callsOf k calls')) (currentWindow inv)).
  { intros k inv Hk Hlookup. unfold calls'.
    rewrite (callsOf_removeCall_other k _ _ c) by done. by apply Hwin. }
  assert (Hsame : forall inv, suspended st !! callInvocation c = Some inv ->
             callInvocation c < nextId st
             /\ map callId (callsOf (callInvocation c) calls')
                = pendingAfter (callId c) inv
             /\ sublist (map callBatch (callsOf (callInvocation c) calls'))
                        (currentWindow inv)).
  { intros inv Hlookup. destruct (Hwin _ _ Hlookup) as (Hlt & Hids & Hsub).
    split; [exact Hlt|]. unfold calls'. rewrite callsOf_removeCall. split.
    - rewrite ids_removeCall, Hids. reflexivity.
    - etransitivity; [apply map_filter_sublist|exact Hsub]. }
  inversion Hsettles as [Hnone|inv Hinv Hpending|inv Hinv Hpending Hmore|inv Hinv];
    subst st'; cbn [suspended continued] in *.
  - split; cbn; try done.
    intros k inv Hlookup. apply Hother; [|exact Hlookup].
    intros ->. congruence.
  - split; cbn; try done.
    intros k inv' Hlookup.
    destruct (decide (k = callInvocation c)) as [->|Hne].
    + rewrite lookup_insert_eq in Hlookup. injection Hlookup as <-.
      cbn [invPending]. apply (Hsame inv Hinv).
    + rewrite lookup_insert_ne in Hlookup by done. by apply Hother.
  - destruct (Hsame inv Hinv) as (Hlt & Hids & _).
    rewrite Hpending in Hids. apply map_nil_inv in Hids.
    unfold Windowed. cbn.
    apply (launch_windowed calls' (delete (callInvocation c) (suspended st))
             (nextId st) (callInvocation c) (nextId st) (nextWindow inv));
      [|lia|exact Hlt|exact Hids].
    split; try done.
    intros k inv' Hlookup. apply lookup_delete_Some in Hlookup as [Hne Hlookup].
    by apply Hother.
  - split; cbn; try done.
    intros k inv' Hlookup. apply lookup_delete_Some in Hlookup as [Hne Hlookup].
    by apply Hother.
Qed.

(** *** Every task of the event loop keeps the invariant *)

Lemma translateNodesParallel_windowed (textNodes : list TextNodeInfo) st :
  Windowed st -> Windowed (translateNodesParallel textNodes st).
Proof.
  intros Hst.
  destruct (translateNodesParallel_shape textNodes st)
    as [|split c' d' applied st' _ _ _ [[_ ->]|[_ ->]]]; [done..|].
  unfold Windowed, suspendedAtFirstWindow. cbn.
  set (batches := makeBatches _ _).
  apply (launch_windowed (outstanding st) (suspended st) (nextId st) (nextId st)
           (S (nextId st)) (mkInvocation (newNodesOf st textNodes) batches 0 []));
    [exact Hst|lia|lia|].
  eapply callsOf_fresh; [apply Hst|lia].
Qed.

Lemma respond_windowed call (response : option Response) st :
  Windowed st -> Windowed (respond call response st).
Proof.
  intros Hst.
  destruct (respond_shape call response st)
    as [[_ ->]|(c & c' & d' & effects & Hfind & _ & _ & Hsettles)]; [done|].
  destruct (findCall_Some _ _ _ Hfind) as [_ <-].
  by eapply settles_windowed.
Qed.

Lemma reject_windowed call st : Windowed st -> Windowed (reject call st).
Proof.
  intros Hst.
  destruct (reject_shape call st) as [[_ ->]|(c & Hfind & Hcases)]; [done|].
  destruct (findCall_Some _ _ _ Hfind) as [_ <-]. cbn zeta in Hcases.
  destruct Hcases as [[Hnone ->]|(inv & Hinv & ->)].
  - eapply (settles_windowed c st); [done..|]. by apply AlreadyOver.
  - eapply (settles_windowed c st); [done..|].
    by apply (Finished c (continued st (callId c) (cache st) (document st) []) inv).
Qed.

Lemma enable_windowed (body : Root) (win : Window) st :
  Windowed st -> Windowed (enable body win st).
Proof.
  intros Hst. unfold enable, translateVisibleContent.
  destruct (isEnabled st); [done|].
  destruct (length (extractTextNodes body) =? 0); [done|].
  by apply translateNodesParallel_windowed.
Qed.

Lemma disable_windowed st : Windowed st -> Windowed (disable st).
Proof. intros Hst. unfold disable. by destruct (isEnabled st). Qed.

Lemma flush_windowed (nodesToProcess : list Root) st :
  Windowed st -> Windowed (flush nodesToProcess st).
Proof.
  unfold flush. revert st.
  induction nodesToProcess as [|root roots IH]; intros st Hst; [done|].
  cbn [foldl]. apply IH.
  destruct (0 <? length (extractTextNodes root)); [|done].
  by apply translateNodesParallel_windowed.
Qed.

Lemma step_windowed st (ev : Event) : Windowed st -> Windowed (step st ev).
Proof.
  intros Hst. destruct ev; cbn [step].
  - by apply enable_windowed.
  - by apply disable_windowed.
  - unfold toggle. destruct (isEnabled st);
      [by apply disable_windowed|by apply enable_windowed].
  - by apply flush_windowed.
  - by apply respond_windowed.
  - by apply reject_windowed.
  - exact Hst.
Qed.

Lemma run_windowed st (evs : list Event) : Windowed st -> Windowed (run st evs).
Proof.
  unfold run. revert st. induction evs as [|ev evs IH]; intros st Hst; [done|].
  cbn [foldl]. by apply IH, step_windowed.
Qed.

Lemma initial_windowed (src tgt : LanguageCode) (c : C) (d : D) :
  Windowed (initial src tgt c d).
Proof.
  split; cbn.
  - constructor.
  - by intros ? [].
  - intros k inv Hlookup. by rewrite lookup_empty in Hlookup.
  - intros k. lia.
Qed.

(** C4.  In every state the page-side agent reaches, no invocation of
    the scheduler has more than [MAX_CONCURRENT_REQUESTS] = 6 provider
    calls outstanding; the calls outstanding for an invocation waiting at
    [Promise.all] are exactly the ones it waits for and all carry batches
    of its current window [batches.slice(i, i + 6)], so that a batch of
    the next window is outstanding only once none of the current one is;
    and 10 batches make a window of 6 followed by a window of 4, after
    which the loop ends. *)
Theorem at_most_six_calls_outstanding
    (src tgt : LanguageCode) (c : C) (d : D) (evs : list Event) :
  let st := run (initial src tgt c d) evs in
  MAX_CONCURRENT_REQUESTS = 6
  /\ (forall k, length (callsOf k (outstanding st)) <= MAX_CONCURRENT_REQUESTS)
  /\ (forall k inv, suspended st !! k = Some inv ->
        map callId (callsOf k (outstanding st)) = invPending inv
        /\ sublist (map callBatch (callsOf k (outstanding st)))
                   (slice (invI inv) (invI inv + MAX_CONCURRENT_REQUESTS)
                          (invBatches inv)))
  /\ (forall inv, length (invBatches inv) = 10 -> invI inv = 0 ->
        length (currentWindow inv) = 6
        /\ length (currentWindow (nextWindow inv)) = 4
        /\ length (invBatches inv) <= invI (nextWindow (nextWindow inv))).
Proof.
  cbn zeta. pose proof (run_windowed _ evs (initial_windowed src tgt c d)) as Hst.
  split; [reflexivity|]. split; [apply Hst|]. split.
  - intros k inv Hlookup. destruct (in_window _ _ _ Hst k inv Hlookup) as (_ & ? & ?).
    by split.
  - intros inv Hlen Hi. unfold currentWindow, nextWindow. cbn [invI invBatches].
    rewrite !BatchFacts.slice_length, Hlen, Hi.
    unfold MAX_CONCURRENT_REQUESTS. cbn. lia.
Qed.

(** ** While the pipeline is disabled *)

(** From [st] to [st'] the flag and the document are what they were and
    the applier was not called. *)
Definition quietly st (st' : State C D) : Prop :=
  isEnabled st' = isEnabled st
  /\ document st' = document st
  /\ exists effects, trace st' = trace st ++ effects
                     /\ forallb (fun e => negb (isApply e)) effects = true.

Lemma quietly_refl st : quietly st st.
Proof.
  split; [reflexivity|]. split; [reflexivity|].
  exists []. by rewrite app_nil_r.
Qed.

Lemma quietly_trans st1 st2 st3 : quietly st1 st2 -> quietly st2 st3 -> quietly st1 st3.
Proof.
  intros (He1 & Hd1 & fx1 & Ht1 & Hq1) (He2 & Hd2 & fx2 & Ht2 & Hq2).
  split; [congruence|]. split; [congruence|].
  exists (fx1 ++ fx2). rewrite Ht2, Ht1, <- app_assoc. split; [reflexivity|].
  by rewrite forallb_app, Hq1, Hq2.
Qed.

Lemma no_apply_map {A} (f : A -> Effect) (l : list A) :
  (forall a, isApply (f a) = false) ->
  forallb (fun e => negb (isApply e)) (map f l) = true.
Proof.
  intros Hf. induction l as [|a l IH]; [reflexivity|].
  cbn. by rewrite Hf, IH.
Qed.

Lemma no_apply_newMessages k first langs (batches : list Batch) :
  forallb (fun e => negb (isApply e)) (newMessages k first langs batches) = true.
Proof.
  unfold newMessages. revert first.
  induction batches as [|b batches IH]; intros first; [reflexivity|].
  cbn. specialize (IH (S first)).
  erewrite imap_ext; [exact IH|]. intros i b' _. cbn. f_equal. lia.
Qed.

Lemma translateNodesParallel_quietly (textNodes : list TextNodeInfo) st :
  isEnabled st = false -> quietly st (translateNodesParallel textNodes st).
Proof.
  intros Hoff.
  destruct (translateNodesParallel_shape textNodes st)
    as [|split c' d' applied st' _ _ Happlied Hst']; [apply quietly_refl|].
  destruct Happlied as [[-> ->]|[Hon _]]; [|congruence].
  destruct Hst' as [[_ ->]|[_ ->]];
    (split; [reflexivity|]; split; [reflexivity|]); cbn [trace completedAtOnce
      suspendedAtFirstWindow]; eexists; (split; [reflexivity|]);
    rewrite forallb_app; cbn [forallb isApply negb andb app];
    rewrite no_apply_map by done; cbn [andb].
  - by apply no_apply_map.
  - apply no_apply_newMessages.
Qed.

Lemma settles_quietly (c : Call) st1 (st' : State C D) :
  Settles c st1 st' -> quietly st1 st'.
Proof.
  intros [Hnone|inv Hinv Hpending|inv Hinv Hpending Hmore|inv Hinv].
  - apply quietly_refl.
  - split; [reflexivity|]. split; [reflexivity|]. exists []. cbn.
    by rewrite app_nil_r.
  - split; [reflexivity|]. split; [reflexivity|]. eexists. cbn.
    split; [reflexivity|]. apply no_apply_newMessages.
  - split; [reflexivity|]. split; [reflexivity|]. eexists. cbn.
    split; [reflexivity|]. by apply no_apply_map.
Qed.

Lemma respond_quietly call (response : option Response) st :
  isEnabled st = false -> quietly st (respond call response st).
Proof.
  intros Hoff.
  destruct (respond_shape call response st)
    as [[_ ->]|(c & c' & d' & effects & _ & _ & Hdoc & Hsettles)];
    [apply quietly_refl|].
  destruct Hdoc as [[-> Hfx]|Hon]; [|congruence].
  eapply quietly_trans; [|by apply (settles_quietly c)].
  split; [reflexivity|]. split; [reflexivity|]. by exists effects.
Qed.

Lemma reject_quietly call st : quietly st (reject call st).
Proof.
  destruct (reject_shape call st) as [[_ ->]|(c & _ & Hcases)];
    [apply quietly_refl|].
  cbn zeta in Hcases. destruct Hcases as [[_ ->]|(inv & _ & ->)].
  - split; [reflexivity|]. split; [reflexivity|]. by exists [].
  - split; [reflexivity|]. split; [reflexivity|]. eexists. cbn.
    rewrite app_nil_r. split; [reflexivity|]. by apply no_apply_map.
Qed.

Lemma flush_quietly (nodesToProcess : list Root) st :
  isEnabled st = false -> quietly st (flush nodesToProcess st).
Proof.
  unfold flush. revert st.
  induction nodesToProcess as [|root roots IH]; intros st Hoff;
    [apply quietly_refl|].
  cbn [foldl].
  set (st1 := if 0 <? length (extractTextNodes root)
              then translateNodesParallel (extractTextNodes root) st else st).
  assert (Hq : quietly st st1).
  { unfold st1. destruct (0 <? length (extractTextNodes root));
      [by apply translateNodesParallel_quietly|apply quietly_refl]. }
  eapply quietly_trans; [exact Hq|]. apply IH.
  destruct Hq as [-> _]. exact Hoff.
Qed.

Lemma step_quietly st (ev : Event) :
  isEnabled st = false -> enabling ev = false -> quietly st (step st ev).
Proof.
  intros Hoff Hev. destruct ev; try discriminate; cbn [step].
  - unfold disable. rewrite Hoff. apply quietly_refl.
  - by apply flush_quietly.
  - by apply respond_quietly.
  - apply reject_quietly.
  - split; [reflexivity|]. split; [reflexivity|]. exists []. cbn.
    by rewrite app_nil_r.
Qed.

Lemma run_quietly st (evs : list Event) :
  isEnabled st = false -> forallb (fun ev => negb (enabling ev)) evs = true ->
  quietly st (run st evs).
Proof.
  unfold run. revert st.
  induction evs as [|ev evs IH]; intros st Hoff Hevs; [apply quietly_refl|].
  cbn [forallb] in Hevs. apply andb_true_iff in Hevs as [Hev Hevs].
  apply negb_true_iff in Hev. cbn [foldl].
  pose proof (step_quietly st ev Hoff Hev) as Hq.
  eapply quietly_trans; [exact Hq|]. apply IH; [|exact Hevs].
  destruct Hq as [-> _]. exact Hoff.
Qed.

Lemma disable_off st : isEnabled (disable st) = false.
Proof. unfold disable. by destruct (isEnabled st) eqn:Hen. Qed.

(** C1, as amended.  After [disable()] and for as long as the pipeline
    is not enabled again, whatever replies, rejections, timer flushes
    and further [disable()] calls follow, the document stays as
    [disable()] left it and the applier is never called: every
    application of results, of cached hits and of a batch's reply alike,
    is behind a check of the enabled flag. *)
Theorem disabled_pipeline_leaves_document_alone st (evs : list Event) :
  forallb (fun ev => negb (enabling ev)) evs = true ->
  let st' := run (disable st) evs in
  isEnabled st' = false
  /\ document st' = document (disable st)
  /\ exists effects,
       trace st' = trace (disable st) ++ effects
       /\ forall units results, ~ In (ApplyTranslations units results) effects.
Proof.
  intros Hevs. cbn zeta.
  destruct (run_quietly (disable st) evs (disable_off st) Hevs)
    as (Hen & Hdoc & effects & Htrace & Hquiet).
  split; [rewrite Hen; apply disable_off|]. split; [exact Hdoc|].
  exists effects. split; [exact Htrace|]. intros units results Hin.
  rewrite forallb_forall in Hquiet. by specialize (Hquiet _ Hin).
Qed.

(** ** The in-flight set *)

Lemma newNodesOf_In st (textNodes : list TextNodeInfo) (n : TextNodeInfo) :
  In n (newNodesOf st textNodes)
  <-> In n textNodes
      /\ (node n ∉ translatingNodes st)
      /\ isSourceLanguage (originalText n) (stSourceLang st) = true.
Proof.
  unfold newNodesOf, admits. rewrite filter_In.
  destruct (bool_decide_reflect (node n ∈ translatingNodes st)); intuition congruence.
Qed.

Lemma nodeSet_In (ns : list TextNodeInfo) (n : TextNodeInfo) :
  In n ns -> node n ∈ nodeSet ns.
Proof.
  intros Hin. unfold nodeSet. apply elem_of_list_to_set, list_elem_of_In.
  by apply in_map.
Qed.

Lemma no_add_map {A} (f : A -> Effect) (l : list A) :
  (forall a, isAdd (f a) = false) ->
  forallb (fun e => negb (isAdd e)) (map f l) = true.
Proof.
  intros Hf. induction l as [|a l IH]; [reflexivity|].
  cbn. by rewrite Hf, IH.
Qed.

Lemma no_add_newMessages k first langs (batches : list Batch) :
  forallb (fun e => negb (isAdd e)) (newMessages k first langs batches) = true.
Proof.
  unfold newMessages. revert first.
  induction batches as [|b batches IH]; intros first; [reflexivity|].
  cbn. specialize (IH (S first)).
  erewrite imap_ext; [exact IH|]. intros i b' _. cbn. f_equal. lia.
Qed.

(** The effects of one call: first the units are marked in flight, then
    the cache is consulted, and only then anything else happens. *)
Lemma translateNodesParallel_marks_first (textNodes : list TextNodeInfo) st :
  let newNodes := newNodesOf st textNodes in
  exists rest,
    trace (translateNodesParallel textNodes st)
    = trace st ++ map (fun n => InFlightAdd (node n)) newNodes ++ rest
    /\ forallb (fun e => negb (isAdd e)) rest = true
    /\ (newNodes <> [] ->
        exists rest', rest = CacheGetMultiple (map originalText newNodes) (settings st)
                                :: rest').
Proof.
  cbn zeta.
  destruct (translateNodesParallel_shape textNodes st)
    as [Hnone|split c' d' applied st' Hsome _ Happlied Hst'].
  { exists []. rewrite Hnone. cbn. by rewrite app_nil_r. }
  assert (Hno : forallb (fun e => negb (isAdd e)) applied = true).
  { destruct Happlied as [[_ ->]|[_ (units & results & _ & ->)]]; reflexivity. }
  destruct Hst' as [[_ ->]|[_ ->]]; cbn [trace completedAtOnce suspendedAtFirstWindow];
    eexists; (split; [reflexivity|]); (split; [|by eexists]);
    cbn [forallb isAdd negb andb]; rewrite forallb_app, Hno; cbn [andb].
  - by apply no_add_map.
  - apply no_add_newMessages.
Qed.

(** When a call returns it is either over, with every unit it marked
    out of the set again, or suspended under a fresh identifier with its
    units in the set. *)
Lemma translateNodesParallel_returns (textNodes : list TextNodeInfo) st :
  let newNodes := newNodesOf st textNodes in
  let st' := translateNodesParallel textNodes st in
  (suspended st' = suspended st
   /\ forall n, In n newNodes -> node n ∉ translatingNodes st')
  \/ (exists inv, suspended st' = <[nextId st := inv]> (suspended st)
                  /\ invNewNodes inv = newNodes
                  /\ forall n, In n newNodes -> node n ∈ translatingNodes st').
Proof.
  cbn zeta.
  destruct (translateNodesParallel_shape textNodes st)
    as [Hnone|split c' d' applied st' Hsome _ _ [[_ ->]|[_ ->]]].
  - left. split; [reflexivity|]. rewrite Hnone. by intros n [].
  - left. split; [reflexivity|]. intros n Hn. cbn.
    apply nodeSet_In in Hn. set_solver.
  - right. eexists. split; [reflexivity|]. split; [reflexivity|].
    intros n Hn. cbn. apply nodeSet_In in Hn. set_solver.
Qed.

Lemma translateNodesParallel_keeps k inv (textNodes : list TextNodeInfo) st :
  suspended st !! k = Some inv -> k < nextId st ->
  suspended (translateNodesParallel textNodes st) !! k = Some inv.
Proof.
  intros Hk Hlt.
  destruct (translateNodesParallel_returns textNodes st)
    as [[-> _]|(inv' & -> & _)]; [exact Hk|].
  rewrite lookup_insert_ne by lia. exact Hk.
Qed.

Lemma translateNodesParallel_nextId (textNodes : list TextNodeInfo) st :
  nextId st <= nextId (translateNodesParallel textNodes st).
Proof.
  destruct (translateNodesParallel_shape textNodes st)
    as [|split c' d' applied st' _ _ _ [[_ ->]|[_ ->]]]; cbn; lia.
Qed.

Lemma flush_keeps k inv (nodesToProcess : list Root) st :
  suspended st !! k = Some inv -> k < nextId st ->
  suspended (flush nodesToProcess st) !! k = Some inv.
Proof.
  unfold flush. revert st.
  induction nodesToProcess as [|root roots IH]; intros st Hk Hlt; [exact Hk|].
  cbn [foldl]. apply IH; destruct (0 <? length (extractTextNodes root)); try done.
  - by apply translateNodesParallel_keeps.
  - pose proof (translateNodesParallel_nextId (extractTextNodes root) st). lia.
Qed.

Lemma enable_keeps k inv (body : Root) (win : Window) st :
  suspended st !! k = Some inv -> k < nextId st ->
  suspended (enable body win st) !! k = Some inv.
Proof.
  intros Hk Hlt. unfold enable, translateVisibleContent.
  destruct (isEnabled st); [exact Hk|].
  destruct (length (extractTextNodes body) =? 0); [exact Hk|].
  by apply translateNodesParallel_keeps.
Qed.

Lemma disable_keeps st : suspended (disable st) = suspended st.
Proof. unfold disable. by destruct (isEnabled st). Qed.

(** What a task does to an invocation that is suspended before it:
    either the invocation is still suspended with the same units, or it
    is over and none of its units is in the set. *)
Lemma step_suspended st (ev : Event) k inv :
  suspended st !! k = Some inv -> k < nextId st ->
  (exists inv', suspended (step st ev) !! k = Some inv'
                /\ invNewNodes inv' = invNewNodes inv)
  \/ (suspended (step st ev) !! k = None
      /\ forall n, In n (invNewNodes inv) -> node n ∉ translatingNodes (step st ev)).
Proof.
  intros Hk Hlt. destruct ev; cbn [step].
  - left. exists inv. split; [by apply enable_keeps|reflexivity].
  - left. exists inv. split; [by rewrite disable_keeps|reflexivity].
  - left. exists inv. split; [|reflexivity]. unfold toggle.
    destruct (isEnabled st); [by rewrite disable_keeps|by apply enable_keeps].
  - left. exists inv. split; [by apply flush_keeps|reflexivity].
  - destruct (respond_shape call response st)
      as [[_ ->]|(c & c' & d' & effects & _ & _ & _ & Hsettles)];
      [left; by exists inv|].
    remember (respond call response st) as st' eqn:Hst'. clear Hst'.
    inversion Hsettles as [Hnone|inv0 Hinv Hpending|inv0 Hinv Hpending Hmore|inv0 Hinv];
      subst st'; cbn [suspended continued translatingNodes setSuspended] in *.
    + left. by exists inv.
    + left. destruct (decide (k = callInvocation c)) as [->|Hne].
      * rewrite lookup_insert_eq. eexists. split; [reflexivity|]. cbn. congruence.
      * rewrite lookup_insert_ne by done. by exists inv.
    + left. destruct (decide (k = callInvocation c)) as [->|Hne].
      * rewrite lookup_insert_eq. eexists. split; [reflexivity|]. cbn. congruence.
      * rewrite lookup_insert_ne, lookup_delete_ne by done. by exists inv.
    + destruct (decide (k = callInvocation c)) as [->|Hne].
      * right. rewrite lookup_delete_eq. split; [reflexivity|].
        intros n Hn. assert (inv0 = inv) as -> by congruence.
        apply nodeSet_In in Hn. set_solver.
      * left. rewrite lookup_delete_ne by done. by exists inv.
  - destruct (reject_shape call st) as [[_ ->]|(c & _ & Hcases)];
      [left; by exists inv|].
    cbn zeta in Hcases. destruct Hcases as [[_ ->]|(inv0 & Hinv & ->)];
      cbn [suspended continued translatingNodes].
    + left. by exists inv.
    + destruct (decide (k = callInvocation c)) as [->|Hne].
      * right. rewrite lookup_delete_eq. split; [reflexivity|].
        intros n Hn. assert (inv0 = inv) as -> by congruence.
        apply nodeSet_In in Hn. set_solver.
      * left. rewrite lookup_delete_ne by done. by exists inv.
  - left. by exists inv.
Qed.

Lemma translateNodesParallel_enabled (textNodes : list TextNodeInfo) st :
  isEnabled (translateNodesParallel textNodes st) = isEnabled st.
Proof.
  by destruct (translateNodesParallel_shape textNodes st)
    as [|split c' d' applied st' _ _ _ [[_ ->]|[_ ->]]].
Qed.

Lemma enable_on (body : Root) (win : Window) st :
  isEnabled (enable body win st) = true.
Proof.
  unfold enable, translateVisibleContent.
  destruct (isEnabled st) eqn:Hen; [exact Hen|].
  destruct (length (extractTextNodes body) =? 0); [reflexivity|].
  by rewrite translateNodesParallel_enabled.
Qed.

(** C2.  The in-flight set de-duplicates work.  In a call of the
    scheduling routine a unit already in the set is filtered out; the
    units that pass the filter are added to the set before the cache is
    consulted and before anything else the call does; when the call
    returns it is either over, with every unit it added out of the set
    again, or suspended with them in the set; a task of the event loop,
    be it a reply or a rejection, leaves a suspended invocation
    suspended with the same units or ends it with every one of its units
    out of the set; and a second [enable()] without a [disable()] in
    between does nothing at all. *)
Theorem in_flight_set_deduplicates
    (src tgt : LanguageCode) (c : C) (d : D) (evs : list Event)
    (textNodes : list TextNodeInfo) :
  let st := run (initial src tgt c d) evs in
  let newNodes := newNodesOf st textNodes in
  let st' := translateNodesParallel textNodes st in
  (forall n, In n newNodes -> In n textNodes /\ (node n ∉ translatingNodes st))
  /\ (forall n, In n textNodes -> node n ∈ translatingNodes st -> ~ In n newNodes)
  /\ (exists rest,
        trace st' = trace st ++ map (fun n => InFlightAdd (node n)) newNodes ++ rest
        /\ forallb (fun e => negb (isAdd e)) rest = true
        /\ (newNodes <> [] ->
            exists rest', rest = CacheGetMultiple (map originalText newNodes) (settings st)
                                :: rest'))
  /\ ((suspended st' = suspended st
       /\ forall n, In n newNodes -> node n ∉ translatingNodes st')
      \/ (exists inv, suspended st' = <[nextId st := inv]> (suspended st)
                      /\ invNewNodes inv = newNodes
                      /\ forall n, In n newNodes -> node n ∈ translatingNodes st'))
  /\ (forall ev k inv, suspended st !! k = Some inv ->
        (exists inv', suspended (step st ev) !! k = Some inv'
                      /\ invNewNodes inv' = invNewNodes inv)
        \/ (suspended (step st ev) !! k = None
            /\ forall n, In n (invNewNodes inv) ->
                         node n ∉ translatingNodes (step st ev)))
  /\ (forall body win body' win',
        enable body' win' (enable body win st) = enable body win st).
Proof.
  cbn zeta. set (st := run (initial src tgt c d) evs).
  assert (Hst : Windowed st) by apply run_windowed, initial_windowed.
  split; [|split; [|split; [|split; [|split]]]].
  - intros n Hn. apply newNodesOf_In in Hn. tauto.
  - intros n _ Hin Hn. apply newNodesOf_In in Hn. tauto.
  - apply translateNodesParallel_marks_first.
  - apply translateNodesParallel_returns.
  - intros ev k inv Hk. apply step_suspended; [exact Hk|].
    by destruct (in_window _ _ _ Hst k inv Hk).
  - intros body win body' win'. unfold enable at 1. by rewrite enable_on.
Qed.

(** ** Language gating *)

Lemma getMultipleFrom_spec i (texts : list jsstring) (src tgt : LanguageCode) (c : C) :
  let split := fst (getMultipleFrom i texts src tgt c) in
  (forall u, In u (uncached split) ->
     i <= index u /\ texts !! (index u - i) = Some (text u))
  /\ (forall hit, In hit (cached split) ->
        i <= fst hit /\ fst hit - i < length texts).
Proof.
  cbn zeta. revert i c. induction texts as [|t texts IH]; intros i c.
  { cbn. split; by intros ? []. }
  cbn [getMultipleFrom]. destruct (cacheGet t src tgt c) as [hit c1].
  specialize (IH (S i) c1).
  destruct (getMultipleFrom (S i) texts src tgt c1) as [rest c2].
  cbn [fst] in IH. destruct IH as [IHu IHc].
  assert (Hu : forall u, In u (uncached rest) ->
             i <= index u /\ (t :: texts) !! (index u - i) = Some (text u)).
  { intros u Hin. destruct (IHu u Hin) as [Hle Hlookup]. split; [lia|].
    replace (index u - i) with (S (index u - S i)) by lia. exact Hlookup. }
  assert (Hc : forall h, In h (cached rest) ->
             i <= fst h /\ fst h - i < length (t :: texts)).
  { intros h Hin. destruct (IHc h Hin). cbn [length]. lia. }
  destruct hit as [tr|]; cbn [fst cached uncached]; split; try done.
  - intros h [<-|Hin]; [|by apply Hc]. cbn [fst length]. lia.
  - intros u [<-|Hin]; [|by apply Hu]. cbn [index text].
    split; [lia|]. by rewrite Nat.sub_diag.
Qed.

Lemma getMultiple_uncached (texts : list jsstring) (src tgt : LanguageCode) (c : C)
    (split : CacheSplit) (c' : C) (u : Uncached) :
  getMultiple texts src tgt c = (split, c') ->
  In u (uncached split) -> texts !! index u = Some (text u).
Proof.
  unfold getMultiple. intros Hget Hin.
  destruct (getMultipleFrom_spec 0 texts src tgt c) as [Hu _].
  rewrite Hget in Hu. destruct (Hu u Hin) as [_ Hlookup].
  by rewrite Nat.sub_0_r in Hlookup.
Qed.

Lemma slice_In {A} (i j : nat) (l : list A) (a : A) : In a (slice i j l) -> In a l.
Proof.
  unfold slice. intros Hin. apply list_elem_of_In in Hin.
  apply list_elem_of_In.
  eapply elem_of_sublist; [exact Hin|].
  etransitivity; [apply sublist_take|apply sublist_drop].
Qed.

Lemma makeBatches_In (newNodes : list TextNodeInfo) (uncached : list Uncached)
    (b : Batch) (u : Uncached) :
  In b (makeBatches newNodes uncached) -> In u (indices b) -> In u uncached.
Proof.
  intros Hb Hu.
  pose proof (BatchFacts.batchLoop_concat newNodes uncached 0) as Hconcat.
  rewrite drop_0 in Hconcat. rewrite <- Hconcat.
  apply in_concat. exists (indices b). split; [by apply in_map|exact Hu].
Qed.

(** Every text of every batch, pending or sent, passes the
    source-language predicate. *)
Definition gatedBatch (src : LanguageCode) (b : Batch) : Prop :=
  forall t, In t (batchTexts b) -> isSourceLanguage t src = true.

Record Gated (src : LanguageCode) st : Prop := mkGated {
  source_fixed : stSourceLang st = src;
  calls_gated : forall c, In c (outstanding st) -> gatedBatch src (callBatch c);
  batches_gated : forall k inv, suspended st !! k = Some inv ->
                    forall b, In b (invBatches inv) -> gatedBatch src b;
  sent_gated : forall k call texts langs,
                 In (SendMessage k call texts langs) (trace st) ->
                 forall t, In t texts -> isSourceLanguage t src = true
}.

Lemma newMessages_In k first langs (batches : list Batch) k' call texts langs' :
  In (SendMessage k' call texts langs') (newMessages k first langs batches) ->
  exists b, In b batches /\ texts = batchTexts b.
Proof.
  unfold newMessages. intros Hin. apply list_elem_of_In in Hin.
  apply list_elem_of_lookup in Hin as [i Hi]. rewrite list_lookup_imap in Hi.
  destruct (batches !! i) as [b|] eqn:Hb; [|discriminate].
  injection Hi as _ _ <-. exists b. split; [|reflexivity].
  apply list_elem_of_In. by eapply list_elem_of_lookup_2.
Qed.

Lemma not_send_In (effects : list Effect) k call texts langs :
  forallb (fun e => negb (isSend e)) effects = true ->
  ~ In (SendMessage k call texts langs) effects.
Proof.
  intros Hall Hin. rewrite forallb_forall in Hall. by specialize (Hall _ Hin).
Qed.

Lemma makeBatches_gated st (textNodes : list TextNodeInfo) (split : CacheSplit) (c' : C) :
  getMultiple (map originalText (newNodesOf st textNodes))
              (stSourceLang st) (stTargetLang st) (cache st) = (split, c') ->
  forall b, In b (makeBatches (newNodesOf st textNodes) (uncached split)) ->
            gatedBatch (stSourceLang st) b.
Proof.
  intros Hget b Hb t Ht. unfold batchTexts in Ht.
  apply in_map_iff in Ht as [u [<- Hu]].
  pose proof (makeBatches_In _ _ _ _ Hb Hu) as Huncached.
  pose proof (getMultiple_uncached _ _ _ _ _ _ _ Hget Huncached) as Hlookup.
  rewrite list_lookup_fmap in Hlookup.
  destruct (newNodesOf st textNodes !! index u) as [n|] eqn:Hn; [|discriminate].
  injection Hlookup as <-.
  apply list_elem_of_lookup_2, list_elem_of_In, newNodesOf_In in Hn. tauto.
Qed.

Lemma translateNodesParallel_gated src (textNodes : list TextNodeInfo) st :
  Gated src st -> Gated src (translateNodesParallel textNodes st).
Proof.
  intros [Hsrc Hcalls Hbatches Hsent].
  destruct (translateNodesParallel_shape textNodes st)
    as [|split c' d' applied st' _ Hget Happlied Hst']; [done|].
  assert (Hquiet : forall k call texts langs,
             ~ In (SendMessage k call texts langs) applied).
  { intros k call texts langs Hin.
    destruct Happlied as [[_ ->]|[_ (units & results & _ & ->)]];
      [destruct Hin|by destruct Hin]. }
  pose proof (makeBatches_gated st textNodes split c' Hget) as Hnew.
  rewrite Hsrc in Hnew.
  destruct Hst' as [[_ ->]|[_ ->]];
    unfold completedAtOnce, suspendedAtFirstWindow; split;
    cbn [outstanding suspended trace stSourceLang settings]; try done.
  - intros k call texts langs Hin.
    rewrite !in_app_iff in Hin. cbn [In] in Hin. rewrite !in_app_iff in Hin.
    destruct Hin as [Hin|[Hin|[Hin|[Hin|Hin]]]]; try discriminate.
    + by eapply Hsent.
    + apply in_map_iff in Hin as [? [? _]]. discriminate.
    + by destruct (Hquiet _ _ _ _ Hin).
    + apply in_map_iff in Hin as [? [? _]]. discriminate.
  - intros call Hin. apply in_app_or in Hin as [Hin|Hin]; [by apply Hcalls|].
    apply newCalls_In in Hin as (_ & _ & Hin). apply slice_In in Hin.
    by apply Hnew.
  - intros k inv Hlookup. destruct (decide (nextId st = k)) as [<-|Hne].
    + rewrite lookup_insert_eq in Hlookup. injection Hlookup as <-. exact Hnew.
    + rewrite lookup_insert_ne in Hlookup by done. by eapply Hbatches.
  - intros k call texts langs Hin.
    rewrite !in_app_iff in Hin. cbn [In] in Hin. rewrite !in_app_iff in Hin.
    destruct Hin as [Hin|[Hin|[Hin|[Hin|Hin]]]]; try discriminate.
    + by eapply Hsent.
    + apply in_map_iff in Hin as [? [? _]]. discriminate.
    + by destruct (Hquiet _ _ _ _ Hin).
    + apply newMessages_In in Hin as (b & Hb & ->). apply slice_In in Hb.
      by apply Hnew.
Qed.

Lemma settles_gated src (c : Call) st1 (st' : State C D) :
  Gated src st1 -> Settles c st1 st' -> Gated src st'.
Proof.
  intros [Hsrc Hcalls Hbatches Hsent]
         [Hnone|inv Hinv Hpending|inv Hinv Hpending Hmore|inv Hinv].
  - by split.
  - split; cbn; try done. intros k inv' Hlookup.
    destruct (decide (callInvocation c = k)) as [<-|Hne].
    + rewrite lookup_insert_eq in Hlookup. injection Hlookup as <-.
      cbn. by eapply Hbatches.
    + rewrite lookup_insert_ne in Hlookup by done. by eapply Hbatches.
  - split; cbn; try done.
    + intros call Hin. apply in_app_or in Hin as [Hin|Hin]; [by apply Hcalls|].
      apply newCalls_In in Hin as (_ & _ & Hin). apply slice_In in Hin.
      by eapply Hbatches.
    + intros k inv' Hlookup.
      destruct (decide (callInvocation c = k)) as [<-|Hne].
      * rewrite lookup_insert_eq in Hlookup. injection Hlookup as <-.
        cbn. by eapply Hbatches.
      * rewrite lookup_insert_ne, lookup_delete_ne in Hlookup by done.
        by eapply Hbatches.
    + intros k call texts langs Hin. apply in_app_or in Hin as [Hin|Hin];
        [by eapply Hsent|].
      apply newMessages_In in Hin as (b & Hb & ->). apply slice_In in Hb.
      by eapply Hbatches.
  - split; cbn; try done.
    + intros k inv' Hlookup. apply lookup_delete_Some in Hlookup as [_ Hlookup].
      by eapply Hbatches.
    + intros k call texts langs Hin. apply in_app_or in Hin as [Hin|Hin];
        [by eapply Hsent|].
      apply in_map_iff in Hin as [? [? _]]. discriminate.
Qed.

Lemma continued_gated src st call (c' : C) (d' : D) (effects : list Effect) :
  forallb (fun e => negb (isSend e)) effects = true ->
  Gated src st -> Gated src (continued st call c' d' effects).
Proof.
  intros Hfx [Hsrc Hcalls Hbatches Hsent]. split; cbn; try done.
  - intros c Hin. apply removeCall_In in Hin as [Hin _]. by apply Hcalls.
  - intros k call' texts langs Hin. apply in_app_or in Hin as [Hin|Hin];
      [by eapply Hsent|]. by destruct (not_send_In _ _ _ _ _ Hfx Hin).
Qed.

Lemma respond_gated src call (response : option Response) st :
  Gated src st -> Gated src (respond call response st).
Proof.
  intros Hst.
  destruct (respond_shape call response st)
    as [[_ ->]|(c & c' & d' & effects & _ & Hfx & _ & Hsettles)]; [done|].
  eapply settles_gated; [|exact Hsettles]. apply continued_gated; [|exact Hst].
  rewrite forallb_forall in Hfx. apply forallb_forall. intros e He.
  specialize (Hfx e He). by apply andb_true_iff in Hfx as [? _].
Qed.

Lemma reject_gated src call st : Gated src st -> Gated src (reject call st).
Proof.
  intros Hst.
  destruct (reject_shape call st) as [[_ ->]|(c & _ & Hcases)]; [done|].
  cbn zeta in Hcases. destruct Hcases as [[_ ->]|(inv & Hinv & ->)].
  - by apply continued_gated.
  - apply (settles_gated src c (continued st call (cache st) (document st) []));
      [by apply continued_gated|].
    by apply (Finished c (continued st call (cache st) (document st) []) inv).
Qed.

Lemma setEnabled_gated src (b : bool) st : Gated src st -> Gated src (setEnabled b st).
Proof. intros [Hsrc Hcalls Hbatches Hsent]. by split. Qed.

Lemma disable_gated src st : Gated src st -> Gated src (disable st).
Proof.
  intros Hst. unfold disable. destruct (isEnabled st); [|exact Hst].
  destruct Hst as [Hsrc Hcalls Hbatches Hsent]. split; cbn; try done.
  intros k call texts langs Hin. apply in_app_or in Hin as [Hin|[Hin|[]]];
    [by eapply Hsent|discriminate].
Qed.

Lemma enable_gated src (body : Root) (win : Window) st :
  Gated src st -> Gated src (enable body win st).
Proof.
  intros Hst. unfold enable, translateVisibleContent.
  destruct (isEnabled st); [exact Hst|].
  destruct (length (extractTextNodes body) =? 0);
    [|apply translateNodesParallel_gated]; by apply setEnabled_gated.
Qed.

Lemma flush_gated src (nodesToProcess : list Root) st :
  Gated src st -> Gated src (flush nodesToProcess st).
Proof.
  unfold flush. revert st.
  induction nodesToProcess as [|root roots IH]; intros st Hst; [done|].
  cbn [foldl]. apply IH. destruct (0 <? length (extractTextNodes root)); [|done].
  by apply translateNodesParallel_gated.
Qed.

Lemma step_gated src st (ev : Event) :
  keepsSource src ev = true -> Gated src st -> Gated src (step st ev).
Proof.
  intros Hev Hst. destruct ev; cbn [step].
  - by apply enable_gated.
  - by apply disable_gated.
  - unfold toggle. destruct (isEnabled st);
      [by apply disable_gated|by apply enable_gated].
  - by apply flush_gated.
  - by apply respond_gated.
  - by apply reject_gated.
  - cbn in Hev. apply bool_decide_eq_true in Hev as ->.
    destruct Hst as [Hsrc Hcalls Hbatches Hsent]. by split.
Qed.

Lemma run_gated src st (evs : list Event) :
  forallb (keepsSource src) evs = true -> Gated src st -> Gated src (run st evs).
Proof.
  unfold run. revert st. induction evs as [|ev evs IH]; intros st Hevs Hst; [done|].
  cbn [forallb] in Hevs. apply andb_true_iff in Hevs as [Hev Hevs].
  cbn [foldl]. apply IH; [exact Hevs|]. by apply step_gated.
Qed.

Lemma initial_gated (src tgt : LanguageCode) (c : C) (d : D) :
  Gated src (initial src tgt c d).
Proof.
  split; cbn; done.
Qed.

End WithCollaborators.

End SchedulerFacts.

(* ===================================================================== *)
(** * Admission and the configured source language *)
(* ===================================================================== *)

Module AdmissionFacts.

Import Constants Classifier TextExtractor ContentScript SchedulerFacts.

(** The cache lookups of a trace.  A call of the scheduler that admits
    units looks their texts up once, right after marking them: a lookup
    records the texts a call admitted and the source language configured
    when it admitted them. *)
Definition lookups (effects : list Effect) : list (list jsstring * LanguageCode) :=
  flat_map (fun e =>
              match e with
              | CacheGetMultiple texts langs => [(texts, fst langs)]
              | _ => []
              end) effects.

(** All of [texts] were admitted by one of the calls [seen], under a
    source language for which they pass the predicate. *)
Definition vettedBy (seen : list (list jsstring * LanguageCode))
    (texts : list jsstring) : Prop :=
  exists taken src,
    In (taken, src) seen
    /\ forall t, In t texts -> In t taken /\ isSourceLanguage t src = true.

(** Every message of [effects] is admitted by a lookup that comes before
    it, in [seen] or in [effects]. *)
Fixpoint gatedTrace (seen : list (list jsstring * LanguageCode))
    (effects : list Effect) : Prop :=
  match effects with
  | [] => True
  | e :: rest =>
      match e with
      | SendMessage _ _ texts _ => vettedBy seen texts
      | _ => True
      end
      /\ gatedTrace (seen ++ lookups [e]) rest
  end.

Lemma lookups_app (l1 l2 : list Effect) :
  lookups (l1 ++ l2) = lookups l1 ++ lookups l2.
Proof. apply flat_map_app. Qed.

Lemma lookups_cons (e : Effect) (l : list Effect) :
  lookups (e :: l) = lookups [e] ++ lookups l.
Proof. apply (lookups_app [e] l). Qed.

Lemma lookups_In (effects : list Effect) (taken : list jsstring)
    (src : LanguageCode) :
  In (taken, src) (lookups effects)
  <-> exists langs, In (CacheGetMultiple taken langs) effects /\ fst langs = src.
Proof.
  unfold lookups. rewrite in_flat_map. split.
  - intros (e & He & Hin). destruct e; try (by destruct Hin).
    destruct Hin as [[= <- <-]|[]]. by exists langs.
  - intros (langs & Hin & <-). exists (CacheGetMultiple taken langs).
    split; [exact Hin|by left].
Qed.

Lemma vettedBy_mono (seen seen' : list (list jsstring * LanguageCode))
    (texts : list jsstring) :
  (forall p, In p seen -> In p seen') ->
  vettedBy seen texts -> vettedBy seen' texts.
Proof.
  intros Hsub (taken & src & Hin & Hall). exists taken, src.
  split; [by apply Hsub|exact Hall].
Qed.

Lemma gatedTrace_app (seen : list (list jsstring * LanguageCode))
    (l1 l2 : list Effect) :
  gatedTrace seen (l1 ++ l2)
  <-> gatedTrace seen l1 /\ gatedTrace (seen ++ lookups l1) l2.
Proof.
  revert seen. induction l1 as [|e l1 IH]; intros seen.
  - cbn. rewrite app_nil_r. tauto.
  - cbn [app gatedTrace]. rewrite IH, (lookups_cons e l1), <- app_assoc. tauto.
Qed.

(** Messages admitted by what came before stay admitted whatever is
    looked up in between. *)
Lemma gatedTrace_sends (seen : list (list jsstring * LanguageCode))
    (effects : list Effect) :
  (forall k call texts langs,
     In (SendMessage k call texts langs) effects -> vettedBy seen texts) ->
  gatedTrace seen effects.
Proof.
  revert seen. induction effects as [|e effects IH]; intros seen Hsends; [exact I|].
  cbn [gatedTrace]. split.
  - destruct e; try exact I. eapply Hsends. by left.
  - apply IH. intros k call texts langs Hin.
    apply (vettedBy_mono seen); [intros p Hp; apply in_or_app; by left|].
    eapply Hsends. right. exact Hin.
Qed.

Section WithCollaborators.

Context {C D : Type} `{!TranslationCache C} `{!DomTranslator D}.

Implicit Types (st : State C D) (k call : nat) (inv : Invocation).

(** Every message sent so far was admitted by a lookup before it, and so
    was every batch of every suspended invocation. *)
Record Vetted st : Prop := mkVetted {
  trace_gated : gatedTrace [] (trace st);
  batches_vetted : forall k inv, suspended st !! k = Some inv ->
      forall b, In b (invBatches inv) ->
      vettedBy (lookups (trace st)) (batchTexts b)
}.

(** A task that looks nothing up and sends only batches of invocations
    that were suspended before it. *)
Lemma vetted_extend st (st' : State C D) (effects : list Effect) :
  Vetted st ->
  trace st' = trace st ++ effects ->
  (forall k call texts langs,
     In (SendMessage k call texts langs) effects ->
     vettedBy (lookups (trace st)) texts) ->
  (forall k inv b, suspended st' !! k = Some inv -> In b (invBatches inv) ->
     exists k' inv', suspended st !! k' = Some inv' /\ In b (invBatches inv')) ->
  Vetted st'.
Proof.
  intros [Htrace Hbatches] Heq Hsends Hkept. split.
  - rewrite Heq. apply gatedTrace_app. split; [exact Htrace|].
    by apply gatedTrace_sends.
  - intros k inv Hk b Hb. destruct (Hkept _ _ _ Hk Hb) as (k' & inv' & Hk' & Hb').
    rewrite Heq, lookups_app.
    apply (vettedBy_mono (lookups (trace st)));
      [intros p Hp; apply in_or_app; by left|].
    by eapply Hbatches.
Qed.

(** The batches a call makes hold texts it admitted, and these pass the
    predicate for the source language configured during the call. *)
Lemma makeBatches_vetted st (textNodes : list TextNodeInfo)
    (split : CacheSplit) (c' : C) (b : Batch) :
  getMultiple (map originalText (newNodesOf st textNodes))
              (stSourceLang st) (stTargetLang st) (cache st) = (split, c') ->
  In b (makeBatches (newNodesOf st textNodes) (uncached split)) ->
  forall t, In t (batchTexts b) ->
    In t (map originalText (newNodesOf st textNodes))
    /\ isSourceLanguage t (stSourceLang st) = true.
Proof.
  intros Hget Hb t Ht. split; [|by apply (makeBatches_gated st textNodes split c' Hget b)].
  unfold batchTexts in Ht. apply in_map_iff in Ht as [u [<- Hu]].
  pose proof (makeBatches_In _ _ _ _ Hb Hu) as Huncached.
  pose proof (getMultiple_uncached _ _ _ _ _ _ _ Hget Huncached) as Hlookup.
  apply list_elem_of_In. by eapply list_elem_of_lookup_2.
Qed.

Lemma translateNodesParallel_vetted (textNodes : list TextNodeInfo) st :
  Vetted st -> Vetted (translateNodesParallel textNodes st).
Proof.
  intros [Htrace Hbatches].
  destruct (translateNodesParallel_shape textNodes st)
    as [|split c' d' applied st' _ Hget Happlied Hst']; [done|].
  assert (Hquiet : forall k call texts langs,
             ~ In (SendMessage k call texts langs) applied).
  { intros k call texts langs Hin.
    destruct Happlied as [[_ ->]|[_ (units & results & _ & ->)]];
      [destruct Hin|by destruct Hin]. }
  set (newNodes := newNodesOf st textNodes) in *.
  set (looked := CacheGetMultiple (map originalText newNodes) (settings st)).
  assert (Hnew : forall b, In b (makeBatches newNodes (uncached split)) ->
            forall seen, vettedBy (seen ++ lookups [looked]) (batchTexts b)).
  { intros b Hb seen. exists (map originalText newNodes), (stSourceLang st).
    split; [apply in_or_app; right; by left|].
    by apply (makeBatches_vetted st textNodes split c' b Hget Hb). }
  assert (Hmore : forall (rest : list Effect) texts,
            vettedBy (lookups (trace st)) texts ->
            vettedBy (lookups (trace st
                                 ++ map (fun n => InFlightAdd (node n)) newNodes
                                 ++ looked :: rest)) texts).
  { intros rest texts. apply vettedBy_mono. intros p Hp.
    rewrite lookups_app. apply in_or_app. by left. }
  assert (Hlooked : forall (rest : list Effect) b,
            In b (makeBatches newNodes (uncached split)) ->
            vettedBy (lookups (trace st
                                 ++ map (fun n => InFlightAdd (node n)) newNodes
                                 ++ looked :: rest)) (batchTexts b)).
  { intros rest b Hb.
    apply (vettedBy_mono ([] ++ lookups [looked])); [|by apply Hnew].
    intros p Hp. rewrite !lookups_app. apply in_or_app. right.
    apply in_or_app. right. rewrite lookups_cons. apply in_or_app. by left. }
  assert (Hgated : forall rest : list Effect,
            (forall k call texts langs,
               In (SendMessage k call texts langs) rest ->
               exists b, In b (makeBatches newNodes (uncached split))
                         /\ texts = batchTexts b) ->
            gatedTrace [] (trace st
                           ++ map (fun n => InFlightAdd (node n)) newNodes
                           ++ looked :: applied ++ rest)).
  { intros rest Hrest. apply gatedTrace_app. split; [exact Htrace|].
    apply gatedTrace_app. split.
    { apply gatedTrace_sends. intros k call texts langs Hin.
      apply in_map_iff in Hin as [? [? _]]. discriminate. }
    cbn [gatedTrace]. split; [exact I|].
    apply gatedTrace_sends. intros k call texts langs Hin.
    apply in_app_or in Hin as [Hin|Hin]; [by destruct (Hquiet _ _ _ _ Hin)|].
    destruct (Hrest _ _ _ _ Hin) as (b & Hb & ->). by apply Hnew. }
  destruct Hst' as [[_ ->]|[_ ->]];
    unfold completedAtOnce, suspendedAtFirstWindow; split;
    cbn [suspended trace]; fold newNodes; fold looked.
  - apply Hgated. intros k call texts langs Hin.
    apply in_map_iff in Hin as [? [? _]]. discriminate.
  - intros k inv Hk b Hb. apply Hmore. by eapply Hbatches.
  - apply Hgated. intros k call texts langs Hin.
    apply newMessages_In in Hin as (b & Hb & ->). apply slice_In in Hb. by exists b.
  - intros k inv Hk b Hb. destruct (decide (nextId st = k)) as [<-|Hne].
    + rewrite lookup_insert_eq in Hk. injection Hk as <-. cbn [invBatches] in Hb.
      by apply Hlooked.
    + rewrite lookup_insert_ne in Hk by done. apply Hmore. by eapply Hbatches.
Qed.

Lemma settles_vetted (c : Call) st1 (st' : State C D) :
  Vetted st1 -> Settles c st1 st' -> Vetted st'.
Proof.
  intros Hst [Hnone|inv Hinv Hpending|inv Hinv Hpending Hmore|inv Hinv].
  - exact Hst.
  - apply (vetted_extend st1 _ []); [exact Hst|by rewrite app_nil_r|by intros ? ? ? ? []|].
    cbn [suspended setSuspended]. intros k inv' b Hk Hb.
    destruct (decide (callInvocation c = k)) as [<-|Hne].
    + rewrite lookup_insert_eq in Hk. injection Hk as <-. by exists (callInvocation c), inv.
    + rewrite lookup_insert_ne in Hk by done. by exists k, inv'.
  - eapply vetted_extend; [exact Hst|reflexivity| |].
    + intros k call texts langs Hin.
      apply newMessages_In in Hin as (b & Hb & ->). apply slice_In in Hb.
      by apply (batches_vetted _ Hst _ _ Hinv).
    + cbn [suspended]. intros k inv' b Hk Hb.
      destruct (decide (callInvocation c = k)) as [<-|Hne].
      * rewrite lookup_insert_eq in Hk. injection Hk as <-.
        by exists (callInvocation c), inv.
      * rewrite lookup_insert_ne, lookup_delete_ne in Hk by done. by exists k, inv'.
  - eapply vetted_extend; [exact Hst|reflexivity| |].
    + intros k call texts langs Hin. apply in_map_iff in Hin as [? [? _]]. discriminate.
    + cbn [suspended]. intros k inv' b Hk Hb.
      apply lookup_delete_Some in Hk as [_ Hk]. by exists k, inv'.
Qed.

Lemma continued_vetted st call (c' : C) (d' : D) (effects : list Effect) :
  forallb (fun e => negb (isSend e)) effects = true ->
  Vetted st -> Vetted (continued st call c' d' effects).
Proof.
  intros Hfx Hst. apply (vetted_extend st _ effects); [exact Hst|reflexivity| |].
  - intros k call' texts langs Hin. by destruct (not_send_In _ _ _ _ _ Hfx Hin).
  - cbn [suspended continued]. intros k inv b Hk Hb. by exists k, inv.
Qed.

Lemma respond_vetted call (response : option Response) st :
  Vetted st -> Vetted (respond call response st).
Proof.
  intros Hst.
  destruct (respond_shape call response st)
    as [[_ ->]|(c & c' & d' & effects & _ & Hfx & _ & Hsettles)]; [done|].
  eapply settles_vetted; [|exact Hsettles]. apply continued_vetted; [|exact Hst].
  rewrite forallb_forall in Hfx. apply forallb_forall. intros e He.
  specialize (Hfx e He). by apply andb_true_iff in Hfx as [? _].
Qed.

Lemma reject_vetted call st : Vetted st -> Vetted (reject call st).
Proof.
  intros Hst.
  destruct (reject_shape call st) as [[_ ->]|(c & _ & Hcases)]; [done|].
  cbn zeta in Hcases. destruct Hcases as [[_ ->]|(inv & Hinv & ->)].
  - by apply continued_vetted.
  - apply (settles_vetted c (continued st call (cache st) (document st) []));
      [by apply continued_vetted|].
    by apply (Finished c (continued st call (cache st) (document st) []) inv).
Qed.

Lemma setEnabled_vetted (b : bool) st : Vetted st -> Vetted (setEnabled b st).
Proof. intros [Htrace Hbatches]. by split. Qed.

Lemma disable_vetted st : Vetted st -> Vetted (disable st).
Proof.
  intros Hst. unfold disable. destruct (isEnabled st); [|exact Hst]. cbn [negb].
  apply (vetted_extend st _ [RestoreOriginal]); [exact Hst|reflexivity| |].
  - intros k call texts langs [Hin|[]]. discriminate.
  - cbn. intros k inv b Hk Hb. by exists k, inv.
Qed.

Lemma enable_vetted (body : Root) (win : Window) st :
  Vetted st -> Vetted (enable body win st).
Proof.
  intros Hst. unfold enable, translateVisibleContent.
  destruct (isEnabled st); [done|].
  destruct (length (extractTextNodes body) =? 0); [by apply setEnabled_vetted|].
  by apply translateNodesParallel_vetted, setEnabled_vetted.
Qed.

Lemma flush_vetted (nodesToProcess : list Root) st :
  Vetted st -> Vetted (flush nodesToProcess st).
Proof.
  unfold flush. revert st.
  induction nodesToProcess as [|root roots IH]; intros st Hst; [done|].
  cbn [foldl]. apply IH.
  destruct (0 <? length (extractTextNodes root)); [|done].
  by apply translateNodesParallel_vetted.
Qed.

Lemma step_vetted st (ev : Event) : Vetted st -> Vetted (step st ev).
Proof.
  intros Hst. destruct ev; cbn [step].
  - by apply enable_vetted.
  - by apply disable_vetted.
  - unfold toggle. destruct (isEnabled st);
      [by apply disable_vetted|by apply enable_vetted].
  - by apply flush_vetted.
  - by apply respond_vetted.
  - by apply reject_vetted.
  - destruct Hst. by split.
Qed.

Lemma run_vetted st (evs : list Event) : Vetted st -> Vetted (run st evs).
Proof.
  unfold run. revert st. induction evs as [|ev evs IH]; intros st Hst; [done|].
  cbn [foldl]. by apply IH, step_vetted.
Qed.

Lemma initial_vetted (src tgt : LanguageCode) (c : C) (d : D) :
  Vetted (initial src tgt c d).
Proof.
  split; cbn; [exact I|]. intros k inv Hk. by rewrite lookup_empty in Hk.
Qed.

Lemma passes_unambiguous (t : jsstring) (src l : LanguageCode) :
  isSourceLanguage t src = true -> detectLanguage t = Lang l -> l = src.
Proof.
  intros Hpass Hd. destruct (decide (l = src)) as [|Hne]; [done|].
  by rewrite (ClassifierFacts.isSourceLanguage_other t src l Hd Hne) in Hpass.
Qed.


End WithCollaborators.

End AdmissionFacts.

(* ===================================================================== *)
(** * Runs on a concrete page *)
(* ===================================================================== *)

Module Runs.

Import Constants Classifier TextExtractor ContentScript SchedulerFacts.

Definition visibleStyle : ComputedStyle := mkStyle "block" "visible" "1".

Definition paragraph (id : nat) : Element :=
  mkElement id "P" false OtherElement visibleStyle (DOMRect.mk 0 0 100 20).

Definition bodyElement : Element :=
  mkElement 0 "BODY" false OtherElement visibleStyle (DOMRect.mk 0 0 800 600).

Definition window : Window := mkWindow 800 600.

(** A body of [n] paragraphs, each holding the text node [i] with text
    "Hello" followed by a letter that tells them apart. *)
Definition helloText (i : nat) : jsstring := ofString "Hello " ++ [N.of_nat (65 + i)].

Definition helloBody (n : nat) : Root :=
  ElementRoot bodyElement
    (map (fun i => ElementNode (paragraph (100 + i))
                     [TextNode (mkText i (helloText i))] None) (seq 1 n))
    None.

Definition helloPage (n : nat) : Page.t :=
  Page.mk (list_to_map (map (fun i => (i, helloText i)) (seq 1 n))) ∅.

Definition start (n : nat) : State (list Page.Entry) Page.t :=
  initial en ko [] (helloPage n).

Definition okResponse (results : list TranslatedText) : option Response :=
  Some (mkResponse true (Some results) None).

(** "안녕", "세계" and "안녕하세요" *)
Definition annyeong : jsstring := [0xC548; 0xB155]%N.
Definition segye : jsstring := [0xC138; 0xACC4]%N.
Definition annyeonghaseyo : jsstring := [0xC548; 0xB155; 0xD558; 0xC138; 0xC694]%N.

(** ** A batch in flight across disable and enable *)

Definition oneInFlight : State (list Page.Entry) Page.t :=
  run (start 1) [Enable (helloBody 1) window].

Definition translatedOne : option Response :=
  okResponse [mkTranslatedText (helloText 1) annyeong].

(** The batch of the first [enable()] is pending when [disable()] runs;
    the pipeline is enabled again before the reply arrives, the second
    pass finds the unit in the in-flight set and skips it, and the reply
    is written into the document. *)
Lemma reply_after_reenable_is_applied :
  ~ Spec.noWriteAfterDisable (list Page.Entry) Page.t.
Proof.
  intros Hclaim.
  specialize (Hclaim oneInFlight [Enable (helloBody 1) window] 1 translatedOne).
  cbn zeta in Hclaim.
  assert (Hpending : In 1 (map callId (outstanding (disable oneInFlight)))).
  { vm_compute. by left. }
  specialize (Hclaim Hpending).
  apply (f_equal (fun d => Page.texts d !! 1)) in Hclaim.
  vm_compute in Hclaim. discriminate.
Qed.

Lemma disabled_pipeline_leaves_document_alone_witness :
  forallb (fun ev => negb (enabling ev)) [Respond 1 translatedOne; Flush []; Disable] = true
  /\ let st' := run (disable oneInFlight) [Respond 1 translatedOne; Flush []; Disable] in
     isEnabled st' = false
     /\ document st' = document (disable oneInFlight)
     /\ exists effects,
          trace st' = trace (disable oneInFlight) ++ effects
          /\ forall units results, ~ In (ApplyTranslations units results) effects.
Proof.
  split; [reflexivity|].
  apply (disabled_pipeline_leaves_document_alone oneInFlight). reflexivity.
Defined.

(** ** The in-flight set on a page of two units *)

Definition twoInFlight : State (list Page.Entry) Page.t :=
  run (start 2) [Enable (helloBody 2) window].

Lemma in_flight_set_deduplicates_witness :
  let again := extractTextNodes (helloBody 2) in
  elements (translatingNodes twoInFlight) = [2; 1]
  /\ (forall n, In n again -> node n ∈ translatingNodes twoInFlight ->
                ~ In n (newNodesOf twoInFlight again))
  /\ (forall body win body' win',
        enable body' win' (enable body win twoInFlight) = enable body win twoInFlight).
Proof.
  cbn zeta.
  destruct (in_flight_set_deduplicates en ko [] (helloPage 2)
              [Enable (helloBody 2) window] (extractTextNodes (helloBody 2)))
    as (_ & Hskip & _ & _ & _ & Htwice).
  split; [vm_compute; reflexivity|]. split; [exact Hskip|exact Htwice].
Defined.

(** A second pass over the same units while the first is in flight finds
    nothing new; a second [enable()] changes nothing; and whether the
    call is answered or rejected, the set is empty afterwards. *)
Example second_pass_finds_nothing_new :
  newNodesOf twoInFlight (extractTextNodes (helloBody 2)) = []
  /\ translateNodesParallel (extractTextNodes (helloBody 2)) twoInFlight = twoInFlight
  /\ enable (helloBody 2) window twoInFlight = twoInFlight
  /\ map callId (outstanding twoInFlight) = [1]
  /\ translatingNodes (step twoInFlight (Reject 1)) = ∅
  /\ translatingNodes (step twoInFlight (Respond 1 None)) = ∅.
Proof.
  split; [vm_compute; reflexivity|]. split; [vm_compute; reflexivity|].
  split; [vm_compute; reflexivity|]. split; [vm_compute; reflexivity|].
  split; vm_compute; reflexivity.
Qed.

(** ** Ten batches *)

(** Eighty uncached units make ten batches. *)
Abbreviation tenBatches :=
  (run (initial en ko [] (helloPage 80)) [Enable (helloBody 80) window]).

Lemma at_most_six_calls_outstanding_witness :
  exists inv,
    suspended tenBatches !! 0 = Some inv
    /\ length (invBatches inv) = 10 /\ invI inv = 0
    /\ length (callsOf 0 (outstanding tenBatches)) <= MAX_CONCURRENT_REQUESTS
    /\ map callId (callsOf 0 (outstanding tenBatches)) = invPending inv
    /\ length (currentWindow inv) = 6
    /\ length (currentWindow (nextWindow inv)) = 4
    /\ length (invBatches inv) <= invI (nextWindow (nextWindow inv)).
Proof.
  assert (Hinv : exists inv, suspended tenBatches !! 0 = Some inv
                   /\ length (invBatches inv) = 10 /\ invI inv = 0).
  { vm_compute. eexists. split; [reflexivity|]. split; reflexivity. }
  destruct Hinv as (inv & Hinv & Hlen & Hi).
  pose proof (at_most_six_calls_outstanding en ko [] (helloPage 80)
                [Enable (helloBody 80) window]) as Hthm.
  cbv zeta in Hthm.
  remember tenBatches as st eqn:Hst. clear Hst.
  destruct Hthm as (_ & Hceiling & Hwindow & Hten).
  exists inv. split; [exact Hinv|]. split; [exact Hlen|]. split; [exact Hi|].
  split; [apply Hceiling|].
  split; [apply (proj1 (Hwindow 0 inv Hinv))|]. apply (Hten inv Hlen Hi).
Defined.

Definition noReply : option Response := None.

(** Ten batches are processed as a window of six followed by a window of
    four: six calls go out at once; while any of them is pending nothing
    more is sent; when the sixth settles the remaining four go out; when
    those have settled nothing is pending and the in-flight set is
    empty. *)
Example ten_batches_two_windows :
  let sent st := length (List.filter isSend (trace st)) in
  let after evs := run tenBatches evs in
  let firstFive := map (fun call => Respond call noReply) [1; 2; 3; 4; 5] in
  let lastFour := map (fun call => Respond call noReply) [7; 8; 9; 10] in
  (map callId (outstanding tenBatches) = [1; 2; 3; 4; 5; 6] /\ sent tenBatches = 6)
  /\ (map callId (outstanding (after firstFive)) = [6] /\ sent (after firstFive) = 6)
  /\ (map callId (outstanding (after (firstFive ++ [Respond 6 noReply]))) = [7; 8; 9; 10]
      /\ sent (after (firstFive ++ [Respond 6 noReply])) = 10)
  /\ (outstanding (after (firstFive ++ [Respond 6 noReply] ++ lastFour)) = []
      /\ sent (after (firstFive ++ [Respond 6 noReply] ++ lastFour)) = 10
      /\ translatingNodes (after (firstFive ++ [Respond 6 noReply] ++ lastFour)) = ∅).
Proof.
  cbv zeta.
  split; [split; vm_compute; reflexivity|].
  split; [split; vm_compute; reflexivity|].
  split; [split; vm_compute; reflexivity|].
  split; [vm_compute; reflexivity|]. split; vm_compute; reflexivity.
Qed.

(** ** Language gating on a page with a Korean and an English unit *)

Definition mixedBody : Root :=
  ElementRoot bodyElement
    [ ElementNode (paragraph 101) [TextNode (mkText 1 annyeonghaseyo)] None;
      ElementNode (paragraph 102) [TextNode (mkText 2 (ofString "Hello"))] None ]
    None.

Definition mixedPage : Page.t :=
  Page.mk (list_to_map [(1, annyeonghaseyo); (2, ofString "Hello")]) ∅.

Definition koreanUnit : TextNodeInfo := mkTextNodeInfo 1 annyeonghaseyo (paragraph 101).

Abbreviation mixedRun :=
  (run (initial en ko [] mixedPage) [Enable mixedBody window]).

(** Forty-nine English units make seven batches.  While the six calls of
    the first window are pending the source language is set to Korean;
    the seventh batch then goes out with the new language pair, holding a
    text that was admitted as English. *)
Abbreviation changedRun :=
  (run (initial en ko [] (helloPage 49))
       [Enable (helloBody 49) window; SettingsChanged ko en;
        Respond 1 None; Respond 2 None; Respond 3 None;
        Respond 4 None; Respond 5 None; Respond 6 None]).


(** ** An element that is wide but has no height *)

Definition collapsed : Element :=
  mkElement 103 "DIV" false OtherElement visibleStyle (DOMRect.mk 0 0 100 0).

Definition collapsedText : Text := mkText 1 (ofString "Hello").

Definition collapsedBody : Root :=
  ElementRoot bodyElement [ElementNode collapsed [TextNode collapsedText] None] None.

(** The text of an element 100 wide and 0 high occupies no screen area
    and is extracted all the same: [isElementVisible] rejects a rectangle
    only when its width and its height are both zero. *)
Lemma zero_area_text_is_extracted :
  ~ Spec.extractionYieldsExactly Spec.zeroArea.
Proof.
  intros Hclaim.
  destruct (Hclaim collapsedBody collapsedText collapsed) as [Hpasses _].
  { vm_compute. by left. }
  assert (Hyielded : In (Spec.unitOf collapsedText collapsed)
                        (extractTextNodes collapsedBody)).
  { vm_compute. by left. }
  apply Hpasses in Hyielded. vm_compute in Hyielded. discriminate.
Qed.

Lemma extractTextNodes_yields_iff_filters_pass_witness :
  In (collapsedText, Some collapsed) (reachedTexts collapsedBody)
  /\ (In (Spec.unitOf collapsedText collapsed) (extractTextNodes collapsedBody)
      <-> Spec.passesFilters Spec.zeroWidthAndHeight collapsedText collapsed = true).
Proof.
  assert (Hreached : In (collapsedText, Some collapsed) (reachedTexts collapsedBody)).
  { vm_compute. by left. }
  split; [exact Hreached|].
  exact (TextExtractorFacts.extractTextNodes_yields_iff_filters_pass
           collapsedBody collapsedText collapsed Hreached).
Defined.

(** ** Filters and viewport priority on small inputs *)

Example script_text_is_rejected :
  filterTextNode (mkText 3 (ofString "var x = 1;")) (Some (mkElement 103 "SCRIPT"
     false OtherElement visibleStyle (DOMRect.mk 0 0 100 20))) = FILTER_REJECT
  /\ filterTextNode (mkText 1 (ofString "  Hello  ")) (Some (paragraph 101)) = FILTER_ACCEPT
  /\ filterTextNode (mkText 1 (ofString "12:30 - 14:00")) (Some (paragraph 101))
     = FILTER_REJECT
  /\ filterTextNode (mkText 1 (ofString "Hello")) None = FILTER_REJECT
  /\ visitTextNode (mkText 1 (ofString "  Hello  ")) (Some (paragraph 101))
     = [mkTextNodeInfo 1 (ofString "Hello") (paragraph 101)]
  /\ visitTextNode (mkText 1 (ofString " a ")) (Some (paragraph 101)) = [].
Proof. repeat split; vm_compute; reflexivity. Qed.

(** A unit far below the fold and one inside the viewport: the sort puts
    the visible one first and keeps the order of extraction otherwise. *)
Example visible_units_come_first :
  let below id := mkElement id "P" false OtherElement visibleStyle
                            (DOMRect.mk 0 2000 100 20) in
  let a := mkTextNodeInfo 1 (ofString "Off screen") (below 101) in
  let b := mkTextNodeInfo 2 (ofString "On screen") (paragraph 102) in
  let c := mkTextNodeInfo 3 (ofString "Off screen too") (below 103) in
  let d := mkTextNodeInfo 4 (ofString "On screen too") (paragraph 104) in
  sortByViewport window [a; b; c; d] = [b; d; a; c].
Proof. vm_compute. reflexivity. Qed.

(** ** The end-to-end scenario of section 8 *)

Definition scriptElement : Element :=
  mkElement 103 "SCRIPT" false OtherElement visibleStyle (DOMRect.mk 0 0 100 20).

Definition scenarioBody : Root :=
  ElementRoot bodyElement
    [ ElementNode (paragraph 101) [TextNode (mkText 1 (ofString "Hello"))] None;
      ElementNode (paragraph 102) [TextNode (mkText 2 (ofString "World"))] None;
      ElementNode scriptElement [TextNode (mkText 3 (ofString "var x = 1;"))] None ]
    None.

Definition scenarioPage : Page.t :=
  Page.mk (list_to_map [ (1, ofString "Hello"); (2, ofString "World");
                         (3, ofString "var x = 1;") ]) ∅.

Definition scenarioReply : option Response :=
  okResponse [ mkTranslatedText (ofString "Hello") annyeong;
               mkTranslatedText (ofString "World") segye ].

Abbreviation scenario :=
  (run (initial en ko [] scenarioPage)
       [Enable scenarioBody window; Respond 1 scenarioReply]).

Definition shown (p : Page.t) (ids : list nat) : list (option jsstring) :=
  map (fun id => Page.texts p !! id) ids.

Example end_to_end_scenario :
  shown (document scenario) [1; 2; 3]
  = [ Some annyeong; Some segye; Some (ofString "var x = 1;") ]
  /\ cache scenario
     = [ Page.mkEntry (ofString "World") en ko segye;
         Page.mkEntry (ofString "Hello") en ko annyeong ]
  /\ onGetStatus scenario = mkStatus true 2 true
  /\ shown (document (disable scenario)) [1; 2; 3]
     = [ Some (ofString "Hello"); Some (ofString "World");
         Some (ofString "var x = 1;") ].
Proof.
  split; [vm_compute; reflexivity|]. split; [vm_compute; reflexivity|].
  split; vm_compute; reflexivity.
Qed.

(** ** [GET_STATUS] answered by the background coordinator *)

(** C9.  With two units displaying translated text, the page-side agent
    answers [GET_STATUS] with [isTranslated] true and [count] 2, while
    [getStatus] of the service worker answers with [isTranslated] false
    and [count] 0, whatever the settings and whatever is applied. *)
Theorem service_worker_reports_no_translation (settings : TranslationSettings) :
  isTranslated (onGetStatus scenario) = true
  /\ count (onGetStatus scenario) = 2
  /\ isTranslated (ServiceWorker.getStatus settings) = false
  /\ count (ServiceWorker.getStatus settings) = 0
  /\ statusAutoTranslate (ServiceWorker.getStatus settings) = autoTranslate settings.
Proof.
  split; [vm_compute; reflexivity|]. split; [vm_compute; reflexivity|].
  split; [reflexivity|]. split; reflexivity.
Qed.

End Runs.
(* ===================================================================== *)
(** * Texts in one script, and source languages the classifier never names *)
(* ===================================================================== *)

Module ScriptFacts.

Import Classifier TextExtractor ContentScript.

(** The comparisons of [detectLanguage] on the counts themselves. *)
Lemma detectLanguage_counts (text : jsstring) :
  let n := total text in
  detectLanguage text
  = if n =? 0 then Mixed
    else if 6 * n <? 10 * koreanChars text then Lang ko
    else if 3 * n <? 10 * japaneseChars text then Lang ja
    else if (5 * n <? 10 * chineseChars text) && (10 * japaneseChars text <? 1 * n)
    then Lang zh
    else if (10 * koreanChars text <? 1 * n) && (10 * japaneseChars text <? 1 * n)
            && (10 * chineseChars text <? 1 * n)
    then Lang en
    else Mixed.
Proof.
  cbn zeta. unfold detectLanguage, koreanRatio, japaneseRatio, chineseRatio.
  destruct (Nat.eqb_spec (total text) 0) as [|Hn]; [reflexivity|].
  change 0.6%Q with (6 # 10)%Q. change 0.3%Q with (3 # 10)%Q.
  change 0.5%Q with (5 # 10)%Q. change 0.1%Q with (1 # 10)%Q.
  rewrite !ClassifierFacts.Qgtb_quot, !ClassifierFacts.Qltb_quot by exact Hn.
  reflexivity.
Qed.

Ltac decide_counts :=
  repeat match goal with
         | |- context [?a =? ?b] => destruct (Nat.eqb_spec a b); try lia
         | |- context [?a <? ?b] => destruct (Nat.ltb_spec a b); try lia
         end;
  cbn [andb]; try reflexivity; try lia.

(** X1.  A text whose classifiable code units all belong to one script is
    classified as that script's language: Hangul alone is Korean, kana
    alone Japanese, CJK ideographs alone Chinese, Latin letters alone
    English, whatever else (digits, punctuation, spaces) the text holds. *)
Theorem single_script_text_is_classified (text : jsstring) :
  0 < total text ->
  (koreanChars text = total text -> detectLanguage text = Lang ko)
  /\ (japaneseChars text = total text -> detectLanguage text = Lang ja)
  /\ (chineseChars text = total text -> detectLanguage text = Lang zh)
  /\ (latinChars text = total text -> detectLanguage text = Lang en).
Proof.
  intros Hn. rewrite detectLanguage_counts. cbn zeta.
  unfold total in *.
  split; [|split; [|split]]; intros Hall; decide_counts.
Qed.

Lemma single_script_text_is_classified_witness :
  detectLanguage (ofString "Bonjour, 2 x 3 = 6 !") = Lang en.
Proof.
  apply (single_script_text_is_classified (ofString "Bonjour, 2 x 3 = 6 !"));
    vm_compute; [lia|reflexivity].
Defined.

Lemma detectLanguage_range (text : jsstring) :
  detectLanguage text = Mixed
  \/ detectLanguage text = Lang ko \/ detectLanguage text = Lang ja
  \/ detectLanguage text = Lang zh \/ detectLanguage text = Lang en.
Proof.
  unfold detectLanguage.
  repeat match goal with
         | |- context [if ?b then _ else _] => destruct b
         end; tauto.
Qed.

Section Admission.

Context {C D : Type} `{!TranslationCache C} `{!DomTranslator D}.

(** X2.  The classifier never answers Spanish, French or German.  Under
    one of these as the configured source language the source-language
    predicate holds of a text exactly when the classifier calls it mixed;
    a text written in Latin letters alone is classified English, fails
    the predicate, and is admitted by no call of the scheduler. *)
Theorem european_source_admits_only_mixed (src : LanguageCode) (text : jsstring) :
  src = es \/ src = fr \/ src = de ->
  detectLanguage text <> Lang src
  /\ (isSourceLanguage text src = true <-> detectLanguage text = Mixed)
  /\ (0 < total text -> latinChars text = total text ->
      isSourceLanguage text src = false
      /\ forall (st : State C D) (textNodes : list TextNodeInfo) (n : TextNodeInfo),
           stSourceLang st = src -> originalText n = text ->
           ~ In n (newNodesOf st textNodes)).
Proof.
  intros Hsrc.
  assert (Hnot : detectLanguage text <> Lang src).
  { destruct (detectLanguage_range text) as [H|[H|[H|[H|H]]]]; rewrite H;
      destruct Hsrc as [->|[->| ->]]; discriminate. }
  split; [exact Hnot|]. split.
  - rewrite ClassifierFacts.isSourceLanguage_iff. tauto.
  - intros Hn Hlatin.
    destruct (single_script_text_is_classified text Hn) as (_ & _ & _ & Hen).
    assert (Hfalse : isSourceLanguage text src = false).
    { apply (ClassifierFacts.isSourceLanguage_other text src en (Hen Hlatin)).
      destruct Hsrc as [->|[->| ->]]; discriminate. }
    split; [exact Hfalse|].
    intros st textNodes n Hst Htext Hin.
    unfold newNodesOf in Hin. apply filter_In in Hin as [_ Hadmits].
    unfold admits in Hadmits.
    destruct (bool_decide (node n ∈ translatingNodes st)); [discriminate|].
    congruence.
Qed.

End Admission.

Lemma european_source_admits_only_mixed_witness :
  isSourceLanguage (ofString "Bonjour le monde") fr = false.
Proof.
  apply (european_source_admits_only_mixed (C := list Page.Entry) (D := Page.t)
           fr (ofString "Bonjour le monde"));
    [tauto|vm_compute; lia|reflexivity].
Defined.

End ScriptFacts.

(* ===================================================================== *)
(** * What every extracted unit looks like *)
(* ===================================================================== *)

Module ExtractionFacts.

Import Constants Classifier TextExtractor.

(** ** [String.prototype.trim] *)

Lemma trimStart_head (s : jsstring) (c : N) :
  head (trimStart s) = Some c -> isTrimmable c = false.
Proof.
  induction s as [|a s IH]; [discriminate|].
  cbn [trimStart]. destruct (isTrimmable a) eqn:Ha; [exact IH|].
  cbn. congruence.
Qed.

Lemma trimStart_suffix (s : jsstring) : exists p, s = p ++ trimStart s.
Proof.
  induction s as [|a s [p IH]]; [by exists []|].
  cbn [trimStart]. destruct (isTrimmable a); [|by exists []].
  exists (a :: p). cbn. by rewrite <- IH.
Qed.

Lemma head_app_Some {A} (l1 l2 : list A) (a : A) :
  head l1 = Some a -> head (l1 ++ l2) = Some a.
Proof. by destruct l1. Qed.

Lemma last_rev {A} (l : list A) : last (rev l) = head l.
Proof.
  destruct l as [|a l]; [reflexivity|]. cbn [rev head]. apply last_snoc.
Qed.

Lemma head_rev {A} (l : list A) : head (rev l) = last l.
Proof. by rewrite <- (rev_involutive l) at 2; rewrite last_rev. Qed.

(** A trimmed string neither begins nor ends with white space. *)
Lemma trim_ends (s : jsstring) (c : N) :
  head (trim s) = Some c \/ last (trim s) = Some c -> isTrimmable c = false.
Proof.
  unfold trim, trimEnd.
  destruct (trimStart_suffix (rev (trimStart s))) as [p Hp].
  intros [Hhead|Hlast].
  - apply (trimStart_head s).
    rewrite <- (rev_involutive (trimStart s)), Hp, rev_app_distr.
    by apply head_app_Some.
  - rewrite last_rev in Hlast. by apply trimStart_head in Hlast.
Qed.

Lemma trimStart_fixed (s : jsstring) :
  (forall c, head s = Some c -> isTrimmable c = false) -> trimStart s = s.
Proof.
  destruct s as [|a s]; [reflexivity|]. intros Ha. cbn.
  by rewrite (Ha a eq_refl).
Qed.

(** Trimming twice is trimming once. *)
Lemma trim_idempotent (s : jsstring) : trim (trim s) = trim s.
Proof.
  pose proof (trim_ends s) as Hends.
  unfold trim at 1. rewrite trimStart_fixed by (intros c Hc; apply Hends; by left).
  unfold trimEnd. rewrite trimStart_fixed; [apply rev_involutive|].
  intros c Hc. apply Hends. right. by rewrite <- head_rev.
Qed.

(** ** Letters are classifiable *)

Lemma isLetter_classifiable (c : N) :
  isLetter c = true -> isHangul c = true \/ isLatin c = true.
Proof.
  unfold isLetter, isHangul, isLatin.
  destruct (in_range 97 122 c), (in_range 65 90 c), (in_range 44032 55203 c);
    cbn; tauto.
Qed.

Lemma letters_le_total (text : jsstring) :
  matchCount isLetter text <= koreanChars text + latinChars text.
Proof.
  unfold koreanChars, latinChars, matchCount.
  induction text as [|c text IH]; [cbn; lia|].
  cbn [List.filter]. pose proof (isLetter_classifiable c) as Hc.
  destruct (isLetter c), (isHangul c), (isLatin c); cbn [length];
    first [lia | destruct Hc; [reflexivity|discriminate|discriminate]].
Qed.

(** ** Units *)

Lemma visit_Some (t : Text) (parent : option Element) (u : TextNodeInfo) :
  In u (visitTextNode t parent) ->
  exists e, parent = Some e
            /\ u = Spec.unitOf t e
            /\ Spec.passesFilters Spec.zeroWidthAndHeight t e = true.
Proof.
  destruct parent as [e|]; [|intros []].
  rewrite TextExtractorFacts.visitTextNode_Some.
  destruct (Spec.passesFilters _ t e) eqn:Hpass; [|intros []].
  intros [<-|[]]. by exists e.
Qed.

(** X3.  Every unit the extractor yields is built from a text node the
    call reaches below an element (never from one whose parent is a shadow
    root itself): it carries that node, the node's trimmed text and that
    element.  Its text has between 2 and 5000 code units, neither begins
    nor ends with white space, so that trimming it again changes nothing,
    and holds at least one code unit the language classifier counts. *)
Theorem extracted_unit_is_trimmed_and_classifiable (root : Root) (u : TextNodeInfo) :
  In u (extractTextNodes root) ->
  (exists t parent,
      In (t, Some parent) (reachedTexts root)
      /\ node u = textId t
      /\ originalText u = trim (textContent t)
      /\ parentElement u = parent)
  /\ MIN_TEXT_LENGTH <= length (originalText u) <= MAX_TEXT_LENGTH
  /\ (forall c, head (originalText u) = Some c \/ last (originalText u) = Some c ->
                isTrimmable c = false)
  /\ trim (originalText u) = originalText u
  /\ 0 < matchCount isLetter (originalText u)
  /\ 0 < total (originalText u).
Proof.
  rewrite TextExtractorFacts.extractTextNodes_reached, in_flat_map.
  intros [[t parent] [Hreached Hin]]. unfold TextExtractorFacts.visit in Hin.
  cbn [fst snd] in Hin. apply visit_Some in Hin as (e & -> & -> & Hpass).
  unfold Spec.unitOf. cbn [node originalText parentElement].
  unfold Spec.passesFilters, Spec.lengthInBounds, Spec.letterRatioAtLeast in Hpass.
  rewrite !andb_true_iff, !Nat.leb_le in Hpass.
  destruct Hpass as ((((_ & Hlo & Hhi) & _) & _) & Hratio).
  assert (Hlen : 2 <= length (trim (textContent t)) <= 5000) by lia.
  assert (Hletters : 0 < matchCount isLetter (trim (textContent t))) by lia.
  split; [exists t, e; repeat split; exact Hreached|]. split; [exact Hlen|].
  split; [apply trim_ends|]. split; [apply trim_idempotent|].
  split; [exact Hletters|].
  pose proof (letters_le_total (trim (textContent t))). unfold total. lia.
Qed.

Lemma flat_map_visit_sublist (l : list (Text * option Element)) :
  sublist (map node (flat_map TextExtractorFacts.visit l))
          (map (fun tp => textId (fst tp)) l).
Proof.
  induction l as [|[t parent] l IH]; [constructor|].
  cbn [flat_map map]. rewrite map_app.
  unfold TextExtractorFacts.visit at 1. cbn [fst snd].
  destruct parent as [e|]; [|by apply sublist_cons].
  rewrite TextExtractorFacts.visitTextNode_Some.
  destruct (Spec.passesFilters _ t e); [by apply sublist_skip|by apply sublist_cons].
Qed.

Lemma NoDup_map_inj {A B} (f : A -> B) (l : list A) (a b : A) :
  NoDup (map f l) -> In a l -> In b l -> f a = f b -> a = b.
Proof.
  induction l as [|x l IH]; [intros _ []|].
  cbn [map]. rewrite NoDup_cons. intros [Hx Hl] [->|Ha] [->|Hb] Heq;
    [reflexivity| | |by apply IH].
  - exfalso. apply Hx. rewrite Heq. apply list_elem_of_In. by apply in_map.
  - exfalso. apply Hx. rewrite <- Heq. apply list_elem_of_In. by apply in_map.
Qed.

(** X4.  The units come in the order in which the call reaches their text
    nodes, at most one per text node reached; with text nodes told apart
    by their identity no node is yielded twice, and a text node that is a
    direct child of a shadow root is never yielded. *)
Theorem extraction_keeps_order_without_duplicates (root : Root) :
  sublist (map node (extractTextNodes root))
          (map (fun tp => textId (fst tp)) (reachedTexts root))
  /\ (NoDup (map (fun tp => textId (fst tp)) (reachedTexts root)) ->
      NoDup (map node (extractTextNodes root))
      /\ forall t u, In (t, None) (reachedTexts root) ->
                     In u (extractTextNodes root) -> node u <> textId t).
Proof.
  assert (Hsub : sublist (map node (extractTextNodes root))
                         (map (fun tp => textId (fst tp)) (reachedTexts root))).
  { rewrite TextExtractorFacts.extractTextNodes_reached.
    apply flat_map_visit_sublist. }
  split; [exact Hsub|]. intros Hids. split.
  - exact (sublist_NoDup _ _ Hids Hsub).
  - intros t u Ht Hu Heq.
    rewrite TextExtractorFacts.extractTextNodes_reached, in_flat_map in Hu.
    destruct Hu as [[t' parent] [Hreached Hin]].
    unfold TextExtractorFacts.visit in Hin. cbn [fst snd] in Hin.
    apply visit_Some in Hin as (e & -> & -> & _).
    cbn [Spec.unitOf node] in Heq.
    pose proof (NoDup_map_inj (fun tp => textId (fst tp)) _ (t', Some e) (t, None)
                  Hids Hreached Ht Heq) as Hsame.
    discriminate.
Qed.

(** A shadow root holding a bare text node and a paragraph. *)
Definition bareText : Text := mkText 1 (ofString "  Plain text  ").
Definition wrappedText : Text := mkText 2 (ofString "  Wrapped text  ").
Definition shadowParagraph : Element :=
  mkElement 10 "P" false OtherElement (mkStyle "block" "visible" "1")
            (DOMRect.mk 0 0 100 20).
Definition shadowTree : Root :=
  ShadowRoot [TextNode bareText; ElementNode shadowParagraph [TextNode wrappedText] None].

Lemma extracted_unit_is_trimmed_and_classifiable_witness :
  extractTextNodes shadowTree
  = [mkTextNodeInfo 2 (ofString "Wrapped text") shadowParagraph]
  /\ trim (ofString "Wrapped text") = ofString "Wrapped text"
  /\ 0 < total (ofString "Wrapped text").
Proof.
  split; [reflexivity|].
  destruct (extracted_unit_is_trimmed_and_classifiable shadowTree
              (mkTextNodeInfo 2 (ofString "Wrapped text") shadowParagraph))
    as (_ & _ & _ & Htrim & _ & Htotal); [by left|].
  split; [exact Htrim|exact Htotal].
Defined.

Lemma extraction_keeps_order_without_duplicates_witness :
  NoDup (map node (extractTextNodes shadowTree))
  /\ (forall u, In u (extractTextNodes shadowTree) -> node u <> textId bareText).
Proof.
  destruct (extraction_keeps_order_without_duplicates shadowTree) as [_ Hnodup].
  destruct Hnodup as [Hunits Hbare].
  - vm_compute. repeat constructor; set_solver.
  - split; [exact Hunits|]. intros u. apply Hbare. by left.
Defined.

End ExtractionFacts.

(* ===================================================================== *)
(** * Viewport priority *)
(* ===================================================================== *)

Module ViewportFacts.

Import TextExtractor ContentScript.

Section Priority.

Variable win : Window.

Definition visible (n : TextNodeInfo) : bool := isInViewport win (parentElement n).

Definition cmp (a b : TextNodeInfo) : Z :=
  ((if isInViewport win (parentElement b) then 1 else 0)
   - (if isInViewport win (parentElement a) then 1 else 0))%Z.

Lemma insertBy_visible (a : TextNodeInfo) (l : list TextNodeInfo) :
  visible a = true -> insertBy cmp a l = a :: l.
Proof.
  unfold visible, cmp. intros Ha. destruct l as [|b l]; [reflexivity|].
  cbn [insertBy]. rewrite Ha.
  by destruct (isInViewport win (parentElement b)).
Qed.

Lemma insertBy_hidden (a : TextNodeInfo) (l1 l2 : list TextNodeInfo) :
  visible a = false ->
  Forall (fun b => visible b = true) l1 ->
  Forall (fun b => visible b = false) l2 ->
  insertBy cmp a (l1 ++ l2) = l1 ++ a :: l2.
Proof.
  unfold visible, cmp. intros Ha Hl1 Hl2.
  induction Hl1 as [|b l1 Hb _ IH].
  - destruct Hl2 as [|b l2 Hb _]; [reflexivity|].
    cbn [app insertBy]. by rewrite Ha, Hb.
  - cbn [app insertBy]. by rewrite Ha, Hb, IH.
Qed.

Lemma sortByViewport_partition (nodes : list TextNodeInfo) :
  sortByViewport win nodes
  = List.filter visible nodes ++ List.filter (fun n => negb (visible n)) nodes.
Proof.
  unfold sortByViewport, sort. fold cmp.
  induction nodes as [|a nodes IH]; [reflexivity|].
  cbn [foldr List.filter]. rewrite IH.
  destruct (visible a) eqn:Ha; cbn [negb].
  - by apply insertBy_visible.
  - apply insertBy_hidden; [exact Ha| |].
    + apply Forall_forall. intros b Hb. apply list_elem_of_In in Hb.
      by apply filter_In in Hb as [_ Hb].
    + apply Forall_forall. intros b Hb. apply list_elem_of_In in Hb.
      apply filter_In in Hb as [_ Hb]. by apply negb_true_iff.
Qed.

Lemma partition_Permutation {A} (p : A -> bool) (l : list A) :
  Permutation (List.filter p l ++ List.filter (fun a => negb (p a)) l) l.
Proof.
  induction l as [|a l IH]; [reflexivity|].
  cbn [List.filter]. destruct (p a); cbn [negb app].
  - by constructor.
  - rewrite <- Permutation_middle. by constructor.
Qed.

Context {C D : Type} `{!TranslationCache C} `{!DomTranslator D}.

(** X5.  Sorting by viewport is a stable partition: the units whose parent
    element intersects the viewport come first, the others after them,
    both in the order extraction gave; nothing is lost or repeated; and
    the scheduler's admission filter keeps that order, so that the first
    batches hold the admitted units in view. *)
Theorem sortByViewport_is_stable_partition (nodes : list TextNodeInfo) :
  sortByViewport win nodes
  = List.filter (fun n => isInViewport win (parentElement n)) nodes
    ++ List.filter (fun n => negb (isInViewport win (parentElement n))) nodes
  /\ Permutation (sortByViewport win nodes) nodes
  /\ forall st : State C D,
       newNodesOf st (sortByViewport win nodes)
       = List.filter (fun n => isInViewport win (parentElement n))
                     (newNodesOf st nodes)
         ++ List.filter (fun n => negb (isInViewport win (parentElement n)))
                        (newNodesOf st nodes).
Proof.
  split; [apply sortByViewport_partition|]. split.
  - rewrite sortByViewport_partition. apply partition_Permutation.
  - intros st. unfold newNodesOf.
    rewrite sortByViewport_partition, List.filter_app. unfold visible.
    f_equal; apply SchedulerFacts.filter_filter_comm.
Qed.

End Priority.

End ViewportFacts.

(* ===================================================================== *)
(** * The enabled flag *)
(* ===================================================================== *)

Module FlagFacts.

Import TextExtractor ContentScript SchedulerFacts.

Section WithCollaborators.

Context {C D : Type} `{!TranslationCache C} `{!DomTranslator D}.

Implicit Types (st : State C D).

Lemma settles_enabled (c : Call) st1 (st' : State C D) :
  Settles c st1 st' -> isEnabled st' = isEnabled st1.
Proof. by destruct 1. Qed.

Lemma respond_enabled call (response : option Response) st :
  isEnabled (respond call response st) = isEnabled st.
Proof.
  destruct (respond_shape call response st)
    as [[_ ->]|(c & c' & d' & effects & _ & _ & _ & Hsettles)]; [reflexivity|].
  by rewrite (settles_enabled _ _ _ Hsettles).
Qed.

Lemma reject_enabled call st : isEnabled (reject call st) = isEnabled st.
Proof.
  destruct (reject_shape call st) as [[_ ->]|(c & _ & Hcases)]; [reflexivity|].
  cbn zeta in Hcases. by destruct Hcases as [[_ ->]|(inv & _ & ->)].
Qed.

Lemma flush_enabled (nodesToProcess : list Root) st :
  isEnabled (flush nodesToProcess st) = isEnabled st.
Proof.
  unfold flush. revert st.
  induction nodesToProcess as [|node nodesToProcess IH]; intros st; [reflexivity|].
  cbn [foldl]. rewrite IH.
  destruct (0 <? length (extractTextNodes node)); [|reflexivity].
  apply translateNodesParallel_enabled.
Qed.

(** X6.  Only the three switches change the enabled flag: [enable()]
    leaves it set, [disable()] cleared, [toggle()] inverted, whatever the
    scheduler does on the way; a reply, a rejection, a timer flush and a
    change of settings leave it as it is. *)
Theorem only_switches_change_the_flag st (ev : Event) :
  isEnabled (step st ev)
  = match ev with
    | Enable _ _ => true
    | Disable => false
    | Toggle _ _ => negb (isEnabled st)
    | Flush _ | Respond _ _ | Reject _ | SettingsChanged _ _ => isEnabled st
    end.
Proof.
  destruct ev; cbn [step].
  - apply enable_on.
  - apply disable_off.
  - unfold toggle. destruct (isEnabled st) eqn:Hen;
      [apply disable_off|apply enable_on].
  - apply flush_enabled.
  - apply respond_enabled.
  - apply reject_enabled.
  - reflexivity.
Qed.

End WithCollaborators.

End FlagFacts.

(* ===================================================================== *)
(** * The in-flight set and the suspended invocations *)
(* ===================================================================== *)

Module InFlightFacts.

Import Constants TextExtractor ContentScript SchedulerFacts.

(** The set holds exactly the units of the suspended invocations, no two
    invocations share a unit, and every suspended invocation waits for a
    call. *)
Record AccountedOn (marks : gset nat) (invs : gmap nat Invocation) : Prop :=
  mkAccounted {
  marked : forall n, n ∈ marks
             <-> exists k inv, invs !! k = Some inv /\ n ∈ nodeSet (invNewNodes inv);
  apart : forall k1 k2 inv1 inv2, k1 <> k2 ->
            invs !! k1 = Some inv1 -> invs !! k2 = Some inv2 ->
            nodeSet (invNewNodes inv1) ## nodeSet (invNewNodes inv2);
  waiting : forall k inv, invs !! k = Some inv -> invPending inv <> []
}.

Lemma accounted_start marks invs k inv :
  AccountedOn marks invs -> invs !! k = None ->
  nodeSet (invNewNodes inv) ## marks -> invPending inv <> [] ->
  AccountedOn (nodeSet (invNewNodes inv) ∪ marks) (<[k := inv]> invs).
Proof.
  intros [Hmarked Hapart Hwaiting] Hfresh Hnew Hpending. split.
  - intros n. rewrite elem_of_union, Hmarked. split.
    + intros [Hn|(k' & inv' & Hk' & Hn)].
      * exists k, inv. by rewrite lookup_insert_eq.
      * exists k', inv'. rewrite lookup_insert_ne by congruence. done.
    + intros (k' & inv' & Hk' & Hn). destruct (decide (k' = k)) as [->|Hne].
      * rewrite lookup_insert_eq in Hk'. left. congruence.
      * rewrite lookup_insert_ne in Hk' by done. right. by exists k', inv'.
  - intros k1 k2 inv1 inv2 Hne H1 H2.
    assert (Hold : forall k' inv', invs !! k' = Some inv' ->
                     nodeSet (invNewNodes inv) ## nodeSet (invNewNodes inv')).
    { intros k' inv' Hk' n Hn Hn'. apply (Hnew n Hn). apply Hmarked. eauto. }
    destruct (decide (k1 = k)) as [->|Hne1]; destruct (decide (k2 = k)) as [->|Hne2];
      [done| | |].
    + rewrite lookup_insert_eq in H1. rewrite lookup_insert_ne in H2 by done.
      injection H1 as <-. exact (Hold _ _ H2).
    + rewrite lookup_insert_eq in H2. rewrite lookup_insert_ne in H1 by done.
      injection H2 as <-. symmetry. exact (Hold _ _ H1).
    + rewrite lookup_insert_ne in H1, H2 by done. exact (Hapart _ _ _ _ Hne H1 H2).
  - intros k' inv' Hk'. destruct (decide (k' = k)) as [->|Hne].
    + rewrite lookup_insert_eq in Hk'. congruence.
    + rewrite lookup_insert_ne in Hk' by done. exact (Hwaiting _ _ Hk').
Qed.

Lemma accounted_update marks invs k inv inv' :
  AccountedOn marks invs -> invs !! k = Some inv ->
  invNewNodes inv' = invNewNodes inv -> invPending inv' <> [] ->
  AccountedOn marks (<[k := inv']> invs).
Proof.
  intros [Hmarked Hapart Hwaiting] Hk Hsame Hpending.
  assert (Hlookup : forall k' i', <[k := inv']> invs !! k' = Some i' ->
            exists i, invs !! k' = Some i /\ invNewNodes i' = invNewNodes i
                      /\ invPending i' <> []).
  { intros k' i' Hk'. destruct (decide (k' = k)) as [->|Hne].
    - rewrite lookup_insert_eq in Hk'. injection Hk' as <-. by exists inv.
    - rewrite lookup_insert_ne in Hk' by done. exists i'. eauto. }
  split.
  - intros n. rewrite Hmarked. split.
    + intros (k' & i & Hk' & Hn). destruct (decide (k' = k)) as [->|Hne].
      * exists k, inv'. rewrite lookup_insert_eq. split; [done|].
        rewrite Hsame. congruence.
      * exists k', i. by rewrite lookup_insert_ne.
    + intros (k' & i' & Hk' & Hn).
      destruct (Hlookup _ _ Hk') as (i & Hi & Hnodes & _).
      exists k', i. by rewrite <- Hnodes.
  - intros k1 k2 inv1 inv2 Hne H1 H2.
    destruct (Hlookup _ _ H1) as (i1 & Hi1 & -> & _).
    destruct (Hlookup _ _ H2) as (i2 & Hi2 & -> & _).
    exact (Hapart _ _ _ _ Hne Hi1 Hi2).
  - intros k' i' Hk'. by destruct (Hlookup _ _ Hk') as (_ & _ & _ & ?).
Qed.

Lemma accounted_finish marks invs k inv :
  AccountedOn marks invs -> invs !! k = Some inv ->
  AccountedOn (marks ∖ nodeSet (invNewNodes inv)) (delete k invs).
Proof.
  intros [Hmarked Hapart Hwaiting] Hk. split.
  - intros n. rewrite elem_of_difference, Hmarked. split.
    + intros [(k' & inv' & Hk' & Hn) Hout]. exists k', inv'. split; [|done].
      rewrite lookup_delete_ne; [done|]. intros ->. congruence.
    + intros (k' & inv' & Hk' & Hn). destruct (decide (k' = k)) as [->|Hne].
      * by rewrite lookup_delete_eq in Hk'.
      * rewrite lookup_delete_ne in Hk' by done. split; [eauto|].
        intros Hin. by apply (Hapart k' k inv' inv Hne Hk' Hk n).
  - intros k1 k2 inv1 inv2 Hne H1 H2.
    apply lookup_delete_Some in H1 as [_ H1]. apply lookup_delete_Some in H2 as [_ H2].
    exact (Hapart _ _ _ _ Hne H1 H2).
  - intros k' inv' Hk'. apply lookup_delete_Some in Hk' as [_ Hk'].
    exact (Hwaiting _ _ Hk').
Qed.

Section WithCollaborators.

Context {C D : Type} `{!TranslationCache C} `{!DomTranslator D}.

Implicit Types (st : State C D).

Definition Accounted st : Prop := AccountedOn (translatingNodes st) (suspended st).

Lemma newNodes_unmarked st (textNodes : list TextNodeInfo) :
  nodeSet (newNodesOf st textNodes) ## translatingNodes st.
Proof.
  intros n Hn Hmarked. unfold nodeSet in Hn.
  apply elem_of_list_to_set, list_elem_of_fmap in Hn as (u & -> & Hu).
  apply list_elem_of_In, newNodesOf_In in Hu. tauto.
Qed.

Lemma seq_nonempty (first len : nat) : 0 < len -> seq first len <> [].
Proof. destruct len; [lia|discriminate]. Qed.

Lemma translateNodesParallel_accounted (textNodes : list TextNodeInfo) st :
  Windowed st -> Accounted st -> Accounted (translateNodesParallel textNodes st).
Proof.
  intros Hwin Hst. pose proof (newNodes_unmarked st textNodes) as Hnew.
  destruct (translateNodesParallel_shape textNodes st)
    as [|split c' d' applied st' _ _ _ [[_ ->]|[Hunc ->]]]; [done| |].
  - unfold Accounted, completedAtOnce. cbn [translatingNodes suspended].
    replace ((nodeSet (newNodesOf st textNodes) ∪ translatingNodes st)
               ∖ nodeSet (newNodesOf st textNodes))
      with (translatingNodes st) by set_solver.
    exact Hst.
  - unfold Accounted, suspendedAtFirstWindow. cbn [translatingNodes suspended].
    apply (accounted_start _ _ (nextId st)
             (mkInvocation (newNodesOf st textNodes) _ 0 _)); [exact Hst| |exact Hnew|].
    + destruct (suspended st !! nextId st) as [inv|] eqn:Hk; [|reflexivity].
      destruct (in_window _ _ _ Hwin _ _ Hk). lia.
    + cbn [invPending]. apply seq_nonempty. rewrite BatchFacts.slice_length.
      pose proof (makeBatches_nonempty (newNodesOf st textNodes) _ Hunc).
      unfold MAX_CONCURRENT_REQUESTS. lia.
Qed.

Lemma settles_accounted (c : Call) st1 (st' : State C D) :
  Settles c st1 st' -> Accounted st1 -> Accounted st'.
Proof.
  intros Hsettles Hst. unfold Accounted in *.
  destruct Hsettles as [Hnone|inv Hinv Hpending|inv Hinv Hpending Hmore|inv Hinv];
    cbn [translatingNodes suspended setSuspended].
  - exact Hst.
  - by apply (accounted_update _ _ _ inv).
  - rewrite insert_delete_eq. apply (accounted_update _ _ _ inv); [done..|].
    cbn [invPending]. apply seq_nonempty. unfold currentWindow, nextWindow.
    cbn [invI invBatches]. rewrite BatchFacts.slice_length.
    unfold MAX_CONCURRENT_REQUESTS in *. lia.
  - by apply accounted_finish.
Qed.

Lemma respond_accounted call (response : option Response) st :
  Accounted st -> Accounted (respond call response st).
Proof.
  intros Hst.
  destruct (respond_shape call response st)
    as [[_ ->]|(c & c' & d' & effects & _ & _ & _ & Hsettles)]; [done|].
  by apply (settles_accounted _ _ _ Hsettles).
Qed.

Lemma reject_accounted call st : Accounted st -> Accounted (reject call st).
Proof.
  intros Hst.
  destruct (reject_shape call st) as [[_ ->]|(c & _ & Hcases)]; [done|].
  cbn zeta in Hcases. destruct Hcases as [[_ ->]|(inv & Hinv & ->)]; [done|].
  unfold Accounted. cbn [translatingNodes suspended continued].
  by apply accounted_finish.
Qed.

Lemma flush_accounted (nodesToProcess : list Root) st :
  Windowed st -> Accounted st -> Accounted (flush nodesToProcess st).
Proof.
  unfold flush. revert st.
  induction nodesToProcess as [|root roots IH]; intros st Hwin Hst; [done|].
  cbn [foldl]. destruct (0 <? length (extractTextNodes root)); [|by apply IH].
  apply IH; [by apply translateNodesParallel_windowed
            |by apply translateNodesParallel_accounted].
Qed.

Lemma enable_accounted (body : Root) (win : Window) st :
  Windowed st -> Accounted st -> Accounted (enable body win st).
Proof.
  intros Hwin Hst. unfold enable, translateVisibleContent.
  destruct (isEnabled st); [done|].
  destruct (length (extractTextNodes body) =? 0); [done|].
  by apply translateNodesParallel_accounted.
Qed.

Lemma disable_accounted st : Accounted st -> Accounted (disable st).
Proof. intros Hst. unfold disable. by destruct (isEnabled st). Qed.

Lemma step_accounted st (ev : Event) :
  Windowed st -> Accounted st -> Accounted (step st ev).
Proof.
  intros Hwin Hst. destruct ev; cbn [step].
  - by apply enable_accounted.
  - by apply disable_accounted.
  - unfold toggle. destruct (isEnabled st);
      [by apply disable_accounted|by apply enable_accounted].
  - by apply flush_accounted.
  - by apply respond_accounted.
  - by apply reject_accounted.
  - exact Hst.
Qed.

Lemma run_accounted st (evs : list Event) :
  Windowed st -> Accounted st -> Accounted (run st evs).
Proof.
  unfold run. revert st. induction evs as [|ev evs IH]; intros st Hwin Hst; [done|].
  cbn [foldl]. apply IH; [by apply step_windowed|by apply step_accounted].
Qed.

Lemma initial_accounted (src tgt : LanguageCode) (c : C) (d : D) :
  Accounted (initial src tgt c d).
Proof.
  split; cbn.
  - intros n. split; [set_solver|]. intros (k & inv & Hk & _).
    by rewrite lookup_empty in Hk.
  - intros k1 k2 inv1 inv2 _ Hk. by rewrite lookup_empty in Hk.
  - intros k inv Hk. by rewrite lookup_empty in Hk.
Qed.

(** X7.  In every state the page-side agent reaches, a text node is in
    the in-flight set exactly when it is a unit of an invocation of the
    scheduler that is suspended at its window; no two suspended
    invocations share a unit; every suspended invocation waits for a call
    that is still outstanding; hence once every call has settled no
    invocation is suspended and the in-flight set is empty: no text node
    stays marked for good, whatever the replies and rejections were. *)
Theorem in_flight_set_is_the_suspended_units
    (src tgt : LanguageCode) (c : C) (d : D) (evs : list Event) :
  let st := run (initial src tgt c d) evs in
  (forall n, n ∈ translatingNodes st
     <-> exists k inv, suspended st !! k = Some inv
                       /\ In n (map node (invNewNodes inv)))
  /\ (forall k1 k2 inv1 inv2 n, k1 <> k2 ->
        suspended st !! k1 = Some inv1 -> suspended st !! k2 = Some inv2 ->
        In n (map node (invNewNodes inv1)) -> ~ In n (map node (invNewNodes inv2)))
  /\ (forall k inv, suspended st !! k = Some inv ->
        exists call, In call (invPending inv)
                     /\ In call (map callId (outstanding st)))
  /\ (outstanding st = [] -> suspended st = ∅ /\ translatingNodes st = ∅).
Proof.
  cbn zeta. set (st := run (initial src tgt c d) evs).
  assert (Hwin : Windowed st) by apply run_windowed, initial_windowed.
  assert (Hst : Accounted st)
    by (apply run_accounted; [apply initial_windowed|apply initial_accounted]).
  destruct Hst as [Hmarked Hapart Hwaiting].
  assert (Hcall : forall k inv, suspended st !! k = Some inv ->
            exists call, In call (invPending inv)
                         /\ In call (map callId (outstanding st))).
  { intros k inv Hk. destruct (in_window _ _ _ Hwin _ _ Hk) as (_ & Hids & _).
    specialize (Hwaiting _ _ Hk).
    destruct (invPending inv) as [|call rest] eqn:Hpending; [done|].
    exists call. split; [by left|].
    assert (Hin : In call (map callId (callsOf k (outstanding st))))
      by (rewrite Hids; by left).
    apply in_map_iff in Hin as (x & <- & Hx). apply in_map.
    unfold callsOf in Hx. by apply filter_In in Hx as [Hx _]. }
  assert (Hset : forall n ns, n ∈ nodeSet ns <-> In n (map node ns)).
  { intros n ns. unfold nodeSet. by rewrite elem_of_list_to_set, list_elem_of_In. }
  split; [|split; [|split; [exact Hcall|]]].
  - intros n. rewrite Hmarked. by setoid_rewrite Hset.
  - intros k1 k2 inv1 inv2 n Hne H1 H2 Hn1 Hn2.
    apply (Hapart _ _ _ _ Hne H1 H2 n); by apply Hset.
  - intros Hnone.
    assert (Hempty : suspended st = ∅).
    { apply map_empty. intros k. destruct (suspended st !! k) as [inv|] eqn:Hk;
        [|reflexivity].
      destruct (Hcall _ _ Hk) as (call & _ & Hin). rewrite Hnone in Hin.
      destruct Hin. }
    split; [exact Hempty|]. apply set_eq. intros n. rewrite Hmarked. split.
    + intros (k & inv & Hk & _). rewrite Hempty, lookup_empty in Hk. discriminate.
    + set_solver.
Qed.

End WithCollaborators.

(** One paragraph: after [enable()] its text node is in flight, and once
    the reply to the only call is in, nothing is. *)
Lemma in_flight_set_is_the_suspended_units_witness :
  translatingNodes
    (run (initial en ko [] (Runs.helloPage 1))
         [Enable (Runs.helloBody 1) Runs.window; Respond 1 Runs.translatedOne])
  = ∅.
Proof.
  destruct (in_flight_set_is_the_suspended_units en ko [] (Runs.helloPage 1)
              [Enable (Runs.helloBody 1) Runs.window; Respond 1 Runs.translatedOne])
    as (_ & _ & _ & Hsettled).
  apply Hsettled. vm_compute. reflexivity.
Defined.

End InFlightFacts.

(* ===================================================================== *)
(** * What the enabled flag does not gate *)
(* ===================================================================== *)

Module WorkFacts.

Import Constants TextExtractor ContentScript SchedulerFacts.

(** The effects on the document: the calls of the applier. *)
Definition isDocumentEffect (e : Effect) : bool :=
  match e with
  | ApplyTranslations _ _ | RestoreOriginal => true
  | _ => false
  end.

Definition offDocument (effects : list Effect) : list Effect :=
  List.filter (fun e => negb (isDocumentEffect e)) effects.

(** The tasks that are not a call of [enable], [disable] or [toggle]. *)
Definition passive (ev : Event) : bool :=
  match ev with
  | Flush _ | Respond _ _ | Reject _ | SettingsChanged _ _ => true
  | Enable _ _ | Disable | Toggle _ _ => false
  end.

Section WithCollaborators.

Context {C D : Type} `{!TranslationCache C} `{!DomTranslator D}.

Implicit Types (st : State C D).

(** Everything in a state but the flag, the document and the calls of
    the applier. *)
Definition work st :=
  (settings st, translatingNodes st, cache st, outstanding st, suspended st,
   nextId st, offDocument (trace st)).

Ltac same_work H :=
  unfold work, offDocument, emit, setEnabled, setSettings, setTranslatingNodes,
    setCache, setDocument, setOutstanding, setSuspended, setNextId in *;
  cbn [settings translatingNodes cache outstanding suspended nextId trace
       isEnabled document] in *;
  injection H as ? ? ? ? ? ? ?;
  rewrite ?List.filter_app; congruence.

Lemma offDocument_map {A} (f : A -> Effect) (l : list A) :
  (forall a, isDocumentEffect (f a) = false) ->
  offDocument (map f l) = map f l.
Proof.
  intros Hf. unfold offDocument. induction l as [|a l IH]; [reflexivity|].
  cbn [map List.filter]. by rewrite Hf, IH.
Qed.

Lemma addAll_work (ns : list TextNodeInfo) st1 st2 :
  work st1 = work st2 ->
  work (foldl (fun st n => inFlightAdd (node n) st) st1 ns)
  = work (foldl (fun st n => inFlightAdd (node n) st) st2 ns).
Proof. intros H. rewrite !addAll_eq. same_work H. Qed.

Lemma finallyBlock_work (ns : list TextNodeInfo) st1 st2 :
  work st1 = work st2 -> work (finallyBlock ns st1) = work (finallyBlock ns st2).
Proof. intros H. rewrite !finallyBlock_eq. same_work H. Qed.

Lemma windowLoop_work k inv st1 st2 :
  work st1 = work st2 -> work (windowLoop k inv st1) = work (windowLoop k inv st2).
Proof.
  intros H. unfold windowLoop.
  destruct (invI inv <? length (invBatches inv)); [|by apply finallyBlock_work].
  rewrite !launch_eq. unfold setSuspended. same_work H.
Qed.

Lemma cacheGetMultiple_work (texts : list jsstring) st1 st2 :
  work st1 = work st2 ->
  fst (cacheGetMultiple texts st1) = fst (cacheGetMultiple texts st2)
  /\ work (snd (cacheGetMultiple texts st1)) = work (snd (cacheGetMultiple texts st2)).
Proof.
  intros H. unfold cacheGetMultiple, stSourceLang, stTargetLang.
  assert (Hs : settings st1 = settings st2) by (unfold work in H; congruence).
  assert (Hc : cache st1 = cache st2) by (unfold work in H; congruence).
  rewrite Hs, Hc. destruct (getMultiple _ _ _ _) as [split c'].
  split; [reflexivity|]. unfold emit, setCache. cbn [fst snd]. same_work H.
Qed.

Lemma applyCached_work (newNodes : list TextNodeInfo) (texts : list jsstring)
    (cached : list (nat * jsstring)) st :
  work (applyCached newNodes texts cached st) = work st.
Proof.
  unfold applyCached. destruct (0 <? length cached); [|reflexivity].
  destruct (isEnabled st); [|reflexivity].
  unfold work, offDocument, domApply, emit, setDocument. cbn.
  by rewrite List.filter_app, app_nil_r.
Qed.

Lemma admits_work st1 st2 (n : TextNodeInfo) :
  work st1 = work st2 -> admits st1 n = admits st2 n.
Proof.
  intros H. unfold admits, stSourceLang.
  assert (Hs : settings st1 = settings st2) by (unfold work in H; congruence).
  assert (Ht : translatingNodes st1 = translatingNodes st2)
    by (unfold work in H; congruence).
  by rewrite Hs, Ht.
Qed.

Lemma setNextId_work n st1 st2 :
  work st1 = work st2 -> work (setNextId n st1) = work (setNextId n st2).
Proof. intros H. unfold setNextId. same_work H. Qed.

Lemma translateNodesParallel_work (textNodes : list TextNodeInfo) st1 st2 :
  work st1 = work st2 ->
  work (translateNodesParallel textNodes st1)
  = work (translateNodesParallel textNodes st2).
Proof.
  intros H. unfold translateNodesParallel.
  rewrite (List.filter_ext (admits st1) (admits st2))
    by (intros n; by apply admits_work).
  set (newNodes := List.filter (admits st2) textNodes).
  destruct (length newNodes =? 0); [exact H|].
  pose proof (addAll_work newNodes _ _ H) as Hadded.
  destruct (cacheGetMultiple_work (map originalText newNodes) _ _ Hadded)
    as [Hsplit Hlooked].
  destruct (cacheGetMultiple _ (foldl _ st1 newNodes)) as [split1 s1].
  destruct (cacheGetMultiple _ (foldl _ st2 newNodes)) as [split2 s2].
  cbn [fst snd] in Hsplit, Hlooked. subst split2.
  assert (Happlied :
    work (applyCached newNodes (map originalText newNodes) (cached split1) s1)
    = work (applyCached newNodes (map originalText newNodes) (cached split1) s2))
    by (by rewrite !applyCached_work).
  destruct (0 <? length (uncached split1)); [|by apply finallyBlock_work].
  replace (nextId (applyCached newNodes (map originalText newNodes) (cached split1) s1))
    with (nextId (applyCached newNodes (map originalText newNodes) (cached split1) s2))
    by (unfold work in Happlied; congruence).
  by apply windowLoop_work, setNextId_work.
Qed.

Lemma storeAll_cache (results : list TranslatedText) st :
  cache (foldl (fun st result => cacheStore result st) st results)
  = foldl (fun c r => cacheSet (original r) (translated r)
                               (stSourceLang st) (stTargetLang st) c)
          (cache st) results.
Proof.
  revert st. induction results as [|r results IH]; intros st; [reflexivity|].
  cbn [foldl]. by rewrite IH.
Qed.

Lemma storeAll_work (results : list TranslatedText) st1 st2 :
  work st1 = work st2 ->
  work (foldl (fun st result => cacheStore result st) st1 results)
  = work (foldl (fun st result => cacheStore result st) st2 results).
Proof.
  intros H.
  assert (Hs : settings st1 = settings st2) by (unfold work in H; congruence).
  assert (Hc : cache st1 = cache st2) by (unfold work in H; congruence).
  pose proof (storeAll_cache results st1) as Hc1.
  pose proof (storeAll_cache results st2) as Hc2.
  unfold stSourceLang, stTargetLang in Hc1, Hc2. rewrite Hs, Hc in Hc1.
  rewrite (storeAll_eq results st1), (storeAll_eq results st2).
  unfold work. cbn [settings translatingNodes cache outstanding suspended nextId trace].
  rewrite Hc1, Hc2, Hs. unfold work in H. unfold offDocument in *.
  injection H as ? ? ? ? ? ? ?. rewrite !List.filter_app. congruence.
Qed.

Lemma domApply_work (units : list (option TextNodeInfo))
    (results : list TranslatedText) st :
  work (domApply units results st) = work st.
Proof.
  unfold work, offDocument, domApply, emit, setDocument. cbn.
  by rewrite List.filter_app, app_nil_r.
Qed.

Lemma translateBatchResume_work (batch : Batch) (response : option Response) st1 st2 :
  work st1 = work st2 ->
  work (translateBatchResume batch response st1)
  = work (translateBatchResume batch response st2).
Proof.
  intros H. unfold translateBatchResume.
  destruct response as [r|]; [|exact H].
  destruct (success r); [|exact H].
  destruct (data r) as [results|]; [|exact H].
  pose proof (storeAll_work results _ _ H) as Hstored.
  destruct (isEnabled (foldl _ st1 results)), (isEnabled (foldl _ st2 results));
    by rewrite ?domApply_work.
Qed.

Lemma fulfilled_work (c : Call) st1 st2 :
  work st1 = work st2 -> work (fulfilled c st1) = work (fulfilled c st2).
Proof.
  intros H. unfold fulfilled.
  assert (Hs : suspended st1 = suspended st2) by (unfold work in H; congruence).
  rewrite Hs. destruct (suspended st2 !! callInvocation c) as [inv|]; [|exact H].
  destruct (length _ =? 0).
  - apply windowLoop_work. unfold setSuspended. same_work H.
  - unfold setSuspended. same_work H.
Qed.

Lemma setOutstanding_work (calls : list Call) st1 st2 :
  work st1 = work st2 ->
  work (setOutstanding calls st1) = work (setOutstanding calls st2).
Proof. intros H. unfold setOutstanding. same_work H. Qed.

Lemma respond_work call (response : option Response) st1 st2 :
  work st1 = work st2 ->
  work (respond call response st1) = work (respond call response st2).
Proof.
  intros H. unfold respond.
  assert (Ho : outstanding st1 = outstanding st2) by (unfold work in H; congruence).
  rewrite Ho. destruct (findCall call (outstanding st2)) as [c|]; [|exact H].
  by apply fulfilled_work, translateBatchResume_work, setOutstanding_work.
Qed.

Lemma reject_work call st1 st2 :
  work st1 = work st2 -> work (reject call st1) = work (reject call st2).
Proof.
  intros H. unfold reject.
  assert (Ho : outstanding st1 = outstanding st2) by (unfold work in H; congruence).
  assert (Hs : suspended st1 = suspended st2) by (unfold work in H; congruence).
  rewrite Ho. destruct (findCall call (outstanding st2)) as [c|]; [|exact H].
  cbn [suspended setOutstanding]. rewrite Hs.
  destruct (suspended st2 !! callInvocation c) as [inv|].
  - apply finallyBlock_work. unfold setSuspended. same_work H.
  - same_work H.
Qed.

Lemma flush_work (nodesToProcess : list Root) st1 st2 :
  work st1 = work st2 ->
  work (flush nodesToProcess st1) = work (flush nodesToProcess st2).
Proof.
  unfold flush. revert st1 st2.
  induction nodesToProcess as [|root roots IH]; intros st1 st2 H; [exact H|].
  cbn [foldl]. apply IH.
  destruct (0 <? length (extractTextNodes root)); [|exact H].
  by apply translateNodesParallel_work.
Qed.

Lemma step_work (ev : Event) st1 st2 :
  passive ev = true -> work st1 = work st2 -> work (step st1 ev) = work (step st2 ev).
Proof.
  intros Hev H. destruct ev; try discriminate; cbn [step].
  - by apply flush_work.
  - by apply respond_work.
  - by apply reject_work.
  - unfold settingsChanged, setSettings. same_work H.
Qed.

Lemma run_work (evs : list Event) st1 st2 :
  forallb passive evs = true -> work st1 = work st2 ->
  work (run st1 evs) = work (run st2 evs).
Proof.
  unfold run. revert st1 st2.
  induction evs as [|ev evs IH]; intros st1 st2 Hevs H; [exact H|].
  cbn [forallb] in Hevs. apply andb_prop in Hevs as [Hev Hevs].
  cbn [foldl]. apply IH; [exact Hevs|]. by apply step_work.
Qed.

Lemma disable_work st : work (disable st) = work st.
Proof.
  unfold disable. destruct (isEnabled st); [|reflexivity].
  unfold work, offDocument, domRestore, emit, setDocument, setEnabled. cbn.
  by rewrite List.filter_app, app_nil_r.
Qed.

Lemma sends_offDocument (effects : list Effect) :
  List.filter isSend (offDocument effects) = List.filter isSend effects.
Proof.
  unfold offDocument. induction effects as [|e effects IH]; [reflexivity|].
  cbn [List.filter]. destruct e; cbn; by rewrite IH.
Qed.

(** X8.  The enabled flag gates the writes to the document and nothing
    else.  Two states that differ only in the flag, the document and the
    applier's calls still differ only there after any sequence of
    replies, rejections, timer flushes and changes of settings; so
    [disable()] cancels nothing: from then on, until the next switch, the
    agent sends the very same translation messages, launches the same
    windows, fills the cache with the same entries and marks the same
    text nodes as if [disable()] had not been called. *)
Theorem disable_cancels_no_work st (evs : list Event) :
  forallb passive evs = true ->
  let off := run (disable st) evs in
  let on := run st evs in
  List.filter isSend (trace off) = List.filter isSend (trace on)
  /\ offDocument (trace off) = offDocument (trace on)
  /\ outstanding off = outstanding on
  /\ suspended off = suspended on
  /\ cache off = cache on
  /\ translatingNodes off = translatingNodes on
  /\ settings off = settings on
  /\ nextId off = nextId on.
Proof.
  intros Hevs. cbn zeta.
  pose proof (run_work evs _ _ Hevs (disable_work st)) as H.
  unfold work in H. injection H as Hsettings Hmarks Hcache Hcalls Hinvs Hnext Htrace.
  split; [|by repeat split].
  by rewrite <- (sends_offDocument (trace (run (disable st) evs))), Htrace,
       sends_offDocument.
Qed.

(** ** What a reply does to the cache and to the document *)

Lemma settles_keeps (c : Call) st1 (st' : State C D) :
  Settles c st1 st' -> cache st' = cache st1 /\ document st' = document st1.
Proof. by destruct 1. Qed.

(** X9.  The reply to an outstanding call.  A successful reply with data
    stores every pair it returns in the cache, in order, under the
    language pair configured when the reply arrives (not the pair the
    texts were sent with), whether or not the pipeline is enabled; and,
    only while the pipeline is enabled, hands the results to the applier
    together with the nodes of the call's batch.  Any other reply (none,
    a failure, a success without data) leaves both the cache and the
    document as they are. *)
Theorem reply_is_cached_under_current_settings
    call (c : Call) (response : option Response) st :
  findCall call (outstanding st) = Some c ->
  let st' := respond call response st in
  match response with
  | Some {| success := true; data := Some results |} =>
      cache st'
      = foldl (fun table r => cacheSet (original r) (translated r)
                                       (stSourceLang st) (stTargetLang st) table)
              (cache st) results
      /\ document st'
         = if isEnabled st
           then applyTranslations (nodes (callBatch c)) results (document st)
           else document st
  | _ => cache st' = cache st /\ document st' = document st
  end.
Proof.
  intros Hfind. cbn zeta. unfold respond. rewrite Hfind.
  match goal with
  | |- context [fulfilled c ?s] =>
      destruct (settles_keeps c s _ (fulfilled_settles c s)) as [Hcache Hdoc]
  end.
  unfold translateBatchResume in *.
  destruct response as [[[] [results|] err]|]; rewrite Hcache, Hdoc;
    cbn [success data]; try (split; reflexivity).
  clear Hcache Hdoc.
  set (s0 := setOutstanding (removeCall call (outstanding st)) st).
  pose proof (storeAll_cache results s0) as Hstored.
  pose proof (storeAll_eq results s0) as Heq. cbn zeta in Heq.
  remember (foldl (fun st result => cacheStore result st) s0 results) as s1 eqn:Hs1.
  clear Hs1.
  assert (Hen : isEnabled s1 = isEnabled st) by (rewrite Heq; reflexivity).
  assert (Hd : document s1 = document st) by (rewrite Heq; reflexivity).
  rewrite Hen. destruct (isEnabled st); cbn [cache document domApply emit setDocument];
    rewrite ?Hd, Hstored; split; reflexivity.
Qed.

End WithCollaborators.

Import Runs.

Lemma disable_cancels_no_work_witness :
  cache (run (disable oneInFlight) [Respond 1 translatedOne])
  = cache (run oneInFlight [Respond 1 translatedOne])
  /\ cache (run oneInFlight [Respond 1 translatedOne])
     = [Page.mkEntry (helloText 1) en ko annyeong].
Proof.
  split; [|vm_compute; reflexivity].
  destruct (disable_cancels_no_work oneInFlight [Respond 1 translatedOne] eq_refl)
    as (_ & _ & _ & _ & Hcache & _).
  exact Hcache.
Defined.

(** The text is sent from English to Korean; the target language is set
    to Japanese before the reply is in; the Korean translation is then
    cached as the Japanese one. *)
Lemma reply_is_cached_under_current_settings_witness :
  cache (respond 1 translatedOne (settingsChanged en ja oneInFlight))
  = [Page.mkEntry (helloText 1) en ja annyeong].
Proof.
  assert (Hfind : findCall 1 (outstanding (settingsChanged en ja oneInFlight))
                  = Some (mkCall 1 0 (mkBatch [mkUncached 0 (helloText 1)]
                                        [Some (mkTextNodeInfo 1 (helloText 1)
                                                 (paragraph 101))])))
    by (vm_compute; reflexivity).
  destruct (reply_is_cached_under_current_settings 1 _ translatedOne _ Hfind)
    as [Hcache _].
  rewrite Hcache. vm_compute. reflexivity.
Defined.

End WorkFacts.

(* ===================================================================== *)
(** * The messages the scheduler sends *)
(* ===================================================================== *)

Module MessageFacts.

Import Constants TextExtractor ContentScript SchedulerFacts.

(** A batch holds between one and [MAX_TEXTS_PER_REQUEST] texts, and its
    nodes are, position by position, units whose text is the text sent. *)
Definition wellFormed (b : Batch) : Prop :=
  1 <= length (batchTexts b) <= MAX_TEXTS_PER_REQUEST
  /\ map (fmap originalText) (nodes b) = map Some (batchTexts b).

Lemma newCalls_sent k first langs (batches : list Batch) (c : Call) :
  In c (newCalls k first batches) ->
  In (callBatch c) batches
  /\ In (SendMessage (callInvocation c) (callId c) (batchTexts (callBatch c)) langs)
        (newMessages k first langs batches).
Proof.
  unfold newCalls, newMessages. intros Hin.
  apply list_elem_of_In, list_elem_of_lookup in Hin as [i Hi].
  rewrite list_lookup_imap in Hi.
  destruct (batches !! i) as [b|] eqn:Hb; [|discriminate].
  injection Hi as <-. cbn [callBatch callInvocation callId]. split.
  - apply list_elem_of_In. by eapply list_elem_of_lookup_2.
  - apply list_elem_of_In. apply (list_elem_of_lookup_2 _ i).
    by rewrite list_lookup_imap, Hb.
Qed.

Section WithCollaborators.

Context {C D : Type} `{!TranslationCache C} `{!DomTranslator D}.

Implicit Types (st : State C D).

Lemma makeBatches_wellFormed (newNodes : list TextNodeInfo) (src tgt : LanguageCode)
    (c c' : C) (split : CacheSplit) (b : Batch) :
  getMultiple (map originalText newNodes) src tgt c = (split, c') ->
  In b (makeBatches newNodes (uncached split)) -> wellFormed b.
Proof.
  intros Hget Hb. unfold wellFormed, batchTexts.
  pose proof (BatchFacts.batchLoop_sizes newNodes (uncached split) 0) as Hsizes.
  pose proof (BatchFacts.batchLoop_nodes newNodes (uncached split) 0) as Hnodes.
  rewrite Forall_forall in Hsizes, Hnodes.
  apply list_elem_of_In in Hb. specialize (Hsizes b Hb). specialize (Hnodes b Hb).
  apply list_elem_of_In in Hb.
  split; [by rewrite length_map|]. rewrite Hnodes, !map_map.
  apply map_ext_in. intros u Hu.
  pose proof (makeBatches_In _ _ _ _ Hb Hu) as Huncached.
  pose proof (getMultiple_uncached _ _ _ _ _ _ _ Hget Huncached) as Hlookup.
  by rewrite list_lookup_fmap in Hlookup.
Qed.

(** Every pending call carries a well-formed batch whose texts are the
    ones sent for it; every batch of a suspended invocation is well
    formed; and so is every message sent. *)
Record Posted st : Prop := mkPosted {
  calls_posted : forall c, In c (outstanding st) ->
      wellFormed (callBatch c)
      /\ exists langs,
           In (SendMessage (callInvocation c) (callId c)
                           (batchTexts (callBatch c)) langs) (trace st);
  batches_posted : forall k inv, suspended st !! k = Some inv ->
      forall b, In b (invBatches inv) -> wellFormed b;
  sent_posted : forall k call texts langs,
      In (SendMessage k call texts langs) (trace st) ->
      exists b, wellFormed b /\ texts = batchTexts b
}.

Lemma translateNodesParallel_posted (textNodes : list TextNodeInfo) st :
  Posted st -> Posted (translateNodesParallel textNodes st).
Proof.
  intros [Hcalls Hbatches Hsent].
  destruct (translateNodesParallel_shape textNodes st)
    as [|split c' d' applied st' _ Hget Happlied Hst']; [done|].
  assert (Hquiet : forall k call texts langs,
             ~ In (SendMessage k call texts langs) applied).
  { intros k call texts langs Hin.
    destruct Happlied as [[_ ->]|[_ (units & results & _ & ->)]];
      [destruct Hin|by destruct Hin]. }
  pose proof (fun b => makeBatches_wellFormed _ _ _ _ _ _ b Hget) as Hnew.
  destruct Hst' as [[_ ->]|[_ ->]];
    unfold completedAtOnce, suspendedAtFirstWindow; split;
    cbn [outstanding suspended trace]; try done.
  - intros c Hc. destruct (Hcalls c Hc) as [Hwf [langs Hin]].
    split; [exact Hwf|]. exists langs. apply in_or_app. by left.
  - intros k call texts langs Hin.
    rewrite !in_app_iff in Hin. cbn [In] in Hin. rewrite !in_app_iff in Hin.
    destruct Hin as [Hin|[Hin|[Hin|[Hin|Hin]]]]; try discriminate.
    + by eapply Hsent.
    + apply in_map_iff in Hin as [? [? _]]. discriminate.
    + by destruct (Hquiet _ _ _ _ Hin).
    + apply in_map_iff in Hin as [? [? _]]. discriminate.
  - intros c Hin. apply in_app_or in Hin as [Hin|Hin].
    + destruct (Hcalls c Hin) as [Hwf [langs Hsend]].
      split; [exact Hwf|]. exists langs. apply in_or_app. by left.
    + apply (newCalls_sent _ _ (settings st)) in Hin as [Hb Hsend].
      apply slice_In in Hb. split; [by apply Hnew|].
      exists (settings st). rewrite !in_app_iff. cbn [In]. rewrite !in_app_iff.
      tauto.
  - intros k inv Hlookup. destruct (decide (nextId st = k)) as [<-|Hne].
    + rewrite lookup_insert_eq in Hlookup. injection Hlookup as <-. exact Hnew.
    + rewrite lookup_insert_ne in Hlookup by done. by eapply Hbatches.
  - intros k call texts langs Hin.
    rewrite !in_app_iff in Hin. cbn [In] in Hin. rewrite !in_app_iff in Hin.
    destruct Hin as [Hin|[Hin|[Hin|[Hin|Hin]]]]; try discriminate.
    + by eapply Hsent.
    + apply in_map_iff in Hin as [? [? _]]. discriminate.
    + by destruct (Hquiet _ _ _ _ Hin).
    + apply newMessages_In in Hin as (b & Hb & ->). apply slice_In in Hb.
      exists b. split; [by apply Hnew|reflexivity].
Qed.

Lemma settles_posted (c : Call) st1 (st' : State C D) :
  Posted st1 -> Settles c st1 st' -> Posted st'.
Proof.
  intros [Hcalls Hbatches Hsent]
         [Hnone|inv Hinv Hpending|inv Hinv Hpending Hmore|inv Hinv].
  - by split.
  - split; cbn; try done. intros k inv' Hlookup.
    destruct (decide (callInvocation c = k)) as [<-|Hne].
    + rewrite lookup_insert_eq in Hlookup. injection Hlookup as <-.
      cbn. by eapply Hbatches.
    + rewrite lookup_insert_ne in Hlookup by done. by eapply Hbatches.
  - split; cbn [outstanding suspended trace].
    + intros call Hin. apply in_app_or in Hin as [Hin|Hin].
      * destruct (Hcalls call Hin) as [Hwf [langs Hsend]].
        split; [exact Hwf|]. exists langs. apply in_or_app. by left.
      * apply (newCalls_sent _ _ (settings st1)) in Hin as [Hb Hsend].
        apply slice_In in Hb. split; [by eapply Hbatches|].
        exists (settings st1). apply in_or_app. by right.
    + intros k inv' Hlookup.
      destruct (decide (callInvocation c = k)) as [<-|Hne].
      * rewrite lookup_insert_eq in Hlookup. injection Hlookup as <-.
        cbn. by eapply Hbatches.
      * rewrite lookup_insert_ne, lookup_delete_ne in Hlookup by done.
        by eapply Hbatches.
    + intros k call texts langs Hin. apply in_app_or in Hin as [Hin|Hin];
        [by eapply Hsent|].
      apply newMessages_In in Hin as (b & Hb & ->). apply slice_In in Hb.
      exists b. split; [by eapply Hbatches|reflexivity].
  - split; cbn [outstanding suspended trace].
    + intros call Hin. destruct (Hcalls call Hin) as [Hwf [langs Hsend]].
      split; [exact Hwf|]. exists langs. apply in_or_app. by left.
    + intros k inv' Hlookup. apply lookup_delete_Some in Hlookup as [_ Hlookup].
      by eapply Hbatches.
    + intros k call texts langs Hin. apply in_app_or in Hin as [Hin|Hin];
        [by eapply Hsent|].
      apply in_map_iff in Hin as [? [? _]]. discriminate.
Qed.

Lemma continued_posted st call (c' : C) (d' : D) (effects : list Effect) :
  forallb (fun e => negb (isSend e)) effects = true ->
  Posted st -> Posted (continued st call c' d' effects).
Proof.
  intros Hfx [Hcalls Hbatches Hsent]. split; cbn [outstanding suspended trace continued];
    try done.
  - intros c Hin. apply removeCall_In in Hin as [Hin _].
    destruct (Hcalls c Hin) as [Hwf [langs Hsend]].
    split; [exact Hwf|]. exists langs. apply in_or_app. by left.
  - intros k call' texts langs Hin. apply in_app_or in Hin as [Hin|Hin];
      [by eapply Hsent|]. by destruct (not_send_In _ _ _ _ _ Hfx Hin).
Qed.

Lemma respond_posted call (response : option Response) st :
  Posted st -> Posted (respond call response st).
Proof.
  intros Hst.
  destruct (respond_shape call response st)
    as [[_ ->]|(c & c' & d' & effects & _ & Hfx & _ & Hsettles)]; [done|].
  eapply settles_posted; [|exact Hsettles]. apply continued_posted; [|exact Hst].
  rewrite forallb_forall in Hfx. apply forallb_forall. intros e He.
  specialize (Hfx e He). by apply andb_true_iff in Hfx as [? _].
Qed.

Lemma reject_posted call st : Posted st -> Posted (reject call st).
Proof.
  intros Hst.
  destruct (reject_shape call st) as [[_ ->]|(c & _ & Hcases)]; [done|].
  cbn zeta in Hcases. destruct Hcases as [[_ ->]|(inv & Hinv & ->)].
  - by apply continued_posted.
  - apply (settles_posted c (continued st call (cache st) (document st) []));
      [by apply continued_posted|].
    by apply (Finished c (continued st call (cache st) (document st) []) inv).
Qed.

Lemma disable_posted st : Posted st -> Posted (disable st).
Proof.
  intros [Hcalls Hbatches Hsent]. unfold disable.
  destruct (isEnabled st); [|by split]. split; cbn; try done.
  - intros c Hin. destruct (Hcalls c Hin) as [Hwf [langs Hsend]].
    split; [exact Hwf|]. exists langs. apply in_or_app. by left.
  - intros k call texts langs Hin. apply in_app_or in Hin as [Hin|[Hin|[]]];
      [by eapply Hsent|discriminate].
Qed.

Lemma enable_posted (body : Root) (win : Window) st :
  Posted st -> Posted (enable body win st).
Proof.
  intros Hst. unfold enable, translateVisibleContent.
  destruct (isEnabled st); [done|].
  assert (Hon : Posted (setEnabled true st)) by (destruct Hst; by split).
  destruct (length (extractTextNodes body) =? 0); [done|].
  by apply translateNodesParallel_posted.
Qed.

Lemma flush_posted (nodesToProcess : list Root) st :
  Posted st -> Posted (flush nodesToProcess st).
Proof.
  unfold flush. revert st.
  induction nodesToProcess as [|root roots IH]; intros st Hst; [done|].
  cbn [foldl]. apply IH.
  destruct (0 <? length (extractTextNodes root)); [|done].
  by apply translateNodesParallel_posted.
Qed.

Lemma step_posted st (ev : Event) : Posted st -> Posted (step st ev).
Proof.
  intros Hst. destruct ev; cbn [step].
  - by apply enable_posted.
  - by apply disable_posted.
  - unfold toggle. destruct (isEnabled st);
      [by apply disable_posted|by apply enable_posted].
  - by apply flush_posted.
  - by apply respond_posted.
  - by apply reject_posted.
  - destruct Hst. by split.
Qed.

Lemma run_posted st (evs : list Event) : Posted st -> Posted (run st evs).
Proof.
  unfold run. revert st. induction evs as [|ev evs IH]; intros st Hst; [done|].
  cbn [foldl]. by apply IH, step_posted.
Qed.

Lemma initial_posted (src tgt : LanguageCode) (c : C) (d : D) :
  Posted (initial src tgt c d).
Proof. split; by cbn. Qed.

(** X10.  In every run, each message sent for translation carries at
    least one and at most [MAX_TEXTS_PER_REQUEST] = 8 texts; and for each
    call still outstanding, the message sent for it carried exactly the
    texts of its batch, and the nodes the results of its reply will be
    handed to the applier with are, position by position, units whose
    trimmed text is the text sent at that position. *)
Theorem every_message_is_well_formed
    (src tgt : LanguageCode) (c : C) (d : D) (evs : list Event) :
  let st := run (initial src tgt c d) evs in
  (forall k call texts langs,
     In (SendMessage k call texts langs) (trace st) ->
     1 <= length texts <= 8)
  /\ (forall call, In call (outstanding st) ->
        (exists langs,
            In (SendMessage (callInvocation call) (callId call)
                            (batchTexts (callBatch call)) langs) (trace st))
        /\ length (nodes (callBatch call)) = length (batchTexts (callBatch call))
        /\ forall i t, batchTexts (callBatch call) !! i = Some t ->
             exists unit, nodes (callBatch call) !! i = Some (Some unit)
                          /\ originalText unit = t).
Proof.
  cbn zeta. destruct (run_posted _ evs (initial_posted src tgt c d))
    as [Hcalls _ Hsent].
  split.
  - intros k call texts langs Hin.
    destruct (Hsent _ _ _ _ Hin) as (b & [Hsize _] & ->). exact Hsize.
  - intros call Hin. destruct (Hcalls call Hin) as [[_ Haligned] Hsend].
    split; [exact Hsend|]. split.
    + apply (f_equal length) in Haligned. by rewrite !length_map in Haligned.
    + intros i t Ht.
      apply (f_equal (fun l => l !! i)) in Haligned.
      rewrite !list_lookup_fmap, Ht in Haligned. cbn in Haligned.
      destruct (nodes (callBatch call) !! i) as [[unit|]|]; try discriminate.
      injection Haligned as Htext. by exists unit.
Qed.

End WithCollaborators.

Lemma every_message_is_well_formed_witness :
  1 <= length [Runs.helloText 1] <= 8.
Proof.
  destruct (every_message_is_well_formed en ko [] (Runs.helloPage 1)
              [Enable (Runs.helloBody 1) Runs.window]) as [Hsent _].
  apply (Hsent 0 1 [Runs.helloText 1] (en, ko)).
  vm_compute. auto 10.
Defined.

End MessageFacts.

(* ===================================================================== *)
(** * Progress of an invocation through its windows *)
(* ===================================================================== *)

Module ProgressFacts.

Import Constants TextExtractor ContentScript SchedulerFacts.

(** The text lists of the messages sent for invocation [k], in order. *)
Definition sentFor (k : nat) (effects : list Effect) : list (list jsstring) :=
  flat_map (fun e =>
              match e with
              | SendMessage k' _ texts _ => if k' =? k then [texts] else []
              | _ => []
              end) effects.

Lemma sentFor_app k (l1 l2 : list Effect) :
  sentFor k (l1 ++ l2) = sentFor k l1 ++ sentFor k l2.
Proof. apply flat_map_app. Qed.

Lemma sentFor_cons k (e : Effect) (effects : list Effect) :
  sentFor k (e :: effects)
  = match e with
    | SendMessage k' _ texts _ => if k' =? k then [texts] else []
    | _ => []
    end ++ sentFor k effects.
Proof. reflexivity. Qed.

Lemma sentFor_quiet k (effects : list Effect) :
  forallb (fun e => negb (isSend e)) effects = true -> sentFor k effects = [].
Proof.
  induction effects as [|e effects IH]; [reflexivity|].
  cbn [forallb]. intros Hall. apply andb_prop in Hall as [He Hall].
  rewrite sentFor_cons, (IH Hall). by destruct e.
Qed.

Lemma sentFor_map {A} k (f : A -> Effect) (l : list A) :
  (forall a, isSend (f a) = false) -> sentFor k (map f l) = [].
Proof.
  intros Hf. apply sentFor_quiet. induction l as [|a l IH]; [reflexivity|].
  cbn. by rewrite Hf, IH.
Qed.

Lemma sentFor_newMessages k k' first langs (batches : list Batch) :
  sentFor k (newMessages k' first langs batches)
  = if k' =? k then map batchTexts batches else [].
Proof.
  unfold newMessages. revert first.
  induction batches as [|b batches IH]; intros first.
  - by destruct (k' =? k).
  - rewrite imap_cons, sentFor_cons.
    rewrite (imap_ext _ (fun i b => SendMessage k' (S first + i) (batchTexts b) langs))
      by (intros i b' _; cbn; f_equal; lia).
    rewrite IH. by destruct (k' =? k).
Qed.

Section WithCollaborators.

Context {C D : Type} `{!TranslationCache C} `{!DomTranslator D}.

Implicit Types (st : State C D) (k call : nat) (inv : Invocation).

(** For every suspended invocation the messages sent so far are those of
    its batches up to the end of the current window, in order; and
    nothing has been sent under a number not yet given out. *)
Record Progress st : Prop := mkProgress {
  known : forall k inv, suspended st !! k = Some inv -> k < nextId st;
  sent_so_far : forall k inv, suspended st !! k = Some inv ->
      sentFor k (trace st)
      = map batchTexts (take (invI inv + MAX_CONCURRENT_REQUESTS) (invBatches inv));
  unsent : forall k, nextId st <= k -> sentFor k (trace st) = []
}.

Lemma applied_quiet k (applied : list Effect) (d' d : D) st :
  (d' = d /\ applied = []
   \/ isEnabled st = true /\ exists units results,
        d' = applyTranslations units results d
        /\ applied = [ApplyTranslations units results]) ->
  sentFor k applied = [].
Proof. by intros [[_ ->]|[_ (units & results & _ & ->)]]. Qed.

Lemma translateNodesParallel_progress (textNodes : list TextNodeInfo) st :
  Progress st -> Progress (translateNodesParallel textNodes st).
Proof.
  intros [Hknown Hsent Hunsent].
  destruct (translateNodesParallel_shape textNodes st)
    as [|split c' d' applied st' _ _ Happlied Hst']; [done|].
  pose proof (fun k => applied_quiet k _ _ _ _ Happlied) as Hquiet.
  destruct Hst' as [[_ ->]|[_ ->]];
    unfold completedAtOnce, suspendedAtFirstWindow; split;
    cbn [outstanding suspended trace nextId].
  - exact Hknown.
  - intros k inv Hk. rewrite !sentFor_app, sentFor_cons.
    rewrite sentFor_app, Hquiet, !sentFor_map by done.
    rewrite !app_nil_r. by apply Hsent.
  - intros k Hk. rewrite !sentFor_app, sentFor_cons.
    rewrite sentFor_app, Hquiet, !sentFor_map by done.
    rewrite !app_nil_r. by apply Hunsent.
  - intros k inv Hk. destruct (decide (nextId st = k)) as [<-|Hne]; [lia|].
    rewrite lookup_insert_ne in Hk by done. specialize (Hknown _ _ Hk). lia.
  - intros k inv Hk. rewrite !sentFor_app, sentFor_cons.
    rewrite sentFor_app, Hquiet, sentFor_map, sentFor_newMessages by done.
    cbn [app]. destruct (decide (nextId st = k)) as [<-|Hne].
    + rewrite lookup_insert_eq in Hk. injection Hk as <-. cbn [invI invBatches].
      rewrite Nat.eqb_refl, (Hunsent (nextId st)) by lia.
      unfold slice. by rewrite Nat.sub_0_r, drop_0.
    + rewrite lookup_insert_ne in Hk by done.
      destruct (Nat.eqb_spec (nextId st) k); [done|].
      rewrite app_nil_r. by apply Hsent.
  - intros k Hk. rewrite !sentFor_app, sentFor_cons.
    rewrite sentFor_app, Hquiet, sentFor_map, sentFor_newMessages by done.
    destruct (Nat.eqb_spec (nextId st) k); [lia|].
    rewrite !app_nil_r. apply Hunsent. lia.
Qed.

Lemma settles_progress (c : Call) st1 (st' : State C D) :
  Progress st1 -> Settles c st1 st' -> Progress st'.
Proof.
  intros [Hknown Hsent Hunsent]
         [Hnone|inv Hinv Hpending|inv Hinv Hpending Hmore|inv Hinv].
  - by split.
  - split; cbn [suspended trace nextId setSuspended]; [| |exact Hunsent].
    + intros k inv' Hk. destruct (decide (callInvocation c = k)) as [<-|Hne];
        [by eapply Hknown|].
      rewrite lookup_insert_ne in Hk by done. by eapply Hknown.
    + intros k inv' Hk. destruct (decide (callInvocation c = k)) as [<-|Hne].
      * rewrite lookup_insert_eq in Hk. injection Hk as <-. cbn. by apply Hsent.
      * rewrite lookup_insert_ne in Hk by done. by apply Hsent.
  - pose proof (Hknown _ _ Hinv) as Hlt.
    split; cbn [suspended trace nextId].
    + intros k inv' Hk. destruct (decide (callInvocation c = k)) as [<-|Hne]; [lia|].
      rewrite lookup_insert_ne, lookup_delete_ne in Hk by done.
      specialize (Hknown _ _ Hk). lia.
    + intros k inv' Hk. rewrite sentFor_app, sentFor_newMessages.
      destruct (decide (callInvocation c = k)) as [<-|Hne].
      * rewrite lookup_insert_eq in Hk. injection Hk as <-. cbn [invI invBatches].
        rewrite Nat.eqb_refl, (Hsent _ _ Hinv), <- map_app. f_equal.
        unfold currentWindow, nextWindow, slice. cbn [invI invBatches].
        rewrite take_take_drop. f_equal. lia.
      * rewrite lookup_insert_ne, lookup_delete_ne in Hk by done.
        destruct (Nat.eqb_spec (callInvocation c) k); [done|].
        rewrite app_nil_r. by apply Hsent.
    + intros k Hk. rewrite sentFor_app, sentFor_newMessages.
      destruct (Nat.eqb_spec (callInvocation c) k); [lia|].
      rewrite app_nil_r. apply Hunsent. lia.
  - split; cbn [suspended trace nextId].
    + intros k inv' Hk. apply lookup_delete_Some in Hk as [_ Hk]. by eapply Hknown.
    + intros k inv' Hk. apply lookup_delete_Some in Hk as [_ Hk].
      rewrite sentFor_app, sentFor_map, app_nil_r by done. by apply Hsent.
    + intros k Hk. rewrite sentFor_app, sentFor_map, app_nil_r by done.
      by apply Hunsent.
Qed.

Lemma continued_progress st call (c' : C) (d' : D) (effects : list Effect) :
  forallb (fun e => negb (isSend e)) effects = true ->
  Progress st -> Progress (continued st call c' d' effects).
Proof.
  intros Hfx [Hknown Hsent Hunsent]. split; cbn [suspended trace nextId continued].
  - exact Hknown.
  - intros k inv Hk. rewrite sentFor_app, (sentFor_quiet _ effects), app_nil_r by done.
    by apply Hsent.
  - intros k Hk. rewrite sentFor_app, (sentFor_quiet _ effects), app_nil_r by done.
    by apply Hunsent.
Qed.

Lemma sends_only (effects : list Effect) :
  forallb (fun e => negb (isSend e) && negb (isAdd e)) effects = true ->
  forallb (fun e => negb (isSend e)) effects = true.
Proof.
  intros Hfx. rewrite forallb_forall in Hfx. apply forallb_forall. intros e He.
  specialize (Hfx e He). by apply andb_true_iff in Hfx as [? _].
Qed.

Lemma respond_progress call (response : option Response) st :
  Progress st -> Progress (respond call response st).
Proof.
  intros Hst.
  destruct (respond_shape call response st)
    as [[_ ->]|(c & c' & d' & effects & _ & Hfx & _ & Hsettles)]; [done|].
  eapply settles_progress; [|exact Hsettles].
  apply continued_progress; [by apply sends_only|exact Hst].
Qed.

Lemma reject_progress call st : Progress st -> Progress (reject call st).
Proof.
  intros Hst.
  destruct (reject_shape call st) as [[_ ->]|(c & _ & Hcases)]; [done|].
  cbn zeta in Hcases. destruct Hcases as [[_ ->]|(inv & Hinv & ->)].
  - by apply continued_progress.
  - apply (settles_progress c (continued st call (cache st) (document st) []));
      [by apply continued_progress|].
    by apply (Finished c (continued st call (cache st) (document st) []) inv).
Qed.

Lemma disable_progress st : Progress st -> Progress (disable st).
Proof.
  intros [Hknown Hsent Hunsent]. unfold disable.
  destruct (isEnabled st); [|by split]. cbn [negb].
  unfold domRestore, emit, setDocument, setEnabled.
  split; cbn [suspended trace nextId]; [exact Hknown| |].
  - intros k inv Hk. rewrite sentFor_app, (sentFor_quiet _ [RestoreOriginal]) by done.
    rewrite app_nil_r. by apply Hsent.
  - intros k Hk. rewrite sentFor_app, (sentFor_quiet _ [RestoreOriginal]) by done.
    rewrite app_nil_r. by apply Hunsent.
Qed.

Lemma enable_progress (body : Root) (win : Window) st :
  Progress st -> Progress (enable body win st).
Proof.
  intros Hst. unfold enable, translateVisibleContent.
  destruct (isEnabled st); [done|].
  assert (Hon : Progress (setEnabled true st)) by (destruct Hst; by split).
  destruct (length (extractTextNodes body) =? 0); [done|].
  by apply translateNodesParallel_progress.
Qed.

Lemma flush_progress (nodesToProcess : list Root) st :
  Progress st -> Progress (flush nodesToProcess st).
Proof.
  unfold flush. revert st.
  induction nodesToProcess as [|root roots IH]; intros st Hst; [done|].
  cbn [foldl]. apply IH.
  destruct (0 <? length (extractTextNodes root)); [|done].
  by apply translateNodesParallel_progress.
Qed.

Lemma step_progress st (ev : Event) : Progress st -> Progress (step st ev).
Proof.
  intros Hst. destruct ev; cbn [step].
  - by apply enable_progress.
  - by apply disable_progress.
  - unfold toggle. destruct (isEnabled st);
      [by apply disable_progress|by apply enable_progress].
  - by apply flush_progress.
  - by apply respond_progress.
  - by apply reject_progress.
  - destruct Hst. by split.
Qed.

Lemma run_progress st (evs : list Event) : Progress st -> Progress (run st evs).
Proof.
  unfold run. revert st. induction evs as [|ev evs IH]; intros st Hst; [done|].
  cbn [foldl]. by apply IH, step_progress.
Qed.

Lemma initial_progress (src tgt : LanguageCode) (c : C) (d : D) :
  Progress (initial src tgt c d).
Proof.
  split; cbn; [|done..]. intros k inv Hk. by rewrite lookup_empty in Hk.
Qed.

(** When the call that settles ends invocation [k], the window loop has
    reached the end of the batches and only [finally] has run since. *)
Lemma fulfilled_over (c : Call) st1 k inv :
  suspended st1 !! k = Some inv ->
  suspended (fulfilled c st1) !! k = None ->
  length (invBatches inv) <= invI inv + MAX_CONCURRENT_REQUESTS
  /\ sentFor k (trace (fulfilled c st1)) = sentFor k (trace st1).
Proof.
  intros Hk. unfold fulfilled.
  destruct (suspended st1 !! callInvocation c) as [inv0|] eqn:Hinv;
    [|intros Hnone; congruence].
  destruct (length _ =? 0).
  - destruct (decide (invI inv0 + MAX_CONCURRENT_REQUESTS < length (invBatches inv0)))
      as [Hmore|Hdone].
    + rewrite windowLoop_launch by exact Hmore. cbn [suspended setSuspended].
      destruct (decide (callInvocation c = k)) as [<-|Hne].
      * by rewrite lookup_insert_eq.
      * rewrite lookup_insert_ne, lookup_delete_ne by done. congruence.
    + rewrite windowLoop_finally by (cbn; lia). rewrite finallyBlock_eq.
      cbn [suspended trace setSuspended invNewNodes].
      destruct (decide (callInvocation c = k)) as [<-|Hne].
      * intros _. assert (inv0 = inv) as -> by congruence.
        split; [lia|]. by rewrite sentFor_app, sentFor_map, app_nil_r.
      * rewrite lookup_delete_ne by done. congruence.
  - cbn [suspended setSuspended].
    destruct (decide (callInvocation c = k)) as [<-|Hne].
    + by rewrite lookup_insert_eq.
    + rewrite lookup_insert_ne by done. congruence.
Qed.

(** X11.  A call of the scheduler that no rejection cuts short sends
    every one of its batches, once and in order.  In every state of a
    run, the messages sent so far for a suspended invocation carry the
    texts of its batches from the first up to the end of its current
    window, in order and without repetition; and when the reply to a call
    ends the invocation, the messages sent for it were exactly its
    batches, all of them. *)
Theorem unrejected_invocation_sends_every_batch
    (src tgt : LanguageCode) (c : C) (d : D) (evs : list Event) k inv :
  let st := run (initial src tgt c d) evs in
  suspended st !! k = Some inv ->
  sentFor k (trace st)
  = map batchTexts (take (invI inv + MAX_CONCURRENT_REQUESTS) (invBatches inv))
  /\ forall call response,
       suspended (respond call response st) !! k = None ->
       sentFor k (trace (respond call response st))
       = map batchTexts (invBatches inv).
Proof.
  cbn zeta. set (st := run (initial src tgt c d) evs). intros Hk.
  destruct (run_progress _ evs (initial_progress src tgt c d)) as [_ Hsent _].
  fold st in Hsent. split; [by apply Hsent|].
  intros call response. unfold respond.
  destruct (findCall call (outstanding st)) as [c0|]; [|congruence].
  destruct (translateBatchResume_shape (callBatch c0) response
              (setOutstanding (removeCall call (outstanding st)) st))
    as (c' & d' & effects & Hfx & _ & ->).
  cbn [isEnabled settings translatingNodes outstanding suspended nextId trace
       setOutstanding].
  intros Hover.
  match type of Hover with
  | suspended (fulfilled c0 ?s) !! k = None =>
      destruct (fulfilled_over c0 s k inv Hk Hover) as [Hend ->]
  end.
  cbn [trace]. rewrite sentFor_app, (sentFor_quiet _ effects), app_nil_r
    by (by apply sends_only).
  rewrite (Hsent _ _ Hk), take_ge by lia. reflexivity.
Qed.

End WithCollaborators.

(** One paragraph, one batch: its message is sent by [enable()], and the
    reply ends the invocation with that one message sent. *)
Lemma unrejected_invocation_sends_every_batch_witness :
  sentFor 0 (trace (run (initial en ko [] (Runs.helloPage 1))
                        [Enable (Runs.helloBody 1) Runs.window]))
  = [[Runs.helloText 1]]
  /\ sentFor 0 (trace (respond 1 Runs.translatedOne
                         (run (initial en ko [] (Runs.helloPage 1))
                              [Enable (Runs.helloBody 1) Runs.window])))
     = [[Runs.helloText 1]].
Proof.
  destruct (unrejected_invocation_sends_every_batch en ko [] (Runs.helloPage 1)
              [Enable (Runs.helloBody 1) Runs.window] 0
              (mkInvocation
                 [mkTextNodeInfo 1 (Runs.helloText 1) (Runs.paragraph 101)]
                 [mkBatch [mkUncached 0 (Runs.helloText 1)]
                          [Some (mkTextNodeInfo 1 (Runs.helloText 1)
                                   (Runs.paragraph 101))]]
                 0 [1]))
    as [Hsent Hover]; [vm_compute; reflexivity|].
  split.
  - rewrite Hsent. vm_compute. reflexivity.
  - rewrite (Hover 1 Runs.translatedOne); [|vm_compute; reflexivity].
    vm_compute. reflexivity.
Defined.

End ProgressFacts.

(* ===================================================================== *)
(** * Properties of the mutation watcher *)
(* ===================================================================== *)

Module WatcherFacts.

Import Constants TextExtractor ContentScript SchedulerFacts Watcher.

Lemma pushAll_eq (roots : list (list Node)) (w : t) :
  foldl (fun w s => push (ShadowRoot s) (observeShadowRoot (ShadowRoot s) w)) w roots
  = mk (pendingNodes w ++ map ShadowRoot roots) (debounceTimer w)
       (shadowObservers w ++ map ShadowRoot roots).
Proof.
  revert w. induction roots as [|s roots IH]; intros w.
  - cbn. rewrite !app_nil_r. by destruct w.
  - cbn [foldl]. rewrite IH. cbn. by rewrite <- !app_assoc.
Qed.

Lemma added_eq (node : Node) (w : t) :
  added node w
  = mk (pendingNodes w ++ queueFor node) (debounceTimer w)
       (shadowObservers w
          ++ List.filter (fun r => match r with ShadowRoot _ => true | _ => false end)
                         (queueFor node)).
Proof.
  assert (Hshadows : forall roots : list (list Node),
            List.filter (fun r => match r with ShadowRoot _ => true | _ => false end)
                        (map ShadowRoot roots) = map ShadowRoot roots).
  { induction roots as [|s roots IH]; [reflexivity|]. cbn. by rewrite IH. }
  destruct node as [t|element childNodes [s|]]; cbn [added queueFor].
  - cbn. rewrite !app_nil_r. by destruct w.
  - rewrite pushAll_eq. cbn. rewrite Hshadows.
    by rewrite <- !app_assoc.
  - rewrite pushAll_eq. cbn. rewrite Hshadows.
    by rewrite <- !app_assoc.
Qed.

Lemma addedAll_pending (nodes : list Node) (w : t) :
  pendingNodes (foldl (fun w node => added node w) w nodes)
  = pendingNodes w ++ flat_map queueFor nodes
  /\ debounceTimer (foldl (fun w node => added node w) w nodes) = debounceTimer w.
Proof.
  revert w. induction nodes as [|node nodes IH]; intros w.
  - cbn. by rewrite app_nil_r.
  - cbn [foldl flat_map]. destruct (IH (added node w)) as [-> ->].
    rewrite added_eq. cbn. by rewrite <- app_assoc.
Qed.

(** The timer is armed exactly while nodes are queued. *)
Definition Armed (w : t) : Prop :=
  debounceTimer w = true <-> pendingNodes w <> [].

Lemma handleMutations_pending (isEnabled : bool) (mutations : list MutationRecord)
    (w : t) :
  Armed w ->
  Armed (handleMutations isEnabled mutations w)
  /\ pendingNodes (handleMutations isEnabled mutations w)
     = pendingNodes w ++ queued [Mutations isEnabled mutations].
Proof.
  intros Hw. unfold handleMutations, queued. cbn [flat_map]. rewrite app_nil_r.
  destruct isEnabled; cbn [negb]; [|by rewrite app_nil_r].
  destruct (addedAll_pending (flat_map addedNodes mutations) w) as [Hpending Htimer].
  set (w' := foldl _ w _) in *. unfold Armed in *.
  assert (Hp : pendingNodes w' <> [] <-> 0 < length (pendingNodes w')).
  { destruct (pendingNodes w'); cbn; split; try done; lia. }
  assert (Hkeep : debounceTimer w' = true -> pendingNodes w' <> []).
  { rewrite Htimer, Hpending. intros Harmed. apply Hw in Harmed.
    by destruct (pendingNodes w). }
  split; [|by destruct ((0 <? length (pendingNodes w')) && negb (debounceTimer w'))].
  destruct (Nat.ltb_spec 0 (length (pendingNodes w'))) as [Hsome|Hnone];
    destruct (debounceTimer w') eqn:Harmed;
    cbn [negb andb pendingNodes debounceTimer]; rewrite ?Harmed, Hp;
    split; intros Hgoal; try done; try lia.
  apply Hp, Hkeep. reflexivity.
Qed.

Lemma watch_spec (notices : list Notice) (w : t) :
  Armed w ->
  let '(flushed, w') := watch w notices in
  concat flushed ++ pendingNodes w' = pendingNodes w ++ queued notices
  /\ Armed w'
  /\ Forall (fun nodesToProcess => nodesToProcess <> []) flushed.
Proof.
  revert w. induction notices as [|[isEnabled mutations|] notices IH]; intros w Hw.
  - cbn. by rewrite app_nil_r.
  - cbn [watch]. destruct (handleMutations_pending isEnabled mutations w Hw)
      as [Hw' Hpending].
    specialize (IH _ Hw'). destruct (watch _ notices) as [flushed w'].
    destruct IH as (Hall & Harmed & Hflushed). split; [|by split].
    rewrite Hall, Hpending. unfold queued. cbn [flat_map].
    by rewrite !app_nil_r, <- app_assoc.
  - cbn [watch]. destruct (debounceTimer w) eqn:Htimer.
    + unfold expire.
      assert (Hw' : Armed (mk [] false (shadowObservers w))) by (by split).
      specialize (IH _ Hw'). destruct (watch _ notices) as [flushed w'].
      destruct IH as (Hall & Harmed & Hflushed). split; [|split; [exact Harmed|]].
      * cbn [concat pendingNodes app] in *. rewrite <- app_assoc, Hall.
        unfold queued. by cbn.
      * constructor; [|exact Hflushed]. by apply Hw.
    + specialize (IH _ Hw). destruct (watch w notices) as [flushed w'].
      destruct IH as (Hall & Harmed & Hflushed). split; [|by split].
      rewrite Hall. unfold queued. by cbn.
Qed.

(** X12.  The watcher loses nothing and flushes nothing twice.  Over any
    sequence of deliveries of mutation records and expiries of the timer,
    the lists the timer flushes, one after the other, followed by what is
    still queued, are exactly what the records delivered while the
    pipeline was enabled queue, in order of arrival: each added element,
    then its own shadow root, then the shadow roots below it.  Records
    delivered while the pipeline is disabled queue nothing.  The timer is
    armed exactly while something is queued, so that a burst of
    deliveries is flushed by one expiry, and no flush is empty. *)
Theorem watcher_flushes_each_queued_node_once (notices : list Notice) :
  let '(flushed, w) := watch initial notices in
  concat flushed ++ pendingNodes w = queued notices
  /\ (debounceTimer w = true <-> pendingNodes w <> [])
  /\ Forall (fun nodesToProcess => nodesToProcess <> []) flushed
  /\ forall mutations w0, handleMutations false mutations w0 = w0.
Proof.
  assert (Hinitial : Armed initial) by (by split).
  pose proof (watch_spec notices initial Hinitial) as Hspec.
  destruct (watch initial notices) as [flushed w].
  destruct Hspec as (Hall & Harmed & Hflushed).
  split; [exact Hall|]. split; [exact Harmed|]. split; [exact Hflushed|].
  reflexivity.
Qed.

(** ** Shadow roots below an added element *)

Lemma shadowHosts_extracted (n : Node) (s : list Node) (u : TextNodeInfo) :
  In s (shadowHosts n) -> In u (extractTextNodes (ShadowRoot s)) ->
  In u (shadowRootsBelow n).
Proof.
  induction n as [t|e childNodes shadowRoot IH _]
    using TextExtractorFacts.Node_forall_ind; intros Hs Hu; [destruct Hs|].
  cbn [shadowHosts shadowRootsBelow] in *. apply in_or_app.
  apply in_app_or in Hs as [Hs|Hs].
  - left. destruct shadowRoot as [s'|]; [|destruct Hs].
    destruct Hs as [->|[]]. exact Hu.
  - right. apply in_flat_map in Hs as (child & Hchild & Hs).
    apply in_flat_map. exists child. split; [exact Hchild|].
    rewrite Forall_forall in IH. apply IH; [by apply list_elem_of_In|exact Hs|exact Hu].
Qed.

Section WithCollaborators.

Context {C D : Type} `{!TranslationCache C} `{!DomTranslator D}.

Implicit Types (st : State C D).

(** Units offered again while the call that took them is suspended are
    all filtered out. *)
Lemma offered_again (textNodes textNodes' : list TextNodeInfo) st :
  (forall u, In u textNodes' -> In u textNodes) ->
  outstanding (translateNodesParallel textNodes st) <> outstanding st ->
  translateNodesParallel textNodes' (translateNodesParallel textNodes st)
  = translateNodesParallel textNodes st.
Proof.
  intros Hsub Hsent.
  assert (Hnone : newNodesOf (translateNodesParallel textNodes st) textNodes' = []).
  { destruct (translateNodesParallel_shape textNodes st)
      as [|split c' d' applied st' _ _ _ [[_ ->]|[_ ->]]]; [done|done|].
    destruct (newNodesOf _ textNodes') as [|u us] eqn:Hnew; [reflexivity|].
    exfalso. assert (Hu : In u (u :: us)) by (by left). rewrite <- Hnew in Hu.
    apply newNodesOf_In in Hu as (Hin & Hout & Hlang).
    unfold suspendedAtFirstWindow in Hout, Hlang.
    cbn [translatingNodes stSourceLang settings] in Hout, Hlang.
    apply Hout. apply elem_of_union.
    destruct (decide (node u ∈ translatingNodes st)) as [|Hfree]; [by right|].
    left. apply nodeSet_In, newNodesOf_In. by split; [apply Hsub|]. }
  unfold translateNodesParallel at 1.
  fold (newNodesOf (translateNodesParallel textNodes st) textNodes').
  by rewrite Hnone.
Qed.

(** X13.  An element added to the page together with a shadow root
    somewhere below it has that shadow root queued as well as itself, and
    extracting the element already yields every unit that extracting the
    shadow root yields: the flush extracts those units twice.  When the
    scheduling call for the element has sent a message and is suspended,
    the call for the shadow root finds all its units in flight or
    filtered and does nothing. *)
Theorem shadow_root_below_added_element_is_extracted_twice
    (element : Element) (childNodes : list Node) (shadowRoot : option (list Node))
    (s : list Node) :
  In s (flat_map shadowHosts childNodes) ->
  let node := ElementNode element childNodes shadowRoot in
  let root := ElementRoot element childNodes shadowRoot in
  In root (queueFor node)
  /\ In (ShadowRoot s) (queueFor node)
  /\ (forall u, In u (extractTextNodes (ShadowRoot s)) ->
                In u (extractTextNodes root))
  /\ forall st,
       let st1 := translateNodesParallel (extractTextNodes root) st in
       outstanding st1 <> outstanding st ->
       translateNodesParallel (extractTextNodes (ShadowRoot s)) st1 = st1.
Proof.
  intros Hs. cbn zeta.
  assert (Htwice : forall u, In u (extractTextNodes (ShadowRoot s)) ->
            In u (extractTextNodes (ElementRoot element childNodes shadowRoot))).
  { intros u Hu. cbn [extractTextNodes]. unfold extractFromNode at 1.
    apply in_or_app. right. unfold extractFromShadowRoots.
    apply in_flat_map in Hs as (child & Hchild & Hs).
    apply in_flat_map. exists child. split; [exact Hchild|].
    by apply (shadowHosts_extracted child s u). }
  split; [by left|]. split.
  - cbn [queueFor]. right. apply in_or_app. right. by apply in_map.
  - split; [exact Htwice|]. intros st. by apply offered_again.
Qed.

End WithCollaborators.

(** A section is added to the page; the card inside it hosts a shadow
    tree with one paragraph. *)
Definition shadowContent : list Node :=
  [ElementNode (Runs.paragraph 201)
     [TextNode (mkText 21 (ofString "Inside the shadow tree"))] None].

Definition card : Node := ElementNode (Runs.paragraph 200) [] (Some shadowContent).

Lemma shadow_root_below_added_element_is_extracted_twice_witness :
  extractTextNodes (ShadowRoot shadowContent)
  = [mkTextNodeInfo 21 (ofString "Inside the shadow tree") (Runs.paragraph 201)]
  /\ In (mkTextNodeInfo 21 (ofString "Inside the shadow tree") (Runs.paragraph 201))
        (extractTextNodes (ElementRoot (Runs.paragraph 199) [card] None)).
Proof.
  split; [reflexivity|].
  destruct (shadow_root_below_added_element_is_extracted_twice
              (C := list Page.Entry) (D := Page.t)
              (Runs.paragraph 199) [card] None shadowContent)
    as (_ & _ & Htwice & _); [by left|].
  apply Htwice. by left.
Defined.

End WatcherFacts.

(* ===================================================================== *)
(** * Properties of the background service worker *)
(* ===================================================================== *)

Module ServiceWorkerFacts.

Import ContentScript SchedulerFacts ServiceWorker.

(** What [handleMessage] does with a [TRANSLATE_TEXT] message carrying
    texts. *)
Lemma listener_translateText (apiClient : ApiClient) (settings : TranslationSettings)
    (texts : list jsstring) (langs : LanguageCode * LanguageCode) :
  texts <> [] ->
  let call := mkApiCall texts (Some (fst langs)) (Some (snd langs)) in
  listener apiClient settings (translateText texts langs)
  = (Translation
       match apiClient call with
       | inr data => mkResponse true (Some data) None
       | inl error => mkResponse false None (Some (messageOf error "Translation failed"))
       end, settings, [call]).
Proof.
  intros Hne. destruct texts as [|t texts]; [done|].
  unfold listener, handleMessage, handleTranslate, translateText. cbn.
  by destruct (apiClient _).
Qed.

Section WithCollaborators.

Context {C D : Type} `{!TranslationCache C} `{!DomTranslator D}.

(** X14.  Every translation message the scheduler sends in any run makes
    the service worker call the API client exactly once, with the texts
    and the language pair of the message; the shortcut for an empty list
    of texts is never taken.  The worker answers with the client's pairs
    as they are when the client returns, and with a failure carrying the
    error's message when it throws; the stored settings are not
    touched. *)
Theorem service_worker_relays_each_batch_once
    (src tgt : LanguageCode) (c : C) (d : D) (evs : list Event)
    (apiClient : ApiClient) (settings : TranslationSettings)
    k call (texts : list jsstring) (langs : LanguageCode * LanguageCode) :
  In (SendMessage k call texts langs) (trace (run (initial src tgt c d) evs)) ->
  let request := mkApiCall texts (Some (fst langs)) (Some (snd langs)) in
  listener apiClient settings (translateText texts langs)
  = (Translation
       match apiClient request with
       | inr data => mkResponse true (Some data) None
       | inl error => mkResponse false None (Some (messageOf error "Translation failed"))
       end, settings, [request]).
Proof.
  intros Hsent. apply listener_translateText.
  destruct (MessageFacts.run_posted _ evs (MessageFacts.initial_posted src tgt c d))
    as [_ _ Hwf].
  destruct (Hwf _ _ _ _ Hsent) as (b & [Hsize _] & ->).
  intros Hnil. rewrite Hnil in Hsize. cbn in Hsize. lia.
Qed.

End WithCollaborators.

(** A client that answers every text with "안녕". *)
Definition greetingClient : ApiClient :=
  fun call => inr (map (fun t => mkTranslatedText t Runs.annyeong) (callTexts call)).

Lemma service_worker_relays_each_batch_once_witness :
  listener greetingClient (mkSettings en ko false)
           (translateText [Runs.helloText 1] (en, ko))
  = (Translation
       (mkResponse true
          (Some [mkTranslatedText (Runs.helloText 1) Runs.annyeong]) None),
     mkSettings en ko false,
     [mkApiCall [Runs.helloText 1] (Some en) (Some ko)]).
Proof.
  apply (service_worker_relays_each_batch_once en ko [] (Runs.helloPage 1)
           [Enable (Runs.helloBody 1) Runs.window] greetingClient
           (mkSettings en ko false) 0 1 [Runs.helloText 1] (en, ko)).
  vm_compute. auto 10.
Defined.

Definition handled (type : string) : bool :=
  existsb (String.eqb type)
          ["TRANSLATE_TEXT"; "GET_STATUS"; "TOGGLE_TRANSLATION"; "UPDATE_SETTINGS"]%string.

(** X15.  The service worker answers every message once and calls the API
    client at most once, and only for [TRANSLATE_TEXT].  A
    [TRANSLATE_TEXT] message whose texts are missing or empty is answered
    with success and no data without any call; one without a payload is
    answered with a failure.  A message of any type outside the four the
    worker handles, the two selection types among them, is answered with
    the failure "Unknown message type" and changes nothing.
    [TOGGLE_TRANSLATION] inverts the stored automatic-translation flag,
    reports the new value and keeps the language pair, so that toggling
    twice restores the settings. *)
Theorem service_worker_answers_every_message
    (apiClient : ApiClient) (settings : TranslationSettings) (message : Message) :
  let '(reply, settings', calls) := listener apiClient settings message in
  length calls <= 1
  /\ (type message <> "TRANSLATE_TEXT"%string -> calls = [])
  /\ (type message = "TRANSLATE_TEXT"%string ->
      settings' = settings
      /\ match payload message with
         | None => calls = [] /\ exists error,
                     reply = Translation (mkResponse false None (Some error))
         | Some p =>
             match texts p with
             | None | Some [] =>
                 calls = [] /\ reply = Translation (mkResponse true (Some []) None)
             | Some texts =>
                 calls = [mkApiCall texts (payloadSourceLang p) (payloadTargetLang p)]
             end
         end)
  /\ (handled (type message) = false ->
      settings' = settings
      /\ reply = Translation
                   (mkResponse false None
                      (Some (String.append "Unknown message type: " (type message)))))
  /\ (type message = "TOGGLE_TRANSLATION"%string ->
      reply = Enabled (negb (autoTranslate settings))
      /\ settings' = mkSettings (sourceLang settings) (targetLang settings)
                                (negb (autoTranslate settings))
      /\ snd (fst (listener apiClient settings' message)) = settings).
Proof.
  unfold listener, handleMessage, handled. cbn [existsb].
  destruct (String.eqb_spec (type message) "TRANSLATE_TEXT") as [Htype|Htype].
  { unfold handleTranslate. rewrite Htype.
    destruct (payload message) as [p|]; [destruct (texts p) as [[|t texts']|]|];
      try destruct (apiClient _); cbn;
      (split; [lia|]); (split; [done|]); (split; [|split; [done|done]]);
      intros _; (split; [reflexivity|]); try done.
    split; [reflexivity|]. eauto. }
  destruct (String.eqb_spec (type message) "GET_STATUS") as [Hstatus|Hstatus].
  { cbn. rewrite Hstatus. repeat split; first [done|lia]. }
  destruct (String.eqb_spec (type message) "TOGGLE_TRANSLATION") as [Htoggle|Htoggle].
  { cbn. rewrite Htoggle. cbn. repeat split; try done; try lia.
    destruct settings as [s t a]. cbn. by rewrite negb_involutive. }
  destruct (String.eqb_spec (type message) "UPDATE_SETTINGS") as [Hupdate|Hupdate].
  { cbn. rewrite Hupdate. repeat split; first [done|lia]. }
  cbn. repeat split; first [done|lia].
Qed.

End ServiceWorkerFacts.

(* ===================================================================== *)
(** * Further properties of the remote translation boundary *)
(* ===================================================================== *)

Module BoundaryFacts.

Import Api.

Lemma LANG_NAMES_listed (code : string) :
  (exists name, LANG_NAMES code = Named name)
  <-> In code ["en"; "ko"; "ja"; "zh"; "es"; "fr"; "de"]%string.
Proof.
  unfold LANG_NAMES. cbn [In].
  repeat match goal with
         | |- context [String.eqb code ?c] =>
             destruct (String.eqb_spec code c) as [->|?]
         end;
    try (split; [intros _; tauto|intros _; by eexists]).
  split; [intros [name Hname]; discriminate|]. intros Hin.
  repeat (destruct Hin as [Hin|Hin]; [congruence|]). destruct Hin.
Qed.

(** X16.  What a request costs and how the provider's answer comes back.
    A [POST] request with between one and fifty texts and both language
    codes makes the handler call the provider exactly once when the API
    key is configured, and not at all when it is not.  The call carries
    the request's texts as they are and, in its prompt, what [LANG_NAMES]
    gives for the two codes: a language name exactly for the seven codes
    of the table, and no name for any other code, which the handler
    accepts all the same.  The answer is 200 with one pair per text when
    the provider's content parses, and otherwise 500 with a structured
    failure: the configuration error, the provider's status and error
    text, "Empty response from DeepSeek", or the message of whatever was
    thrown. *)
Theorem valid_request_costs_one_provider_call
    (env : Env) (b : Body) (texts : list jsstring) (sourceLang targetLang : string) :
  Api.texts b = Some texts -> 1 <= length texts <= 50 ->
  bodySourceLang b = Some sourceLang -> sourceLang <> ""%string ->
  bodyTargetLang b = Some targetLang -> targetLang <> ""%string ->
  let call := mkProviderCall texts (LANG_NAMES sourceLang) (LANG_NAMES targetLang) in
  let '(response, calls) := handler env (mkRequest "POST" (Some b)) in
  (missing (DEEPSEEK_API_KEY env) = true ->
   calls = []
   /\ response = mkHttpResponse 500
        (Some (Failure (Message "DEEPSEEK_API_KEY is not configured"))))
  /\ (missing (DEEPSEEK_API_KEY env) = false ->
      calls = [call]
      /\ match provider env call with
         | Parsed translations =>
             status response = 200
             /\ exists data, payload response = Some (Success data)
                             /\ length data = length texts
         | FetchThrows message | NotJson message =>
             response = mkHttpResponse 500 (Some (Failure (Message message)))
         | NotOk code errorText =>
             response = mkHttpResponse 500
                          (Some (Failure (DeepSeekApiError code errorText)))
         | NoContent =>
             response = mkHttpResponse 500
                          (Some (Failure (Message "Empty response from DeepSeek")))
         end)
  /\ (forall code,
        (exists name, LANG_NAMES code = Named name)
        <-> In code ["en"; "ko"; "ja"; "zh"; "es"; "fr"; "de"]%string)
  /\ (forall code, ~ In code ["en"; "ko"; "ja"; "zh"; "es"; "fr"; "de"]%string ->
        LANG_NAMES code = Unlisted code).
Proof.
  intros Htexts Hlen Hsrc Hsrc' Htgt Htgt'. cbn zeta.
  assert (Hunlisted : forall code,
            ~ In code ["en"; "ko"; "ja"; "zh"; "es"; "fr"; "de"]%string ->
            LANG_NAMES code = Unlisted code).
  { intros code Hout. unfold LANG_NAMES.
    repeat match goal with
           | |- context [String.eqb code ?c] =>
               destruct (String.eqb_spec code c) as [->|?];
                 [exfalso; apply Hout; cbn; tauto|]
           end.
    reflexivity. }
  unfold handler. cbn [method body String.eqb Ascii.eqb Bool.eqb negb].
  rewrite Htexts. destruct texts as [|t texts']; [cbn in Hlen; lia|].
  remember (t :: texts') as texts0 eqn:Htexts0.
  destruct (Nat.ltb_spec 50 (length texts0)) as [|_]; [lia|].
  rewrite Hsrc, Htgt. unfold missing at 1 2.
  destruct (String.eqb_spec sourceLang "") as [|_]; [done|].
  destruct (String.eqb_spec targetLang "") as [|_]; [done|].
  cbn [orb]. change (default ""%string (Some sourceLang)) with sourceLang.
  change (default ""%string (Some targetLang)) with targetLang.
  unfold translateWithDeepSeek.
  destruct (missing (DEEPSEEK_API_KEY env)).
  { cbn. split; [done|]. split; [discriminate|].
    split; [apply LANG_NAMES_listed|exact Hunlisted]. }
  destruct (provider env (mkProviderCall texts0 (LANG_NAMES sourceLang)
                                         (LANG_NAMES targetLang)));
    cbn [fst snd status payload]; (split; [discriminate|]);
    (split; [|split; [apply LANG_NAMES_listed|exact Hunlisted]]);
    intros _; (split; [reflexivity|]); try reflexivity.
  split; [reflexivity|]. eexists. split; [reflexivity|]. apply length_imap.
Qed.

(** X17.  In a successful response, with [translations] what the call of
    the provider returned for the request's texts, every pair's
    translation is the provider's translation at that position when there
    is one and it is not the empty string, and the original text
    otherwise; so a translation is empty only where the original is. *)
Theorem translation_falls_back_to_original
    (env : Env) (req : Request) (code : nat) (data : list TranslatedText) :
  fst (handler env req) = mkHttpResponse code (Some (Success data)) ->
  exists b texts (translations : list jsstring) calls,
    body req = Some b /\ Api.texts b = Some texts
    /\ translateWithDeepSeek env texts (default ""%string (bodySourceLang b))
                             (default ""%string (bodyTargetLang b))
       = (inr translations, calls)
    /\ (forall i r, data !! i = Some r ->
          texts !! i = Some (original r)
          /\ translated r
             = match translations !! i with
               | Some (c :: t) => c :: t
               | Some [] | None => original r
               end)
    /\ (forall r, In r data -> translated r = [] -> original r = []).
Proof.
  unfold handler.
  destruct (String.eqb (method req) "OPTIONS"); [discriminate|].
  destruct (String.eqb (method req) "POST"); [|discriminate].
  cbn [negb]. destruct (body req) as [b|]; [|discriminate].
  destruct (Api.texts b) as [[|t texts']|] eqn:Htexts; [discriminate| |discriminate].
  remember (t :: texts') as texts0 eqn:Htexts0.
  destruct (50 <? length texts0); [discriminate|].
  destruct (missing (bodySourceLang b) || missing (bodyTargetLang b)); [discriminate|].
  destruct (translateWithDeepSeek env texts0 _ _) as [[message|translations] calls]
    eqn:Hprovider; [discriminate|].
  cbn [fst]. intros [= <- <-]. exists b, texts0, translations, calls.
  split; [reflexivity|]. split; [exact Htexts|]. split; [exact Hprovider|].
  assert (Hentry : forall i r,
            imap (fun index original =>
                    mkTranslatedText original (translationOr translations index original))
                 texts0 !! i = Some r ->
            texts0 !! i = Some (original r)
            /\ translated r
               = match translations !! i with
                 | Some (c :: t) => c :: t
                 | Some [] | None => original r
                 end).
  { intros i r Hr. apply ApiFacts.imap_lookup_Some in Hr as [orig [Horig ->]].
    cbn [translated original]. split; [exact Horig|]. unfold translationOr.
    by destruct (translations !! i) as [[|c0 t0]|]. }
  split; [exact Hentry|].
  intros r Hin Hempty. apply list_elem_of_In, list_elem_of_lookup in Hin as [i Hi].
  destruct (Hentry i r Hi) as [_ Htranslated]. rewrite Hempty in Htranslated.
  by destruct (translations !! i) as [[|c0 t0]|].
Qed.

(** X18.  The statuses and payloads of the handler.  The status is 200,
    400, 405 or 500; a response carries no payload exactly when the
    request is a preflight; a success payload comes with status 200 and
    only for a [POST], a failure payload with 400, 405 or 500; and the
    provider has been called only when the status is 200 or 500, never
    for a request answered 400 or 405. *)
Theorem handler_status_matches_payload (env : Env) (req : Request) :
  let '(response, calls) := handler env req in
  In (status response) [200; 400; 405; 500]
  /\ (payload response = None <-> method req = "OPTIONS"%string)
  /\ (forall data, payload response = Some (Success data) ->
        status response = 200 /\ method req = "POST"%string)
  /\ (forall error, payload response = Some (Failure error) ->
        In (status response) [400; 405; 500])
  /\ (calls <> [] -> In (status response) [200; 500]).
Proof.
  unfold handler.
  destruct (String.eqb_spec (method req) "OPTIONS") as [Hoptions|Hoptions].
  { cbn. repeat split; try done; auto. }
  destruct (String.eqb_spec (method req) "POST") as [Hpost|Hpost]; cbn [negb].
  2:{ cbn. repeat split; try done; auto 10. }
  destruct (body req) as [b|].
  2:{ cbn. repeat split; try done; auto 10. }
  destruct (texts b) as [[|t texts']|].
  1,3: cbn; repeat split; try done; auto 10.
  destruct (50 <? length (t :: texts')).
  { cbn. repeat split; try done; auto 10. }
  destruct (missing (bodySourceLang b) || missing (bodyTargetLang b)).
  { cbn. repeat split; try done; auto 10. }
  destruct (translateWithDeepSeek env _ _ _) as [[message|translations] calls];
    cbn [status payload]; repeat split; try done; cbn; auto 10.
Qed.

Lemma valid_request_costs_one_provider_call_witness :
  snd (handler ApiFacts.shortEnv ApiFacts.twoTexts)
  = [mkProviderCall [ofString "Hello"; ofString "World"]
                    (Named "English") (Named "Korean")].
Proof.
  pose proof (valid_request_costs_one_provider_call ApiFacts.shortEnv
                (mkBody (Some [ofString "Hello"; ofString "World"])
                        (Some "en"%string) (Some "ko"%string))
                [ofString "Hello"; ofString "World"] "en" "ko"
                eq_refl ltac:(cbn; lia) eq_refl ltac:(discriminate)
                eq_refl ltac:(discriminate)) as Hcost.
  cbn zeta in Hcost. change (mkRequest "POST" _) with ApiFacts.twoTexts in Hcost.
  destruct (handler ApiFacts.shortEnv ApiFacts.twoTexts) as [response calls].
  destruct Hcost as (_ & Hcalls & _). by destruct (Hcalls eq_refl) as [-> _].
Defined.

(** The provider answers the second text with the empty string. *)
Definition blankEnv : Env :=
  mkEnv (Some "key"%string) (fun _ => Parsed (Some [[0xC548; 0xB155]%N; []])).

Lemma translation_falls_back_to_original_witness :
  fst (handler blankEnv ApiFacts.twoTexts)
  = mkHttpResponse 200
      (Some (Success [ mkTranslatedText (ofString "Hello") [0xC548; 0xB155]%N;
                       mkTranslatedText (ofString "World") (ofString "World") ]))
  /\ forall r,
       In r [ mkTranslatedText (ofString "Hello") [0xC548; 0xB155]%N;
              mkTranslatedText (ofString "World") (ofString "World") ] ->
       translated r = [] -> original r = [].
Proof.
  split; [reflexivity|].
  destruct (translation_falls_back_to_original blankEnv ApiFacts.twoTexts 200
              [ mkTranslatedText (ofString "Hello") [0xC548; 0xB155]%N;
                mkTranslatedText (ofString "World") (ofString "World") ] eq_refl)
    as (b & texts & translations & calls & _ & _ & _ & _ & Hnonempty).
  exact Hnonempty.
Defined.

End BoundaryFacts.
